(** * go-command: command registries, dispatch and the gorilla/mux adapter

    A shallow embedding of the packages [command] (StringArgsDispatcher,
    SuperStringArgsDispatcher) and [gorillamux] (the http handlers built
    around a command function), followed by the properties of the
    specification that concern them.

    Go strings are byte sequences: they are Rocq [string]s, one [ascii]
    per byte.  Go maps are [gmap]s.  The calls a method makes to its
    collaborators (loggers, bound command functions, result writers,
    error handlers) go through an explicit state, which also records
    every such call in order. *)

From Stdlib Require Import ZArith Ascii String.
From stdpp Require Import gmap strings list fin_maps sorting.

Local Open Scope Z_scope.

(** ** The part of the Go standard library used by the sources *)

Abbreviation rune := Z (only parsing).

Definition byte_val (c : ascii) : Z := Z.of_N (N_of_ascii c).

(** [s[n:]] for [n <= len(s)]. *)
Fixpoint skip (n : nat) (s : string) : string :=
  match n, s with
  | O, _ => s
  | S n', String _ t => skip n' t
  | S _, EmptyString => EmptyString
  end.

Module utf8.

Definition RuneError : rune := 0xFFFD.

Definition locb : Z := 0x80.
Definition hicb : Z := 0xBF.
Definition maskx : Z := 0x3F.
Definition mask2 : Z := 0x1F.
Definition mask3 : Z := 0x0F.
Definition mask4 : Z := 0x07.

(** Information about the first byte of an encoding: [xx] invalid,
    [as_] ASCII, otherwise the size in the low bits and the index of the
    accept range of the second byte in the high bits. *)
Definition xx : Z := 0xF1.
Definition as_ : Z := 0xF0.
Definition s1 : Z := 0x02.
Definition s2 : Z := 0x13.
Definition s3 : Z := 0x03.
Definition s4 : Z := 0x23.
Definition s5 : Z := 0x34.
Definition s6 : Z := 0x04.
Definition s7 : Z := 0x44.

Definition first (b : Z) : Z :=
  if b <? 0x80 then as_
  else if b <? 0xC2 then xx
  else if b <? 0xE0 then s1
  else if b =? 0xE0 then s2
  else if b <? 0xED then s3
  else if b =? 0xED then s4
  else if b <? 0xF0 then s3
  else if b =? 0xF0 then s5
  else if b <? 0xF4 then s6
  else if b =? 0xF4 then s7
  else xx.

Definition acceptRanges (i : Z) : Z * Z :=
  if i =? 0 then (locb, hicb)
  else if i =? 1 then (0xA0, hicb)
  else if i =? 2 then (locb, 0x9F)
  else if i =? 3 then (0x90, hicb)
  else if i =? 4 then (locb, 0x8F)
  else (0, 0).

(** The first rune of [s] and its width in bytes; an invalid encoding
    yields [(RuneError, 1)], the empty string [(RuneError, 0)]. *)
Definition DecodeRuneInString (s : string) : rune * nat :=
  match s with
  | EmptyString => (RuneError, 0%nat)
  | String c0 t0 =>
    let b0 := byte_val c0 in
    let x := first b0 in
    if as_ <=? x then ((if x =? xx then RuneError else b0), 1%nat)
    else
      let sz := Z.land x 7 in
      let accept := acceptRanges (Z.shiftr x 4) in
      if Z.of_nat (String.length s) <? sz then (RuneError, 1%nat)
      else
        match t0 with
        | EmptyString => (RuneError, 1%nat)
        | String c1 t1 =>
          let b1 := byte_val c1 in
          if (b1 <? fst accept) || (snd accept <? b1) then (RuneError, 1%nat)
          else if sz <=? 2 then
            (Z.lor (Z.shiftl (Z.land b0 mask2) 6) (Z.land b1 maskx), 2%nat)
          else
            match t1 with
            | EmptyString => (RuneError, 1%nat)
            | String c2 t2 =>
              let b2 := byte_val c2 in
              if (b2 <? locb) || (hicb <? b2) then (RuneError, 1%nat)
              else if sz <=? 3 then
                (Z.lor (Z.lor (Z.shiftl (Z.land b0 mask3) 12)
                              (Z.shiftl (Z.land b1 maskx) 6))
                       (Z.land b2 maskx), 3%nat)
              else
                match t2 with
                | EmptyString => (RuneError, 1%nat)
                | String c3 _ =>
                  let b3 := byte_val c3 in
                  if (b3 <? locb) || (hicb <? b3) then (RuneError, 1%nat)
                  else
                    (Z.lor (Z.lor (Z.lor (Z.shiftl (Z.land b0 mask4) 18)
                                         (Z.shiftl (Z.land b1 maskx) 12))
                                  (Z.shiftl (Z.land b2 maskx) 6))
                           (Z.land b3 maskx), 4%nat)
                end
            end
        end
  end.

(** [[]rune(s)]: the runes a [for _, r := range s] loop visits.  Every
    step consumes at least one byte, so [length s] steps are enough. *)
Fixpoint runes_loop (fuel : nat) (s : string) : list rune :=
  match fuel with
  | O => []
  | S fuel' =>
    match s with
    | EmptyString => []
    | String _ t =>
      let '(r, size) := DecodeRuneInString s in
      r :: runes_loop fuel' (skip (Nat.pred size) t)
    end
  end.

Definition runes (s : string) : list rune := runes_loop (String.length s) s.

End utf8.

Module unicode.

Definition MaxLatin1 : rune := 0xFF.

(** The White_Space property above Latin-1. *)
Definition White_Space_excludingLatin (r : rune) : bool :=
  (r =? 0x1680) || ((0x2000 <=? r) && (r <=? 0x200A))
  || ((0x2028 <=? r) && (r <=? 0x2029))
  || (r =? 0x202F) || (r =? 0x205F) || (r =? 0x3000).

Definition IsSpace (r : rune) : bool :=
  if (0 <=? r) && (r <=? MaxLatin1) then
    (r =? 0x09) || (r =? 0x0A) || (r =? 0x0B) || (r =? 0x0C) || (r =? 0x0D)
    || (r =? 0x20) || (r =? 0x85) || (r =? 0xA0)
  else White_Space_excludingLatin r.

(** The Latin-1 entries of the [properties] table that carry [pg]:
    everything but the C0 and C1 controls, DEL and the soft hyphen. *)
Definition graphicLatin1 (r : rune) : bool :=
  ((0x20 <=? r) && (r <=? 0x7E))
  || ((0xA0 <=? r) && (r <=? 0xFF) && negb (r =? 0xAD)).

(** [IsGraphic]: categories L, M, N, P, S, Zs.  Above Latin-1 the answer
    is read from the Unicode range tables ([GraphicRanges]), which are
    taken as the parameter [inGraphicRanges]. *)
Definition IsGraphic (inGraphicRanges : rune -> bool) (r : rune) : bool :=
  if (0 <=? r) && (r <=? MaxLatin1) then graphicLatin1 r
  else inGraphicRanges r.

End unicode.

Module gostrings.

(** [strings.IndexFunc]: the byte index of the first rune satisfying
    [f], or [-1]. *)
Fixpoint indexFunc_loop (fuel : nat) (i : Z) (s : string)
         (f : rune -> bool) : Z :=
  match fuel with
  | O => -1
  | S fuel' =>
    match s with
    | EmptyString => -1
    | String _ t =>
      let '(r, size) := utf8.DecodeRuneInString s in
      if f r then i
      else indexFunc_loop fuel' (i + Z.of_nat size) (skip (Nat.pred size) t) f
    end
  end.

Definition IndexFunc (s : string) (f : rune -> bool) : Z :=
  indexFunc_loop (String.length s) 0 s f.

(** [strings.IndexRune] for a rune obtained by decoding, and
    [strings.IndexAny] in its rune-by-rune form (the byte-set fast path
    taken for long strings and ASCII [chars] returns the same index). *)
Definition IndexRune (s : string) (r : rune) : Z :=
  IndexFunc s (fun c => c =? r).

Definition IndexAny (s chars : string) : Z :=
  IndexFunc s (fun c => 0 <=? IndexRune chars c).

Definition ContainsAny (s chars : string) : bool :=
  0 <=? IndexAny s chars.

End gostrings.

(** ** Errors *)

(** Go [error] values: the package's [constError] and
    [SuperCommandNotFound], and the two kinds of value [fmt.Errorf]
    builds: an [errorString] holding the formatted message, or, when the
    format has a [%w] verb, a [wrapError] holding the message and the
    wrapped error. *)
Inductive error : Type :=
| constError (msg : string)
| SuperCommandNotFound (superCommand : string)
| errorString (msg : string)
| wrapError (msg : string) (err : error).

Definition Error (e : error) : string :=
  match e with
  | constError msg => msg
  | SuperCommandNotFound s => "Super command '" +:+ s +:+ "' not found"
  | errorString msg => msg
  | wrapError msg _ => msg
  end.

Definition Default : string := "".
Definition ErrNotFound : error := constError "command not found".

(** ** Command names *)

Definition checkCommandChars (inGraphicRanges : rune -> bool)
           (command : string) : option error :=
  if 0 <=? gostrings.IndexFunc command unicode.IsSpace then
    Some (errorString ("command contains space characters: '" +:+ command +:+ "'"))
  else if gostrings.IndexFunc command (unicode.IsGraphic inGraphicRanges) =? -1 then
    Some (errorString ("command contains non graphc characters: '" +:+ command +:+ "'"))
  else if gostrings.ContainsAny command "|&;()<>" then
    Some (errorString ("command contains invalid characters: '" +:+ command +:+ "'"))
  else None.

(** ** Calls: state, results and panics *)

(** How a call ends: it returns, or it panics with a value. *)
Inductive outcome (A : Type) : Type :=
| Returned (a : A)
| Panicked (v : error).
Arguments Returned {A} a.
Arguments Panicked {A} v.

(** A call acting on a state of type [S]. *)
Definition M (S A : Type) : Type := S -> outcome A * S.

Definition ret {S A} (a : A) : M S A := fun st => (Returned a, st).

Definition bind {S A B} (m : M S A) (k : A -> M S B) : M S B :=
  fun st =>
    match m st with
    | (Returned a, st') => k a st'
    | (Panicked v, st') => (Panicked v, st')
    end.

Definition panic {S A} (v : error) : M S A := fun st => (Panicked v, st).

Notation "'let*' x ':=' m 'in' k" := (bind m (fun x => k))
  (at level 10, x name, m at level 100, k at level 200).

(** [for _, x := range xs { body(x) }] *)
Fixpoint forRange {S A} (xs : list A) (body : A -> M S unit) : M S unit :=
  match xs with
  | [] => ret tt
  | x :: xs' => let* _ := body x in forRange xs' body
  end.

(** ** Package command: collaborators and state *)

(** What the dispatchers take from outside.  [World] is whatever state
    loggers and command functions act on; both are taken to return
    normally (the bound invoker turns a panic of the command function into
    an error).  [GetStringArgsFunc] binds a command function to its
    argument schema: it is defined in another file of the package, has no
    effects, and returns either the bound function or an error.
    [inGraphicRanges] stands for the Unicode tables behind
    [unicode.IsGraphic]. *)
Class Env : Type := {
  World : Type;
  context : Type;
  Background : context;
  CommandFunc : Type;
  Args : Type;
  ResultsHandler : Type;
  StringArgsCommandLogger : Type;
  LogStringArgsCommand :
    StringArgsCommandLogger -> string -> list string -> World -> World;
  inGraphicRanges : rune -> bool;
  GetStringArgsFunc :
    CommandFunc -> Args -> list ResultsHandler ->
    (context -> list string -> World -> option error * World) + error
}.

Section CommandState.
Context {env : Env}.

(** [func(ctx context.Context, args ...string) error] *)
Definition StringArgsFunc : Type :=
  context -> list string -> World -> option error * World.

Record stringArgsCommand : Type := {
  command : string;
  description : string;
  args : Args;
  commandFunc : CommandFunc;
  stringArgsFunc : StringArgsFunc;
  resultsHandlers : list ResultsHandler
}.

(** A dispatcher built by [NewStringArgsDispatcher]: [comm] is never the
    nil map. *)
Record StringArgsDispatcher : Type := {
  comm : gmap string stringArgsCommand;
  loggers : list StringArgsCommandLogger
}.

(** A [*StringArgsDispatcher]: nil, or the index of an allocated
    dispatcher in the heap. *)
Definition ptr : Type := option nat.
Definition nil : ptr := None.

(** The calls made to collaborators, in the order they are made. *)
Inductive Event : Type :=
| LogCall (logger : StringArgsCommandLogger) (command : string) (args : list string)
| FuncCall (f : StringArgsFunc) (ctx : context) (args : list string).

Record State : Type := {
  trace : list Event;
  world : World;
  heap : list StringArgsDispatcher
}.

Definition nilDereference : error :=
  constError "runtime error: invalid memory address or nil pointer dereference".

(** The object [p] points to, if any. *)
Definition deref (st : State) (p : ptr) : option StringArgsDispatcher :=
  match p with
  | Some i => heap st !! i
  | None => None
  end.

(** [*p] *)
Definition load (p : ptr) : M State StringArgsDispatcher :=
  fun st =>
    match deref st p with
    | Some d => (Returned d, st)
    | None => (Panicked nilDereference, st)
    end.

(** [*p = d] *)
Definition store (p : ptr) (d : StringArgsDispatcher) : M State unit :=
  fun st =>
    match p with
    | Some i =>
      if (i <? length (heap st))%nat then
        (Returned tt,
         {| trace := trace st; world := world st; heap := <[i := d]> (heap st) |})
      else (Panicked nilDereference, st)
    | None => (Panicked nilDereference, st)
    end.

(** [&StringArgsDispatcher{...}] *)
Definition alloc (d : StringArgsDispatcher) : M State ptr :=
  fun st =>
    (Returned (Some (length (heap st))),
     {| trace := trace st; world := world st; heap := heap st ++ [d] |}).

(** [logger.LogStringArgsCommand(command, args)] *)
Definition callLogger (logger : StringArgsCommandLogger)
           (command : string) (args : list string) : M State unit :=
  fun st =>
    (Returned tt,
     {| trace := trace st ++ [LogCall logger command args];
        world := LogStringArgsCommand logger command args (world st);
        heap := heap st |}).

(** [f(ctx, args...)] *)
Definition callFunc (f : StringArgsFunc) (ctx : context)
           (args : list string) : M State (option error) :=
  fun st =>
    let '(err, w) := f ctx args (world st) in
    (Returned err,
     {| trace := trace st ++ [FuncCall f ctx args]; world := w; heap := heap st |}).

End CommandState.

Section GoSlices.
Context {S : Type}.

Definition indexOutOfRange : error :=
  constError "runtime error: index out of range".
Definition sliceOutOfRange : error :=
  constError "runtime error: slice bounds out of range".

(** [xs[i]] *)
Definition index (xs : list string) (i : nat) : M S string :=
  match xs !! i with
  | Some x => ret x
  | None => panic indexOutOfRange
  end.

(** [xs[n:]] *)
Definition sliceFrom (xs : list string) (n : nat) : M S (list string) :=
  if (n <=? length xs)%nat then ret (drop n xs) else panic sliceOutOfRange.

(** The [%v] rendering of a [[]string]. *)
Definition formatStrings (xs : list string) : string :=
  "[" +:+ String.concat " " xs +:+ "]".

End GoSlices.

(** ** StringArgsDispatcher *)

Module StringArgsDispatcher.
Section Methods.
Context {env : Env}.

Definition NewStringArgsDispatcher (loggers : list StringArgsCommandLogger)
  : M State ptr :=
  alloc {| comm := ∅; loggers := loggers |}.

Definition AddCommand (disp : ptr) (command description : string)
           (commandFunc : CommandFunc) (args : Args)
           (resultsHandlers : list ResultsHandler) : M State (option error) :=
  let* d := load disp in
  match comm d !! command with
  | Some _ =>
    ret (Some (errorString ("Command '" +:+ command +:+ "' already added")))
  | None =>
    match checkCommandChars inGraphicRanges command with
    | Some err =>
      ret (Some (wrapError
                   ("Command '" +:+ command +:+ "' returned: " +:+ Error err) err))
    | None =>
      match GetStringArgsFunc commandFunc args resultsHandlers with
      | inr err =>
        ret (Some (wrapError
                     ("Command '" +:+ command +:+ "' returned: " +:+ Error err) err))
      | inl stringArgsFunc =>
        let* _ := store disp
          {| comm := <[command := {| command := command;
                                     description := description;
                                     args := args;
                                     commandFunc := commandFunc;
                                     stringArgsFunc := stringArgsFunc;
                                     resultsHandlers := resultsHandlers |}]> (comm d);
             loggers := loggers d |} in
        ret None
      end
    end
  end.

Definition MustAddCommand (disp : ptr) (command description : string)
           (commandFunc : CommandFunc) (args : Args)
           (resultsHandlers : list ResultsHandler) : M State unit :=
  let* err := AddCommand disp command description commandFunc args resultsHandlers in
  match err with
  | Some e => panic e
  | None => ret tt
  end.

Definition AddDefaultCommand (disp : ptr) (description : string)
           (commandFunc : CommandFunc) (args : Args)
           (resultsHandlers : list ResultsHandler) : M State (option error) :=
  match GetStringArgsFunc commandFunc args resultsHandlers with
  | inr err => ret (Some (wrapError ("Default command: " +:+ Error err) err))
  | inl stringArgsFunc =>
    let* d := load disp in
    let* _ := store disp
      {| comm := <[Default := {| command := Default;
                                 description := description;
                                 args := args;
                                 commandFunc := commandFunc;
                                 stringArgsFunc := stringArgsFunc;
                                 resultsHandlers := resultsHandlers |}]> (comm d);
         loggers := loggers d |} in
    ret None
  end.

Definition MustAddDefaultCommand (disp : ptr) (description : string)
           (commandFunc : CommandFunc) (args : Args)
           (resultsHandlers : list ResultsHandler) : M State unit :=
  let* err := AddDefaultCommand disp description commandFunc args resultsHandlers in
  match err with
  | Some e => panic e
  | None => ret tt
  end.

Definition HasCommnd (disp : ptr) (command : string) : M State bool :=
  let* d := load disp in
  match comm d !! command with
  | Some _ => ret true
  | None => ret false
  end.

Definition HasDefaultCommnd (disp : ptr) : M State bool :=
  let* d := load disp in
  match comm d !! Default with
  | Some _ => ret true
  | None => ret false
  end.

Definition Dispatch (disp : ptr) (ctx : context) (command : string)
           (args : list string) : M State (option error) :=
  let* d := load disp in
  match comm d !! command with
  | None => ret (Some ErrNotFound)
  | Some cmd =>
    let* _ := forRange (loggers d)
                       (fun logger => callLogger logger command args) in
    callFunc (stringArgsFunc cmd) ctx args
  end.

Definition MustDispatch (disp : ptr) (ctx : context) (command : string)
           (args : list string) : M State unit :=
  let* err := Dispatch disp ctx command args in
  match err with
  | Some e =>
    panic (wrapError ("Command '" +:+ command +:+ "' returned: " +:+ Error e) e)
  | None => ret tt
  end.

Definition DispatchDefaultCommand (disp : ptr) : M State (option error) :=
  Dispatch disp Background Default [].

Definition MustDispatchDefaultCommand (disp : ptr) : M State unit :=
  let* err := DispatchDefaultCommand disp in
  match err with
  | Some e => panic (wrapError ("Default command: " +:+ Error e) e)
  | None => ret tt
  end.

Definition DispatchCombinedCommandAndArgs (disp : ptr) (ctx : context)
           (commandAndArgs : list string) : M State (string * option error) :=
  if (length commandAndArgs =? 0)%nat then
    let* err := DispatchDefaultCommand disp in
    ret (Default, err)
  else
    let* command := index commandAndArgs 0 in
    let* args := sliceFrom commandAndArgs 1 in
    let* err := Dispatch disp ctx command args in
    ret (command, err).

Definition MustDispatchCombinedCommandAndArgs (disp : ptr) (ctx : context)
           (commandAndArgs : list string) : M State string :=
  let* r := DispatchCombinedCommandAndArgs disp ctx commandAndArgs in
  match snd r with
  | Some e =>
    panic (wrapError ("MustDispatchCombinedCommandAndArgs("
                        +:+ formatStrings commandAndArgs +:+ "): " +:+ Error e) e)
  | None => ret (fst r)
  end.

End Methods.
End StringArgsDispatcher.

(** ** SuperStringArgsDispatcher *)

Module SuperStringArgsDispatcher.
Section Methods.
Context {env : Env}.

(** The receiver of the methods below is threaded by value: a method
    that changes it returns the new value first.  The sub-dispatchers it
    points to live in the heap, where the pointers handed out by
    [AddSuperCommand] reach them too. *)
Record t : Type := {
  sub : gmap string ptr;
  loggers : list StringArgsCommandLogger
}.

Definition NewSuperStringArgsDispatcher
           (loggers : list StringArgsCommandLogger) : t :=
  {| sub := ∅; loggers := loggers |}.

Definition AddSuperCommand (disp : t) (superCommand : string)
  : M State (t * (ptr * option error)) :=
  match (if negb (String.eqb superCommand "")
         then checkCommandChars inGraphicRanges superCommand else None) with
  | Some err =>
    ret (disp, (nil, Some (wrapError
                             ("Command '" +:+ superCommand +:+ "': " +:+ Error err) err)))
  | None =>
    match sub disp !! superCommand with
    | Some _ =>
      ret (disp, (nil, Some (errorString
                               ("super command already added: '" +:+ superCommand +:+ "'"))))
    | None =>
      let* subDisp := StringArgsDispatcher.NewStringArgsDispatcher (loggers disp) in
      ret ({| sub := <[superCommand := subDisp]> (sub disp);
              loggers := loggers disp |},
           (subDisp, None))
    end
  end.

Definition MustAddSuperCommand (disp : t) (superCommand : string)
  : M State (t * ptr) :=
  let* r := AddSuperCommand disp superCommand in
  match snd (snd r) with
  | Some e =>
    panic (wrapError ("MustAddSuperCommand(" +:+ superCommand +:+ "): " +:+ Error e) e)
  | None => ret (fst r, fst (snd r))
  end.

Definition AddDefaultCommand (disp : t) (description : string)
           (commandFunc : CommandFunc) (args : Args)
           (resultsHandlers : list ResultsHandler) : M State (t * option error) :=
  let* r := AddSuperCommand disp Default in
  match snd (snd r) with
  | Some e => ret (fst r, Some e)
  | None =>
    let* err := StringArgsDispatcher.AddDefaultCommand
                  (fst (snd r)) description commandFunc args resultsHandlers in
    ret (fst r, err)
  end.

Definition MustAddDefaultCommand (disp : t) (description : string)
           (commandFunc : CommandFunc) (args : Args)
           (resultsHandlers : list ResultsHandler) : M State (t * unit) :=
  let* r := AddDefaultCommand disp description commandFunc args resultsHandlers in
  match snd r with
  | Some e =>
    panic (wrapError ("MustAddDefaultCommand(" +:+ description +:+ "): " +:+ Error e) e)
  | None => ret (fst r, tt)
  end.

Definition HasCommnd (disp : t) (superCommand : string) : M State bool :=
  match sub disp !! superCommand with
  | None => ret false
  | Some sub => StringArgsDispatcher.HasDefaultCommnd sub
  end.

Definition HasSubCommnd (disp : t) (superCommand command : string) : M State bool :=
  match sub disp !! superCommand with
  | None => ret false
  | Some sub => StringArgsDispatcher.HasCommnd sub command
  end.

Definition Dispatch (disp : t) (ctx : context) (superCommand command : string)
           (args : list string) : M State (option error) :=
  match sub disp !! superCommand with
  | None => ret (Some (SuperCommandNotFound superCommand))
  | Some sub => StringArgsDispatcher.Dispatch sub ctx command args
  end.

Definition MustDispatch (disp : t) (ctx : context) (superCommand command : string)
           (args : list string) : M State unit :=
  let* err := Dispatch disp ctx superCommand command args in
  match err with
  | Some e => panic (wrapError ("Command '" +:+ command +:+ "': " +:+ Error e) e)
  | None => ret tt
  end.

Definition DispatchDefaultCommand (disp : t) : M State (option error) :=
  Dispatch disp Background Default Default [].

Definition MustDispatchDefaultCommand (disp : t) : M State unit :=
  let* err := DispatchDefaultCommand disp in
  match err with
  | Some e => panic (wrapError ("Default command: " +:+ Error e) e)
  | None => ret tt
  end.

(** The three results are returned in the order of the source:
    [(superCommand, command, err)]. *)
Definition DispatchCombinedCommandAndArgs (disp : t) (ctx : context)
           (commandAndArgs : list string) : M State (string * string * option error) :=
  let* sca :=
    match length commandAndArgs with
    | 0%nat => ret (Default, Default, [])
    | 1%nat =>
      let* superCommand := index commandAndArgs 0 in
      ret (superCommand, Default, [])
    | _ =>
      let* superCommand := index commandAndArgs 0 in
      let* hasDefault :=
        match sub disp !! superCommand with
        | Some sub => StringArgsDispatcher.HasDefaultCommnd sub
        | None => ret false
        end in
      if hasDefault then
        let* args := sliceFrom commandAndArgs 1 in
        ret (superCommand, Default, args)
      else
        let* command := index commandAndArgs 1 in
        let* args := sliceFrom commandAndArgs 2 in
        ret (superCommand, command, args)
    end in
  let '(superCommand, command, args) := sca in
  let* err := Dispatch disp ctx superCommand command args in
  ret (superCommand, command, err).

Definition MustDispatchCombinedCommandAndArgs (disp : t) (ctx : context)
           (commandAndArgs : list string) : M State (string * string) :=
  let* r := DispatchCombinedCommandAndArgs disp ctx commandAndArgs in
  match snd r with
  | Some e =>
    panic (wrapError ("MustDispatchCombinedCommandAndArgs("
                        +:+ formatStrings commandAndArgs +:+ "): " +:+ Error e) e)
  | None => ret (fst r)
  end.

End Methods.
End SuperStringArgsDispatcher.

(** ** Package gorillamux *)

(** The collaborators of the http handlers.  The response writer is part
    of [World]; [muxVars] is [mux.Vars(request)], the map the router
    allocates for a matched route (never nil), and [URLQuery] is
    [request.URL.Query()].  Result writers, error handlers and body
    converters are taken to return normally. *)
Class HttpEnv : Type := {
  cmdEnv :: Env;
  Request : Type;
  RequestContext : Request -> context;
  muxVars : Request -> gmap string string;
  URLQuery : Request -> gmap string (list string);
  ResultVals : Type;
  MustGetStringMapArgsResultValuesFunc :
    CommandFunc -> Args ->
    outcome (context -> gmap string string -> World ->
             (ResultVals * option error) * World);
  ResultsWriter : Type;
  WriteResults :
    ResultsWriter -> Args -> gmap string string -> ResultVals -> option error ->
    Request -> World -> option error * World;
  Handler : Type;
  HandleError : Handler -> error -> Request -> World -> World;
  httperrHandle : error -> Request -> World -> World;
  RequestBodyArgConverter : Type;
  RequestBodyToArg :
    RequestBodyArgConverter -> Request -> World ->
    (string * string * option error) * World;
  CatchPanics : bool
}.

Module gorillamux.
Section Handlers.
Context {henv : HttpEnv}.

Definition StringMapArgsResultValuesFunc : Type :=
  context -> gmap string string -> World -> (ResultVals * option error) * World.

Inductive Event : Type :=
| CmdFuncCall (ctx : context) (vars : gmap string string)
| WriteResultsCall (w : ResultsWriter) (vars : gmap string string)
                   (resultVals : ResultVals) (err : option error)
| HandleErrorCall (h : Handler) (err : error)
| HttperrHandleCall (err : error)
| RequestBodyToArgCall (c : RequestBodyArgConverter).

Record State : Type := {
  trace : list Event;
  world : World
}.

Definition HandlerFunc : Type := Request -> M State unit.

Definition callCmdFunc (cmdFunc : StringMapArgsResultValuesFunc)
           (ctx : context) (vars : gmap string string)
  : M State (ResultVals * option error) :=
  fun st =>
    let '(r, w) := cmdFunc ctx vars (world st) in
    (Returned r, {| trace := trace st ++ [CmdFuncCall ctx vars]; world := w |}).

Definition callWriteResults (rw : ResultsWriter) (args : Args)
           (vars : gmap string string) (resultVals : ResultVals)
           (err : option error) (request : Request) : M State (option error) :=
  fun st =>
    let '(e, w) := WriteResults rw args vars resultVals err request (world st) in
    (Returned e,
     {| trace := trace st ++ [WriteResultsCall rw vars resultVals err]; world := w |}).

Definition callHandleError (h : Handler) (err : error) (request : Request)
  : M State unit :=
  fun st =>
    (Returned tt,
     {| trace := trace st ++ [HandleErrorCall h err];
        world := HandleError h err request (world st) |}).

Definition callHttperrHandle (err : error) (request : Request) : M State unit :=
  fun st =>
    (Returned tt,
     {| trace := trace st ++ [HttperrHandleCall err];
        world := httperrHandle err request (world st) |}).

Definition callRequestBodyToArg (c : RequestBodyArgConverter) (request : Request)
  : M State (string * string * option error) :=
  fun st =>
    let '(r, w) := RequestBodyToArg c request (world st) in
    (Returned r, {| trace := trace st ++ [RequestBodyToArgCall c]; world := w |}).

Definition handleErr (err : option error) (request : Request)
           (errHandlers : list Handler) : M State unit :=
  match err with
  | None => ret tt
  | Some e =>
    if (length errHandlers =? 0)%nat then callHttperrHandle e request
    else forRange errHandlers (fun errHandler => callHandleError errHandler e request)
  end.

(** The deferred function of every handler, on a normal return:
    [recover()] is nil, and so is the error made of it. *)
Definition deferredRecover (request : Request) (errHandlers : list Handler)
  : M State unit :=
  if CatchPanics then handleErr None request errHandlers else ret tt.

Definition CommandHandler (commandFunc : CommandFunc) (args : Args)
           (resultsWriter : option ResultsWriter) (errHandlers : list Handler)
  : outcome HandlerFunc :=
  match MustGetStringMapArgsResultValuesFunc commandFunc args with
  | Panicked v => Panicked v
  | Returned cmdFunc =>
    Returned (fun request =>
      let vars := muxVars request in
      let* r := callCmdFunc cmdFunc (RequestContext request) vars in
      let* err := match resultsWriter with
                  | Some rw => callWriteResults rw args vars (fst r) (snd r) request
                  | None => ret (snd r)
                  end in
      let* _ := handleErr err request errHandlers in
      deferredRecover request errHandlers)
  end.

(** [len(values) > 0 && len(values[0]) > 0] *)
Definition firstValueNonEmpty (values : list string) : bool :=
  match values with
  | [] => false
  | v :: _ => (0 <? String.length v)%nat
  end.

(** One iteration of the loop over the query keys: [query !! k] is
    [request.URL.Query()[k]], the nil slice for a missing key. *)
Definition addQueryParam (query : gmap string (list string))
           (vars : gmap string string) (k : string) : gmap string string :=
  let values := default [] (query !! k) in
  if firstValueNonEmpty values then <[k := String.concat ";" values]> vars
  else vars.

(** The loop, visiting the keys in the order [keys]. *)
Definition addQueryParams (query : gmap string (list string))
           (keys : list string) (vars : gmap string string) : gmap string string :=
  foldl (addQueryParam query) vars keys.

(** [for k := range query]: Go leaves the order unspecified; the order
    of [map_to_list] is taken here, and [addQueryParams] is
    characterised below for every order. *)
Definition rangeKeys (query : gmap string (list string)) : list string :=
  (map_to_list query).*1.

Definition CommandHandlerWithQueryParams (commandFunc : CommandFunc) (args : Args)
           (resultsWriter : option ResultsWriter) (errHandlers : list Handler)
  : outcome HandlerFunc :=
  match MustGetStringMapArgsResultValuesFunc commandFunc args with
  | Panicked v => Panicked v
  | Returned cmdFunc =>
    Returned (fun request =>
      let vars := muxVars request in
      let vars := addQueryParams (URLQuery request) (rangeKeys (URLQuery request)) vars in
      let* r := callCmdFunc cmdFunc (RequestContext request) vars in
      let* err := match resultsWriter with
                  | Some rw => callWriteResults rw args vars (fst r) (snd r) request
                  | None => ret (snd r)
                  end in
      let* _ := handleErr err request errHandlers in
      deferredRecover request errHandlers)
  end.

Definition CommandHandlerRequestBodyArg (bodyConverter : RequestBodyArgConverter)
           (commandFunc : CommandFunc) (args : Args)
           (resultsWriter : option ResultsWriter) (errHandlers : list Handler)
  : outcome HandlerFunc :=
  match MustGetStringMapArgsResultValuesFunc commandFunc args with
  | Panicked v => Panicked v
  | Returned cmdFunc =>
    Returned (fun request =>
      let vars := muxVars request in
      let* nve := callRequestBodyToArg bodyConverter request in
      let '(name, value, err) := nve in
      match err with
      | Some e =>
        let* _ := handleErr (Some e) request errHandlers in
        deferredRecover request errHandlers
      | None =>
        match vars !! name with
        | Some _ =>
          let err := errorString ("argument '" +:+ name
                                    +:+ "' already set by request URL path") in
          let* _ := handleErr (Some err) request errHandlers in
          deferredRecover request errHandlers
        | None =>
          let vars := <[name := value]> vars in
          let* r := callCmdFunc cmdFunc (RequestContext request) vars in
          let* err := match resultsWriter with
                      | Some rw => callWriteResults rw args vars (fst r) (snd r) request
                      | None => ret (snd r)
                      end in
          let* _ := handleErr err request errHandlers in
          deferredRecover request errHandlers
        end
      end)
  end.

End Handlers.
End gorillamux.

(** ** Printing the commands *)

(** [a < b] on Go strings: byte by byte, a proper prefix first. *)
Fixpoint stringLess (a b : string) : bool :=
  match a, b with
  | _, EmptyString => false
  | EmptyString, String _ _ => true
  | String x a', String y b' =>
    if byte_val x <? byte_val y then true
    else if byte_val x =? byte_val y then stringLess a' b'
    else false
  end.

(** [sort.Slice(list, less)]: the list in ascending order of [less].
    The order of elements that [less] does not tell apart is not
    promised by Go; the lists sorted below hold no two such elements, and
    the result is then the same for every sorting algorithm. *)
Definition sortSlice {A} (less : A -> A -> bool) (l : list A) : list A :=
  @merge_sort A (fun x y => less y x = false)
              (fun x y => bool_eq_dec (less y x) false) l.

Definition newline : string := String (ascii_of_nat 10) EmptyString.

(** An [Arg] of the package: its name, the [%s] rendering of its type
    and its description. *)
Module Arg.
Record t : Type := {
  Name : string;
  TypeString : string;
  Description : string
}.
End Arg.

(** What printing needs of an [Args] value: its [%s] rendering and the
    slice returned by its method [Args()]. *)
Class PrintEnv : Type := {
  printCmdEnv :: Env;
  ArgsString : Args -> string;
  ArgsArgs : Args -> list Arg.t
}.

(** The printing calls, which are written here as the result of the
    method that makes them, in the order they are made:
    [CommandUsageColor.Printf], [CommandDescriptionColor.Printf] and
    [Println] with the text they print, and [fmt.Fprint] on the output
    writer. *)
Inductive Printed : Type :=
| UsagePrintf (text : string)
| DescriptionPrintf (text : string)
| DescriptionPrintln
| Fprint (text : string).

Section Printing.
Context {penv : PrintEnv}.

(** The loop that sets [hasAnyArgDesc]. *)
Definition hasAnyArgDesc (args : list Arg.t) : bool :=
  foldl (fun has arg => if negb (String.eqb (Arg.Description arg) "") then true else has)
        false args.

(** The body of the printing loop for one command, shown as [name]. *)
Definition printCommand (appName name : string) (cmd : stringArgsCommand)
  : list Printed :=
  UsagePrintf ("  " +:+ appName +:+ " " +:+ name +:+ " " +:+ ArgsString (args cmd)
                    +:+ newline)
  :: (if negb (String.eqb (description cmd) "")
      then [DescriptionPrintf ("      " +:+ description cmd +:+ newline)] else [])
  ++ (if hasAnyArgDesc (ArgsArgs (args cmd))
      then map (fun arg => DescriptionPrintf
                             ("          <" +:+ Arg.Name arg +:+ ":" +:+ Arg.TypeString arg
                                            +:+ "> " +:+ Arg.Description arg +:+ newline))
               (ArgsArgs (args cmd))
      else [])
  ++ [DescriptionPrintln].

Definition lessByCommand (x y : stringArgsCommand) : bool :=
  stringLess (command x) (command y).

(** [PrintCommands] once the entries were collected in the order
    [visited] of the loop over the map. *)
Definition printCommandsVisited (appName : string) (visited : list stringArgsCommand)
  : list Printed :=
  flat_map (fun cmd => printCommand appName (command cmd) cmd)
           (sortSlice lessByCommand visited).

(** [for _, cmd := range m]: Go leaves the order unspecified; the order
    of [map_to_list] is taken here. *)
Definition rangeValues {V} (m : gmap string V) : list V := (map_to_list m).*2.

Definition PrintCommands (disp : ptr) (appName : string) : M State (list Printed) :=
  let* d := load disp in
  ret (printCommandsVisited appName (rangeValues (comm d))).


End Printing.

Section SuperPrinting.
Context {penv : PrintEnv}.







End SuperPrinting.

(** ** Package gorillamux: request bodies in JSON *)

(** What the two JSON wrappers take from outside.  [DecodeBody] is
    [json.NewDecoder(request.Body).Decode] into a fresh
    [map[string]interface{}]; [Sprint] is [fmt.Sprint] of a decoded
    value; [BadRequestServeHTTP] is [httperr.BadRequest.ServeHTTP].  The
    wrapped handler reads the variables of the request from the map the
    wrapper has written to: [ServeHTTP] is given that map as it is when
    the handler is called. *)
Class JSONEnv : Type := {
  jsonHttpEnv :: HttpEnv;
  JSONValue : Type;
  Sprint : JSONValue -> string;
  DecodeBody : Request -> World -> (gmap string JSONValue + error) * World;
  CloseBody : Request -> World -> World;
  BadRequestServeHTTP : Request -> World -> World;
  HTTPHandler : Type;
  ServeHTTP : HTTPHandler -> Request -> gmap string string -> World -> World
}.

Module gorillamuxJSON.
Section Wrappers.
Context {jenv : JSONEnv}.

Inductive Event : Type :=
| DecodeCall
| BadRequestCall
| ServeHTTPCall (h : HTTPHandler) (vars : gmap string string)
| BodyCloseCall.

Record State : Type := {
  trace : list Event;
  world : World
}.

Definition callDecode (request : Request)
  : M State (gmap string JSONValue + error) :=
  fun st =>
    let '(r, w) := DecodeBody request (world st) in
    (Returned r, {| trace := trace st ++ [DecodeCall]; world := w |}).

Definition callBadRequest (request : Request) : M State unit :=
  fun st =>
    (Returned tt,
     {| trace := trace st ++ [BadRequestCall];
        world := BadRequestServeHTTP request (world st) |}).

Definition callServeHTTP (h : HTTPHandler) (request : Request)
           (vars : gmap string string) : M State unit :=
  fun st =>
    (Returned tt,
     {| trace := trace st ++ [ServeHTTPCall h vars];
        world := ServeHTTP h request vars (world st) |}).

(** The deferred [request.Body.Close()]. *)
Definition callBodyClose (request : Request) : M State unit :=
  fun st =>
    (Returned tt,
     {| trace := trace st ++ [BodyCloseCall]; world := CloseBody request (world st) |}).

(** One iteration of the loop of [MapJSONBodyFieldsAsVars]. *)
Definition mapBodyField (bodyFields : gmap string JSONValue)
           (vars : gmap string string) (entry : string * string) : gmap string string :=
  let '(bodyField, muxVar) := entry in
  match bodyFields !! bodyField with
  | Some value => <[muxVar := Sprint value]> vars
  | None => vars
  end.

(** The loop over [mapping], visiting its entries in the order
    [visited]. *)
Definition mapBodyFields (bodyFields : gmap string JSONValue)
           (visited : list (string * string)) (vars : gmap string string)
  : gmap string string :=
  foldl (mapBodyField bodyFields) vars visited.

Definition MapJSONBodyFieldsAsVars (mapping : gmap string string)
           (wrappedHandler : HTTPHandler) (request : Request) : M State unit :=
  let* decoded := callDecode request in
  match decoded with
  | inr _ =>
    let* _ := callBadRequest request in
    callBodyClose request
  | inl bodyFields =>
    let vars := muxVars request in
    let vars := mapBodyFields bodyFields (map_to_list mapping) vars in
    let* _ := callServeHTTP wrappedHandler request vars in
    callBodyClose request
  end.

(** One iteration of the loop of [JSONBodyFieldsAsVars], and the loop
    over the decoded fields in the order [visited]. *)
Definition setBodyField (vars : gmap string string) (entry : string * JSONValue)
  : gmap string string :=
  <[entry.1 := Sprint entry.2]> vars.

Definition setBodyFields (visited : list (string * JSONValue))
           (vars : gmap string string) : gmap string string :=
  foldl setBodyField vars visited.

Definition JSONBodyFieldsAsVars (wrappedHandler : HTTPHandler) (request : Request)
  : M State unit :=
  let* decoded := callDecode request in
  match decoded with
  | inr _ =>
    let* _ := callBadRequest request in
    callBodyClose request
  | inl bodyFields =>
    let vars := muxVars request in
    let vars := setBodyFields (map_to_list bodyFields) vars in
    let* _ := callServeHTTP wrappedHandler request vars in
    callBodyClose request
  end.

End Wrappers.
End gorillamuxJSON.

(** ** Vocabulary of the specification *)

(** The code points of the characters a command name must not contain. *)
Definition forbiddenRunes : list rune := [124; 38; 59; 40; 41; 60; 62].

Definition containsSpace (s : string) : Prop :=
  exists r, r ∈ utf8.runes s /\ unicode.IsSpace r = true.

Definition containsGraphic (inGraphicRanges : rune -> bool) (s : string) : Prop :=
  exists r, r ∈ utf8.runes s /\ unicode.IsGraphic inGraphicRanges r = true.

Definition containsForbidden (s : string) : Prop :=
  exists r, r ∈ utf8.runes s /\ r ∈ forbiddenRunes.

(** Names a dispatcher may hold: the default name, put there by
    [AddDefaultCommand], and the names [checkCommandChars] accepts. *)
Definition validName {env : Env} (k : string) : Prop :=
  k = Default \/ checkCommandChars inGraphicRanges k = None.

Definition namesValid {env : Env} (d : StringArgsDispatcher) : Prop :=
  forall k, is_Some (comm d !! k) -> validName k.

Definition heapValid {env : Env} (st : State) : Prop :=
  forall i d, heap st !! i = Some d -> namesValid d.

(** A call keeps every allocated dispatcher free of invalid names. *)
Definition preserves {env : Env} {A} (m : M State A) : Prop :=
  forall st, heapValid st -> heapValid (m st).2.

(** [must] is the Must variant of [plain]: whenever [plain] returns,
    [must] panics exactly when the error among the results ([err]) is not
    nil, and otherwise returns the remaining results ([res]). *)
Definition mustOf {env : Env} {A B} (plain : M State A) (must : M State B)
           (err : A -> option error) (res : A -> B) : Prop :=
  forall st r st',
    plain st = (Returned r, st') ->
    ((exists v, must st = (Panicked v, st')) <-> is_Some (err r))
    /\ (err r = None -> must st = (Returned (res r), st')).

(** The calls a client of the package can make. *)
Inductive Call {env : Env} : Type :=
| CallNewStringArgsDispatcher (loggers : list StringArgsCommandLogger)
| CallAddCommand (must : bool) (disp : ptr) (command description : string)
    (commandFunc : CommandFunc) (args : Args) (resultsHandlers : list ResultsHandler)
| CallAddDefaultCommand (must : bool) (disp : ptr) (description : string)
    (commandFunc : CommandFunc) (args : Args) (resultsHandlers : list ResultsHandler)
| CallHasCommnd (disp : ptr) (command : string)
| CallHasDefaultCommnd (disp : ptr)
| CallDispatch (must : bool) (disp : ptr) (ctx : context) (command : string)
    (args : list string)
| CallDispatchDefaultCommand (must : bool) (disp : ptr)
| CallDispatchCombinedCommandAndArgs (must : bool) (disp : ptr) (ctx : context)
    (commandAndArgs : list string)
| CallAddSuperCommand (must : bool) (disp : SuperStringArgsDispatcher.t)
    (superCommand : string)
| CallSuperAddDefaultCommand (must : bool) (disp : SuperStringArgsDispatcher.t)
    (description : string) (commandFunc : CommandFunc) (args : Args)
    (resultsHandlers : list ResultsHandler)
| CallSuperHasCommnd (disp : SuperStringArgsDispatcher.t) (superCommand : string)
| CallSuperHasSubCommnd (disp : SuperStringArgsDispatcher.t)
    (superCommand command : string)
| CallSuperDispatch (must : bool) (disp : SuperStringArgsDispatcher.t) (ctx : context)
    (superCommand command : string) (args : list string)
| CallSuperDispatchDefaultCommand (must : bool) (disp : SuperStringArgsDispatcher.t)
| CallSuperDispatchCombinedCommandAndArgs (must : bool)
    (disp : SuperStringArgsDispatcher.t) (ctx : context) (commandAndArgs : list string).

(** The state a call leaves behind ([must] selects the Must variant). *)
Definition exec {env : Env} (c : Call) (st : State) : State :=
  match c with
  | CallNewStringArgsDispatcher l =>
    (StringArgsDispatcher.NewStringArgsDispatcher l st).2
  | CallAddCommand must disp command description f a rh =>
    if must then (StringArgsDispatcher.MustAddCommand disp command description f a rh st).2
    else (StringArgsDispatcher.AddCommand disp command description f a rh st).2
  | CallAddDefaultCommand must disp description f a rh =>
    if must then (StringArgsDispatcher.MustAddDefaultCommand disp description f a rh st).2
    else (StringArgsDispatcher.AddDefaultCommand disp description f a rh st).2
  | CallHasCommnd disp command => (StringArgsDispatcher.HasCommnd disp command st).2
  | CallHasDefaultCommnd disp => (StringArgsDispatcher.HasDefaultCommnd disp st).2
  | CallDispatch must disp ctx command args =>
    if must then (StringArgsDispatcher.MustDispatch disp ctx command args st).2
    else (StringArgsDispatcher.Dispatch disp ctx command args st).2
  | CallDispatchDefaultCommand must disp =>
    if must then (StringArgsDispatcher.MustDispatchDefaultCommand disp st).2
    else (StringArgsDispatcher.DispatchDefaultCommand disp st).2
  | CallDispatchCombinedCommandAndArgs must disp ctx l =>
    if must then (StringArgsDispatcher.MustDispatchCombinedCommandAndArgs disp ctx l st).2
    else (StringArgsDispatcher.DispatchCombinedCommandAndArgs disp ctx l st).2
  | CallAddSuperCommand must disp superCommand =>
    if must then (SuperStringArgsDispatcher.MustAddSuperCommand disp superCommand st).2
    else (SuperStringArgsDispatcher.AddSuperCommand disp superCommand st).2
  | CallSuperAddDefaultCommand must disp description f a rh =>
    if must then (SuperStringArgsDispatcher.MustAddDefaultCommand disp description f a rh st).2
    else (SuperStringArgsDispatcher.AddDefaultCommand disp description f a rh st).2
  | CallSuperHasCommnd disp superCommand =>
    (SuperStringArgsDispatcher.HasCommnd disp superCommand st).2
  | CallSuperHasSubCommnd disp superCommand command =>
    (SuperStringArgsDispatcher.HasSubCommnd disp superCommand command st).2
  | CallSuperDispatch must disp ctx superCommand command args =>
    if must then (SuperStringArgsDispatcher.MustDispatch disp ctx superCommand command args st).2
    else (SuperStringArgsDispatcher.Dispatch disp ctx superCommand command args st).2
  | CallSuperDispatchDefaultCommand must disp =>
    if must then (SuperStringArgsDispatcher.MustDispatchDefaultCommand disp st).2
    else (SuperStringArgsDispatcher.DispatchDefaultCommand disp st).2
  | CallSuperDispatchCombinedCommandAndArgs must disp ctx l =>
    if must then (SuperStringArgsDispatcher.MustDispatchCombinedCommandAndArgs disp ctx l st).2
    else (SuperStringArgsDispatcher.DispatchCombinedCommandAndArgs disp ctx l st).2
  end.

(** The states of a program that starts with no dispatcher allocated and
    only goes through the package's methods. *)
Inductive reachable {env : Env} : State -> Prop :=
| reachable_start (w : World) :
    reachable {| trace := []; world := w; heap := [] |}
| reachable_call (c : Call) (st : State) :
    reachable st -> reachable (exec c st).

(** The argument mappings the command function of a handler was called
    with, in the order of the calls. *)
Definition cmdFuncCalls {henv : HttpEnv} (tr : list gorillamux.Event)
  : list (gmap string string) :=
  omap (fun ev => match ev with
                  | gorillamux.CmdFuncCall _ vars => Some vars
                  | _ => None
                  end) tr.

(** ** Vocabulary of the further properties *)

(** Every entry of a dispatcher is stored under its own command name. *)
Definition namesKeyed {env : Env} (d : StringArgsDispatcher) : Prop :=
  forall k cmd, comm d !! k = Some cmd -> command cmd = k.

(** A call keeps a property [P] of the allocated dispatchers. *)
Definition keeps {env : Env} {A} (P : StringArgsDispatcher -> Prop)
           (m : M State A) : Prop :=
  forall st, (forall i d, heap st !! i = Some d -> P d) ->
             forall i d, heap (m st).2 !! i = Some d -> P d.

(** [d'] is [d] after some registrations: the same loggers, and every
    name of [d] still registered. *)
Definition grownFrom {env : Env} (d d' : StringArgsDispatcher) : Prop :=
  loggers d' = loggers d
  /\ forall k, is_Some (comm d !! k) -> is_Some (comm d' !! k).

(** From [st] to [st'] no dispatcher was freed and none lost a command
    or changed its loggers. *)
Definition extends {env : Env} (st st' : State) : Prop :=
  forall i d, heap st !! i = Some d ->
              exists d', heap st' !! i = Some d' /\ grownFrom d d'.

(** A call only goes forward in the sense of [extends]. *)
Definition monotone {env : Env} {A} (m : M State A) : Prop :=
  forall st, extends st (m st).2.

(** A call leaves the heap of dispatchers as it is. *)
Definition readsOnly {env : Env} {A} (m : M State A) : Prop :=
  forall st, heap (m st).2 = heap st.

(** The calls that look up or dispatch, as opposed to those that
    register. *)
Definition isLookup {env : Env} (c : Call) : bool :=
  match c with
  | CallHasCommnd _ _ | CallHasDefaultCommnd _
  | CallDispatch _ _ _ _ _ | CallDispatchDefaultCommand _ _
  | CallDispatchCombinedCommandAndArgs _ _ _ _
  | CallSuperHasCommnd _ _ | CallSuperHasSubCommnd _ _ _
  | CallSuperDispatch _ _ _ _ _ _ | CallSuperDispatchDefaultCommand _ _
  | CallSuperDispatchCombinedCommandAndArgs _ _ _ _ => true
  | _ => false
  end.

(** The entry [AddCommand] and [AddDefaultCommand] build. *)
Definition newEntry {env : Env} (command description : string)
           (commandFunc : CommandFunc) (args : Args)
           (bound : StringArgsFunc) (resultsHandlers : list ResultsHandler)
  : stringArgsCommand :=
  {| command := command; description := description; args := args;
     commandFunc := commandFunc; stringArgsFunc := bound;
     resultsHandlers := resultsHandlers |}.

(** The state after the loggers [ls] were told of [(command, args)] and
    the bound function [f] was called, and what [f] returned. *)
Definition afterDispatch {env : Env} (st : State) (ls : list StringArgsCommandLogger)
           (f : StringArgsFunc) (ctx : context) (command : string)
           (args : list string) : outcome (option error) * State :=
  let logged := foldl (fun w logger => LogStringArgsCommand logger command args w)
                      (world st) ls in
  (Returned (f ctx args logged).1,
   {| trace := trace st ++ map (fun logger => LogCall logger command args) ls
                        ++ [FuncCall f ctx args];
      world := (f ctx args logged).2;
      heap := heap st |}).

(** The state after a sequence of calls. *)
Definition execAll {env : Env} (cs : list Call) (st : State) : State :=
  foldl (fun s c => exec c s) st cs.

(** The function stored in an entry is the one [GetStringArgsFunc] binds
    to the command function, arguments and results handlers stored beside
    it. *)
Definition entryBound {env : Env} (cmd : stringArgsCommand) : Prop :=
  GetStringArgsFunc (commandFunc cmd) (args cmd) (resultsHandlers cmd)
  = inl (stringArgsFunc cmd).

(** Every entry is stored under its own name, that name is the default
    name or one [checkCommandChars] accepts, and the entry is bound. *)
Definition wellFormed {env : Env} (d : StringArgsDispatcher) : Prop :=
  forall k cmd, comm d !! k = Some cmd ->
                command cmd = k /\ validName k /\ entryBound cmd.

(** The state after a dispatcher [d] was allocated. *)
Definition allocated {env : Env} (st : State) (d : StringArgsDispatcher) : State :=
  {| trace := trace st; world := world st; heap := heap st ++ [d] |}.

(** The calls [handleErr] makes for [err]: none for nil, one per handler
    of the chain in order, or the one call of [httperr.Handle] when the
    chain is empty. *)
Definition errEvents {henv : HttpEnv} (err : option error) (errHandlers : list Handler)
  : list gorillamux.Event :=
  match err, errHandlers with
  | None, _ => []
  | Some e, [] => [gorillamux.HttperrHandleCall e]
  | Some e, _ :: _ => map (fun h => gorillamux.HandleErrorCall h e) errHandlers
  end.

(** The calls a handler makes after the command function returned
    [(resultVals, err)] in world [w]: the results writer, if there is
    one, and then the error handlers for the error the writer returned
    (for [err] itself when there is no writer). *)
Definition resultEvents {henv : HttpEnv} (resultsWriter : option ResultsWriter)
           (args : Args) (vars : gmap string string) (resultVals : ResultVals)
           (err : option error) (request : Request) (w : World)
           (errHandlers : list Handler) : list gorillamux.Event :=
  match resultsWriter with
  | None => errEvents err errHandlers
  | Some rw =>
    gorillamux.WriteResultsCall rw vars resultVals err
    :: errEvents (WriteResults rw args vars resultVals err request w).1 errHandlers
  end.


(** ** A test environment *)

(** Loggers are named; a logger appends its name and the command to the
    world.  A command function is a marker it appends to the world and the
    error it returns; binding succeeds when the schema flag is set. *)
Definition testEnv : Env := {|
  World := list string;
  context := unit;
  Background := tt;
  CommandFunc := string * option error;
  Args := bool;
  ResultsHandler := unit;
  StringArgsCommandLogger := string;
  LogStringArgsCommand := fun logger command _ w => w ++ [logger +:+ " " +:+ command];
  inGraphicRanges := fun _ => true;
  GetStringArgsFunc := fun f a _ =>
    if a then inl (fun _ _ w => (f.2, w ++ [f.1]))
    else inr (errorString "arguments do not fit the function")
|}.

Definition testStart : @State testEnv :=
  @Build_State testEnv [] [] [].

(** A super dispatcher with the super command [db], whose dispatcher, at
    address 0, has a default command. *)
Definition testSuper : @SuperStringArgsDispatcher.t testEnv :=
  @SuperStringArgsDispatcher.Build_t testEnv {["db" := Some 0%nat]} ["audit"].

Definition testSuperState : @State testEnv :=
  exec (@CallAddDefaultCommand testEnv false (Some 0%nat) "lists the tables"
                               ("listed", None) true [])
       (exec (@CallAddSuperCommand testEnv false
                (@SuperStringArgsDispatcher.NewSuperStringArgsDispatcher testEnv ["audit"])
                "db")
             testStart).

(** What the source does with a second default command: both
    registrations, and the description held at the default name after
    each. *)
Definition testDefaultTwice
  : M (@State testEnv) (option error * option string * option error * option string) :=
  let* disp := @StringArgsDispatcher.NewStringArgsDispatcher testEnv [] in
  let* err1 := @StringArgsDispatcher.AddDefaultCommand testEnv disp "first"
                 ("one", None) true [] in
  let* d1 := @load testEnv disp in
  let* err2 := @StringArgsDispatcher.AddDefaultCommand testEnv disp "second"
                 ("two", None) true [] in
  let* d2 := @load testEnv disp in
  ret (err1, @description testEnv <$> comm d1 !! Default,
       err2, @description testEnv <$> comm d2 !! Default).

(** Requests are their path variables and their parsed query.  A body
    converter is the triple it returns; a command function bound for the
    handlers returns no values. *)
Record testRequest : Type := {
  testVars : gmap string string;
  testQuery : gmap string (list string)
}.

Definition testHttpEnv : HttpEnv := {|
  cmdEnv := testEnv;
  Request := testRequest;
  RequestContext := fun _ => tt;
  muxVars := testVars;
  URLQuery := testQuery;
  ResultVals := list string;
  MustGetStringMapArgsResultValuesFunc := fun (f : string * option error) (a : bool) =>
    if a then Returned (fun _ _ (w : list string) => (([], f.2), w ++ [f.1]))
    else Panicked (errorString "arguments do not fit the function");
  ResultsWriter := unit;
  WriteResults := fun _ _ _ _ err _ (w : list string) => (err, w ++ ["written"]);
  Handler := string;
  HandleError := fun h e _ (w : list string) => w ++ [h +:+ ": " +:+ Error e];
  httperrHandle := fun e _ (w : list string) => w ++ ["httperr: " +:+ Error e];
  RequestBodyArgConverter := string * string * option error;
  RequestBodyToArg := fun c _ w => (c, w);
  CatchPanics := true
|}.

Definition testHttpStart : @gorillamux.State testHttpEnv :=
  @gorillamux.Build_State testHttpEnv [] [].

(** [/items/{id}?id=&id=7]: the path variable [id] is 5, the query has
    the key [id] with an empty first value. *)
Definition testRequestEmptyFirst : testRequest :=
  {| testVars := {["id" := "5"]}; testQuery := {["id" := [""; "7"]]} |}.

(** [/items/{id}?id=6&id=7&sort=name] *)
Definition testRequestRepeated : testRequest :=
  {| testVars := {["id" := "5"]};
     testQuery := {["id" := ["6"; "7"]; "sort" := ["name"]]} |}.

(** A dispatcher with two loggers and the command [greet], at address 0. *)
Definition testRegistered : @State testEnv :=
  exec (@CallAddCommand testEnv false (Some 0%nat) "greet" "says hello"
                        ("greeted", None) true [])
       (exec (@CallNewStringArgsDispatcher testEnv ["audit"; "debug"]) testStart).

(** The dispatcher of [testRegistered]. *)
Definition testGreetDispatcher : @StringArgsDispatcher testEnv :=
  default (@Build_StringArgsDispatcher testEnv ∅ []) (deref testRegistered (Some 0%nat)).

(** The function the test environment binds to [("greeted", None)]. *)
Definition testGreeted : @StringArgsFunc testEnv :=
  fun _ _ w => (None, w ++ ["greeted"]).


(** Three commands registered out of order, one with a description. *)
Definition testThree : @State testEnv :=
  exec (@CallAddCommand testEnv false (Some 0%nat) "add" "" ("added", None) false [])
       (exec (@CallAddCommand testEnv false (Some 0%nat) "list" "lists all"
                              ("listed", None) true [])
             (exec (@CallAddCommand testEnv false (Some 0%nat) "add" "" ("added", None)
                                    true [])
                   testRegistered)).

(** Printing in the test environment: a bound schema has one argument. *)
Definition testPrintEnv : PrintEnv := {|
  printCmdEnv := testEnv;
  ArgsString := fun a : bool => if a then "<name>" else "";
  ArgsArgs := fun a : bool =>
    if a then [{| Arg.Name := "name"; Arg.TypeString := "string";
                  Arg.Description := "" |}]
    else []
|}.

(** A JSON request: its path variables and what decoding its body
    gives. *)
Record testJSONRequest : Type := {
  jsonVars : gmap string string;
  jsonBody : gmap string string + error
}.

Definition testJSONHttpEnv : HttpEnv := {|
  cmdEnv := testEnv;
  Request := testJSONRequest;
  RequestContext := fun _ => tt;
  muxVars := jsonVars;
  URLQuery := fun _ => ∅;
  ResultVals := list string;
  MustGetStringMapArgsResultValuesFunc := fun (f : string * option error) (a : bool) =>
    if a then Returned (fun _ _ (w : list string) => (([], f.2), w ++ [f.1]))
    else Panicked (errorString "arguments do not fit the function");
  ResultsWriter := unit;
  WriteResults := fun _ _ _ _ err _ (w : list string) => (err, w ++ ["written"]);
  Handler := string;
  HandleError := fun h e _ (w : list string) => w ++ [h +:+ ": " +:+ Error e];
  httperrHandle := fun e _ (w : list string) => w ++ ["httperr: " +:+ Error e];
  RequestBodyArgConverter := string * string * option error;
  RequestBodyToArg := fun c _ w => (c, w);
  CatchPanics := true
|}.

Definition testJSONEnv : JSONEnv := {|
  jsonHttpEnv := testJSONHttpEnv;
  JSONValue := string;
  Sprint := fun v => v;
  DecodeBody := fun (r : testJSONRequest) (w : list string) => (jsonBody r, w ++ ["decoded"]);
  CloseBody := fun _ (w : list string) => w ++ ["closed"];
  BadRequestServeHTTP := fun _ (w : list string) => w ++ ["400"];
  HTTPHandler := string;
  ServeHTTP := fun h _ _ (w : list string) => w ++ [h]
|}.

Definition testJSONStart : @gorillamuxJSON.State testJSONEnv :=
  @gorillamuxJSON.Build_State testJSONEnv [] [].

(** [/items/{id}] with the body [{"id": "9", "name": "x"}]. *)
Definition testJSONRequestGood : testJSONRequest :=
  {| jsonVars := {["id" := "5"]};
     jsonBody := inl {["id" := "9"; "name" := "x"]} |}.

Definition testJSONRequestBad : testJSONRequest :=
  {| jsonVars := {["id" := "5"]};
     jsonBody := inr (errorString "unexpected end of JSON input") |}.

(** The dispatcher of [testThree] and the one of [testSuperState]. *)
Definition testThreeDispatcher : @StringArgsDispatcher testEnv :=
  default (@Build_StringArgsDispatcher testEnv ∅ []) (deref testThree (Some 0%nat)).


(** A super dispatcher whose default super command is registered. *)
Definition testSuperDefault : @SuperStringArgsDispatcher.t testEnv :=
  @SuperStringArgsDispatcher.Build_t testEnv {["" := Some 0%nat]} ["audit"].

(** ** Properties of the string functions *)

Example runes_ascii : utf8.runes "a b" = [97; 32; 98].
Proof. reflexivity. Qed.

Example runes_two_bytes :
  utf8.runes (String (ascii_of_nat 0xC3) (String (ascii_of_nat 0xA9) "!")) = [0xE9; 33].
Proof. reflexivity. Qed.

Example runes_invalid_byte :
  utf8.runes (String (ascii_of_nat 0xC3) "(") = [utf8.RuneError; 40].
Proof. reflexivity. Qed.

Example IndexFunc_space : gostrings.IndexFunc "say hello" unicode.IsSpace = 3.
Proof. reflexivity. Qed.

Example checkCommandChars_greet (g : rune -> bool) : checkCommandChars g "greet" = None.
Proof. reflexivity. Qed.

(** The default name is not a name [AddCommand] accepts. *)
Example checkCommandChars_Default (g : rune -> bool) :
  checkCommandChars g Default
  = Some (errorString "command contains non graphc characters: ''").
Proof. reflexivity. Qed.

Lemma skip_length (n : nat) (s : string) :
  (String.length (skip n s) <= String.length s)%nat.
Proof.
  revert s; induction n as [|n IH]; intros [|c t]; simpl; try lia.
  specialize (IH t); lia.
Qed.

(** The loop of [runes] does not depend on its bound once the bound covers
    the string. *)
Lemma runes_loop_enough (n m : nat) (s : string) :
  (String.length s <= n)%nat -> (String.length s <= m)%nat ->
  utf8.runes_loop n s = utf8.runes_loop m s.
Proof.
  revert m s; induction n as [|n IH]; intros m s Hn Hm.
  - destruct s; simpl in *; [|lia]. destruct m; reflexivity.
  - destruct s as [|c t]; [destruct m; reflexivity|].
    destruct m as [|m]; simpl in Hn, Hm; [lia|].
    cbn [utf8.runes_loop].
    destruct (utf8.DecodeRuneInString (String c t)) as [r size].
    f_equal. pose proof (skip_length (Nat.pred size) t).
    apply IH; lia.
Qed.

(** [runes] visits the first rune, then the runes of what follows it. *)
Lemma runes_cons (c : ascii) (t : string) :
  utf8.runes (String c t) =
  (utf8.DecodeRuneInString (String c t)).1
    :: utf8.runes (skip (Nat.pred (utf8.DecodeRuneInString (String c t)).2) t).
Proof.
  unfold utf8.runes. cbn [String.length utf8.runes_loop].
  destruct (utf8.DecodeRuneInString (String c t)) as [r size]. cbn [fst snd].
  f_equal. pose proof (skip_length (Nat.pred size) t).
  apply runes_loop_enough; lia.
Qed.

(** The search loop and the rune list agree: the loop fails with [-1]
    when no rune satisfies [f], and answers an index at or after its
    starting offset when one does. *)
Lemma indexFunc_loop_runes (f : rune -> bool) (fuel : nat) (i : Z) (s : string) :
  0 <= i ->
  (gostrings.indexFunc_loop fuel i s f = -1
   /\ existsb f (utf8.runes_loop fuel s) = false)
  \/ (i <= gostrings.indexFunc_loop fuel i s f
      /\ existsb f (utf8.runes_loop fuel s) = true).
Proof.
  revert i s; induction fuel as [|fuel IH]; intros i s Hi; [left; auto|].
  destruct s as [|c t]; [left; auto|].
  cbn [gostrings.indexFunc_loop utf8.runes_loop].
  destruct (utf8.DecodeRuneInString (String c t)) as [r size].
  cbn [existsb]. destruct (f r) eqn:Hf; cbn [orb].
  - right; split; [lia|reflexivity].
  - destruct (IH (i + Z.of_nat size) (skip (Nat.pred size) t)) as [[H1 H2]|[H1 H2]];
      [lia| |]; [left|right]; split; auto; lia.
Qed.

Lemma IndexFunc_found (f : rune -> bool) (s : string) :
  (0 <=? gostrings.IndexFunc s f) = existsb f (utf8.runes s).
Proof.
  unfold gostrings.IndexFunc, utf8.runes.
  destruct (indexFunc_loop_runes f (String.length s) 0 s) as [[H1 H2]|[H1 H2]];
    [lia| |]; rewrite H2.
  - rewrite H1. reflexivity.
  - apply Z.leb_le. exact H1.
Qed.

Lemma IndexFunc_missing (f : rune -> bool) (s : string) :
  (gostrings.IndexFunc s f =? -1) = negb (existsb f (utf8.runes s)).
Proof.
  unfold gostrings.IndexFunc, utf8.runes.
  destruct (indexFunc_loop_runes f (String.length s) 0 s) as [[H1 H2]|[H1 H2]];
    [lia| |]; rewrite H2; cbn [negb].
  - rewrite H1. reflexivity.
  - apply Z.eqb_neq. lia.
Qed.

Lemma existsb_pointwise {A} (f g : A -> bool) (l : list A) :
  (forall x, f x = g x) -> existsb f l = existsb g l.
Proof.
  intros Hfg; induction l as [|x l IH]; simpl; [reflexivity|].
  rewrite Hfg, IH. reflexivity.
Qed.

Lemma ContainsAny_forbidden (s : string) :
  gostrings.ContainsAny s "|&;()<>"
  = existsb (fun r => existsb (fun c => c =? r) forbiddenRunes) (utf8.runes s).
Proof.
  unfold gostrings.ContainsAny, gostrings.IndexAny.
  rewrite IndexFunc_found. apply existsb_pointwise. intros r.
  unfold gostrings.IndexRune. rewrite IndexFunc_found. reflexivity.
Qed.

Lemma existsb_true_iff {A} (f : A -> bool) (l : list A) :
  existsb f l = true <-> exists x, x ∈ l /\ f x = true.
Proof.
  rewrite existsb_exists. split; intros (x & Hx & Hf); exists x; split; auto;
    by apply list_elem_of_In.
Qed.

Lemma existsb_forbidden (r : rune) :
  existsb (fun c => c =? r) forbiddenRunes = true <-> r ∈ forbiddenRunes.
Proof.
  rewrite existsb_true_iff. split.
  - intros (c & Hc & Heq). apply Z.eqb_eq in Heq. by subst.
  - intros Hr. exists r. split; [done|]. apply Z.eqb_refl.
Qed.

Lemma checkCommandChars_None (g : rune -> bool) (s : string) :
  checkCommandChars g s = None <->
  existsb unicode.IsSpace (utf8.runes s) = false
  /\ existsb (unicode.IsGraphic g) (utf8.runes s) = true
  /\ existsb (fun r => existsb (fun c => c =? r) forbiddenRunes) (utf8.runes s) = false.
Proof.
  unfold checkCommandChars.
  rewrite IndexFunc_found, IndexFunc_missing, ContainsAny_forbidden.
  destruct (existsb unicode.IsSpace (utf8.runes s));
    destruct (existsb (unicode.IsGraphic g) (utf8.runes s));
    destruct (existsb _ (utf8.runes s)); cbn [negb]; intuition congruence.
Qed.

Lemma checkCommandChars_rejects (g : rune -> bool) (s : string) :
  containsSpace s \/ containsForbidden s -> is_Some (checkCommandChars g s).
Proof.
  intros Hbad. destruct (checkCommandChars g s) eqn:Hc; [eauto|].
  apply checkCommandChars_None in Hc as (Hs & _ & Hf).
  destruct Hbad as [(r & Hr & Hsp)|(r & Hr & Hfb)].
  - assert (existsb unicode.IsSpace (utf8.runes s) = true) by
      (apply existsb_true_iff; eauto).
    congruence.
  - assert (existsb (fun r => existsb (fun c => c =? r) forbiddenRunes)
                    (utf8.runes s) = true).
    { apply existsb_true_iff. exists r. split; [done|]. by apply existsb_forbidden. }
    congruence.
Qed.

(** C6. For every string, [checkCommandChars] accepts it (returns nil)
    if and only if it contains no whitespace character, contains at least
    one graphic character, and contains none of the characters
    [| & ; ( ) < >]. *)
Theorem checkCommandChars_accepts_iff (g : rune -> bool) (s : string) :
  checkCommandChars g s = None <->
  ~ containsSpace s /\ containsGraphic g s /\ ~ containsForbidden s.
Proof.
  rewrite checkCommandChars_None. unfold containsSpace, containsGraphic, containsForbidden.
  rewrite <- !not_true_iff_false, !existsb_true_iff.
  split; intros (Hs & Hg & Hf); (split; [|split]); auto.
  - intros (r & Hr & Hfb). apply Hf. exists r. split; [done|].
    by apply existsb_forbidden.
  - intros (r & Hr & Hfb). apply Hf. exists r. split; [done|].
    by apply existsb_forbidden.
Qed.

(** ** Properties of the primitive calls *)

Section Primitives.
Context {env : Env}.

Lemma load_allocated (st : State) (p : ptr) (d : StringArgsDispatcher) :
  deref st p = Some d -> load p st = (Returned d, st).
Proof. intros H. unfold load. by rewrite H. Qed.

Lemma load_nil (st : State) (p : ptr) :
  deref st p = None -> load p st = (Panicked nilDereference, st).
Proof. intros H. unfold load. by rewrite H. Qed.

Lemma store_allocated (st : State) (i : nat) (d d' : StringArgsDispatcher) :
  deref st (Some i) = Some d ->
  store (Some i) d' st =
  (Returned tt, {| trace := trace st; world := world st; heap := <[i := d']> (heap st) |}).
Proof.
  cbn [deref]. intros H. apply lookup_lt_Some in H. unfold store.
  destruct (Nat.ltb_spec i (length (heap st))); [reflexivity|lia].
Qed.

(** Notifying the loggers: every logger is called once, in the order
    of the slice, and the call returns. *)
Lemma forRange_callLogger (ls : list StringArgsCommandLogger)
      (command : string) (args : list string) (st : State) :
  forRange ls (fun logger => callLogger logger command args) st =
  (Returned tt,
   {| trace := trace st ++ map (fun logger => LogCall logger command args) ls;
      world := foldl (fun w logger => LogStringArgsCommand logger command args w)
                     (world st) ls;
      heap := heap st |}).
Proof.
  revert st; induction ls as [|l ls IH]; intros [tr w h]; cbn.
  - by rewrite app_nil_r.
  - unfold bind, callLogger at 1. cbn. rewrite IH. cbn. by rewrite <- app_assoc.
Qed.

End Primitives.

(** ** Dispatch *)

Section DispatchProperties.
Context {env : Env}.

(** C3. Dispatching a name that is not registered returns [ErrNotFound]
    and leaves the state as it was: no logger is called and no command
    function is invoked.  Likewise [SuperStringArgsDispatcher.Dispatch]
    with an unregistered super command returns [SuperCommandNotFound]
    with no call made. *)
Theorem Dispatch_unregistered :
  (forall (st : State) (disp : ptr) (d : StringArgsDispatcher) (ctx : context)
          (command : string) (args : list string),
      deref st disp = Some d ->
      comm d !! command = None ->
      StringArgsDispatcher.Dispatch disp ctx command args st
      = (Returned (Some ErrNotFound), st))
  /\ (forall (st : State) (disp : SuperStringArgsDispatcher.t) (ctx : context)
             (superCommand command : string) (args : list string),
         SuperStringArgsDispatcher.sub disp !! superCommand = None ->
         SuperStringArgsDispatcher.Dispatch disp ctx superCommand command args st
         = (Returned (Some (SuperCommandNotFound superCommand)), st)).
Proof.
  split.
  - intros st disp d ctx command args Hd Hc.
    unfold StringArgsDispatcher.Dispatch, bind.
    rewrite (load_allocated _ _ _ Hd), Hc. reflexivity.
  - intros st disp ctx superCommand command args Hs.
    unfold SuperStringArgsDispatcher.Dispatch. rewrite Hs. reflexivity.
Qed.

(** C4. Dispatching a registered command calls every logger of the
    dispatcher with (command, args) exactly once, in the order of
    registration, and only then calls the command's bound function; the
    loggers have been called whatever the bound function returns. *)
Theorem Dispatch_logs_then_invokes
        (st : State) (disp : ptr) (d : StringArgsDispatcher) (ctx : context)
        (command : string) (args : list string) (cmd : stringArgsCommand) :
  deref st disp = Some d ->
  comm d !! command = Some cmd ->
  let logged :=
      foldl (fun w logger => LogStringArgsCommand logger command args w)
            (world st) (loggers d) in
  let result := stringArgsFunc cmd ctx args logged in
  StringArgsDispatcher.Dispatch disp ctx command args st
  = (Returned result.1,
     {| trace := trace st
                 ++ map (fun logger => LogCall logger command args) (loggers d)
                 ++ [FuncCall (stringArgsFunc cmd) ctx args];
        world := result.2;
        heap := heap st |}).
Proof.
  intros Hd Hc logged result.
  unfold StringArgsDispatcher.Dispatch, bind.
  rewrite (load_allocated _ _ _ Hd), Hc, forRange_callLogger.
  unfold callFunc. cbn [world trace heap]. subst result logged.
  destruct (stringArgsFunc cmd ctx args _) as [err w]. cbn [fst snd].
  by rewrite <- app_assoc.
Qed.

(** C5. [DispatchDefaultCommand] is [Dispatch] with the background
    context, the empty command name and no arguments; for the super
    dispatcher, with the empty super command name as well. *)
Theorem DispatchDefaultCommand_is_Dispatch_empty :
  (forall (disp : ptr) (st : State),
      StringArgsDispatcher.DispatchDefaultCommand disp st
      = StringArgsDispatcher.Dispatch disp Background "" [] st)
  /\ (forall (disp : SuperStringArgsDispatcher.t) (st : State),
         SuperStringArgsDispatcher.DispatchDefaultCommand disp st
         = SuperStringArgsDispatcher.Dispatch disp Background "" "" [] st).
Proof. split; reflexivity. Qed.

End DispatchProperties.

(** ** The names held by reachable dispatchers *)

Section NamesInvariant.
Context {env : Env}.

Lemma preserves_ret {A} (a : A) : preserves (ret a).
Proof. intros st H. exact H. Qed.

Lemma preserves_panic {A} (v : error) : preserves (@panic State A v).
Proof. intros st H. exact H. Qed.

Lemma preserves_bind {A B} (m : M State A) (k : A -> M State B) :
  preserves m -> (forall a, preserves (k a)) -> preserves (bind m k).
Proof.
  intros Hm Hk st H. unfold bind. specialize (Hm st H).
  destruct (m st) as [[a|v] st']; cbn [snd] in *; [by apply Hk|done].
Qed.

Lemma preserves_load_bind {B} (p : ptr) (k : StringArgsDispatcher -> M State B) :
  (forall d, namesValid d -> preserves (k d)) -> preserves (bind (load p) k).
Proof.
  intros Hk st H. unfold bind, load.
  destruct (deref st p) as [d|] eqn:Hd; [|done].
  apply Hk; [|done]. destruct p as [i|]; [|done]. by apply (H i).
Qed.

Lemma preserves_load (p : ptr) : preserves (load p).
Proof. intros st H. unfold load. by destruct (deref st p). Qed.

Lemma preserves_store (p : ptr) (d : StringArgsDispatcher) :
  namesValid d -> preserves (store p d).
Proof.
  intros Hd st H. unfold store. destruct p as [i|]; [|done].
  destruct (i <? length (heap st))%nat; [|done].
  intros j d' Hj. cbn [snd heap] in Hj.
  destruct (decide (i = j)) as [->|Hne].
  - apply list_lookup_insert_Some in Hj as [(_ & -> & _)|(? & _)]; [done|congruence].
  - rewrite list_lookup_insert_ne in Hj by done. by apply (H j).
Qed.

Lemma preserves_alloc (d : StringArgsDispatcher) :
  namesValid d -> preserves (alloc d).
Proof.
  intros Hd st H j d' Hj. cbn [alloc snd heap] in Hj.
  apply lookup_app_Some in Hj as [Hj|[_ Hj]]; [by apply (H j)|].
  apply list_lookup_singleton_Some in Hj as [_ <-]. done.
Qed.

Lemma preserves_callLogger (l : StringArgsCommandLogger) (c : string) (a : list string) :
  preserves (callLogger l c a).
Proof. intros st H. exact H. Qed.

Lemma preserves_callFunc (f : StringArgsFunc) (ctx : context) (a : list string) :
  preserves (callFunc f ctx a).
Proof. intros st H. unfold callFunc. by destruct (f ctx a (world st)). Qed.

Lemma preserves_forRange {A} (xs : list A) (body : A -> M State unit) :
  (forall x, preserves (body x)) -> preserves (forRange xs body).
Proof.
  intros Hb. induction xs as [|x xs IH]; cbn [forRange].
  - apply preserves_ret.
  - apply preserves_bind; [apply Hb|intros _; apply IH].
Qed.

Lemma preserves_index (xs : list string) (i : nat) : preserves (index xs i).
Proof. unfold index. destruct (xs !! i); [apply preserves_ret|apply preserves_panic]. Qed.

Lemma preserves_sliceFrom (xs : list string) (n : nat) : preserves (sliceFrom xs n).
Proof.
  unfold sliceFrom. destruct (n <=? length xs)%nat;
    [apply preserves_ret|apply preserves_panic].
Qed.

Lemma namesValid_empty (ls : list StringArgsCommandLogger) :
  namesValid {| comm := ∅; loggers := ls |}.
Proof. intros k [c Hc]. cbn in Hc. by rewrite lookup_empty in Hc. Qed.

Lemma namesValid_insert (d : StringArgsDispatcher) (k : string) (c : stringArgsCommand) :
  namesValid d -> validName k ->
  namesValid {| comm := <[k := c]> (comm d); loggers := loggers d |}.
Proof.
  intros Hd Hk k' [c' Hc']. cbn in Hc'.
  destruct (decide (k = k')) as [<-|Hne]; [done|].
  rewrite lookup_insert_ne in Hc' by done. apply Hd. eauto.
Qed.

End NamesInvariant.

Create HintDb preserves.

#[local] Hint Resolve preserves_ret preserves_panic preserves_load preserves_store
  preserves_alloc preserves_callLogger preserves_callFunc preserves_index
  preserves_sliceFrom namesValid_empty namesValid_insert : preserves.

(** Goes through a method body, one call at a time. *)
Ltac preserves_step :=
  match goal with
  | |- preserves (bind (load _) _) => apply preserves_load_bind; intros ? ?
  | |- preserves (bind _ _) => apply preserves_bind; [|intros ?]
  | |- preserves (forRange _ _) => apply preserves_forRange; intros ?
  | |- preserves (match ?x with _ => _ end) => destruct x eqn:?
  | |- preserves (if ?x then _ else _) => destruct x eqn:?
  | |- preserves (let '(_, _) := ?x in _) => destruct x
  | |- preserves _ => solve [eauto with preserves]
  end.

Section MethodsPreserve.
Context {env : Env}.

Lemma NewStringArgsDispatcher_preserves (ls : list StringArgsCommandLogger) :
  preserves (StringArgsDispatcher.NewStringArgsDispatcher ls).
Proof. unfold StringArgsDispatcher.NewStringArgsDispatcher. eauto with preserves. Qed.

Lemma AddCommand_preserves disp command description f a rh :
  preserves (StringArgsDispatcher.AddCommand disp command description f a rh).
Proof.
  unfold StringArgsDispatcher.AddCommand. repeat preserves_step.
  apply preserves_store, namesValid_insert; [done|]. by right.
Qed.

Lemma AddDefaultCommand_preserves disp description f a rh :
  preserves (StringArgsDispatcher.AddDefaultCommand disp description f a rh).
Proof.
  unfold StringArgsDispatcher.AddDefaultCommand. repeat preserves_step.
  apply preserves_store, namesValid_insert; [done|]. by left.
Qed.

Lemma Dispatch_preserves disp ctx command args :
  preserves (StringArgsDispatcher.Dispatch disp ctx command args).
Proof. unfold StringArgsDispatcher.Dispatch. repeat preserves_step. Qed.

Lemma HasCommnd_preserves disp command :
  preserves (StringArgsDispatcher.HasCommnd disp command).
Proof. unfold StringArgsDispatcher.HasCommnd. repeat preserves_step. Qed.

Lemma HasDefaultCommnd_preserves disp :
  preserves (StringArgsDispatcher.HasDefaultCommnd disp).
Proof. unfold StringArgsDispatcher.HasDefaultCommnd. repeat preserves_step. Qed.

Lemma DispatchCombinedCommandAndArgs_preserves disp ctx l :
  preserves (StringArgsDispatcher.DispatchCombinedCommandAndArgs disp ctx l).
Proof.
  unfold StringArgsDispatcher.DispatchCombinedCommandAndArgs,
    StringArgsDispatcher.DispatchDefaultCommand.
  repeat preserves_step; apply Dispatch_preserves.
Qed.

Lemma AddSuperCommand_preserves disp superCommand :
  preserves (SuperStringArgsDispatcher.AddSuperCommand disp superCommand).
Proof.
  unfold SuperStringArgsDispatcher.AddSuperCommand.
  repeat preserves_step; apply NewStringArgsDispatcher_preserves.
Qed.

Lemma SuperAddDefaultCommand_preserves disp description f a rh :
  preserves (SuperStringArgsDispatcher.AddDefaultCommand disp description f a rh).
Proof.
  unfold SuperStringArgsDispatcher.AddDefaultCommand.
  repeat preserves_step;
    first [apply AddSuperCommand_preserves | apply AddDefaultCommand_preserves].
Qed.

Lemma SuperDispatch_preserves disp ctx superCommand command args :
  preserves (SuperStringArgsDispatcher.Dispatch disp ctx superCommand command args).
Proof.
  unfold SuperStringArgsDispatcher.Dispatch.
  repeat preserves_step; apply Dispatch_preserves.
Qed.

Lemma SuperDispatchCombinedCommandAndArgs_preserves disp ctx l :
  preserves (SuperStringArgsDispatcher.DispatchCombinedCommandAndArgs disp ctx l).
Proof.
  unfold SuperStringArgsDispatcher.DispatchCombinedCommandAndArgs.
  repeat preserves_step;
    first [apply SuperDispatch_preserves | apply HasDefaultCommnd_preserves].
Qed.

End MethodsPreserve.

#[local] Hint Resolve NewStringArgsDispatcher_preserves AddCommand_preserves
  AddDefaultCommand_preserves Dispatch_preserves HasCommnd_preserves
  HasDefaultCommnd_preserves DispatchCombinedCommandAndArgs_preserves
  AddSuperCommand_preserves SuperAddDefaultCommand_preserves SuperDispatch_preserves
  SuperDispatchCombinedCommandAndArgs_preserves : preserves.

Section Reachable.
Context {env : Env}.

Lemma exec_preserves (c : Call) (st : State) :
  heapValid st -> heapValid (exec c st).
Proof.
  intros H. destruct c; cbn [exec];
    try match goal with |- context [if ?must then _ else _] => destruct must end;
    match goal with |- heapValid (?m st).2 => revert st H; change (preserves m) end;
    try solve [eauto with preserves];
    unfold StringArgsDispatcher.MustAddCommand,
      StringArgsDispatcher.MustAddDefaultCommand, StringArgsDispatcher.MustDispatch,
      StringArgsDispatcher.MustDispatchDefaultCommand,
      StringArgsDispatcher.DispatchDefaultCommand,
      StringArgsDispatcher.MustDispatchCombinedCommandAndArgs,
      SuperStringArgsDispatcher.MustAddSuperCommand,
      SuperStringArgsDispatcher.MustAddDefaultCommand,
      SuperStringArgsDispatcher.MustDispatch,
      SuperStringArgsDispatcher.MustDispatchDefaultCommand,
      SuperStringArgsDispatcher.DispatchDefaultCommand,
      SuperStringArgsDispatcher.HasCommnd, SuperStringArgsDispatcher.HasSubCommnd,
      SuperStringArgsDispatcher.MustDispatchCombinedCommandAndArgs;
    repeat preserves_step.
Qed.

(** Every dispatcher of a reachable state holds only the default name
    and names accepted by [checkCommandChars]. *)
Lemma reachable_heapValid (st : State) : reachable st -> heapValid st.
Proof.
  induction 1 as [w|c st _ IH].
  - intros i d Hi. cbn in Hi. by rewrite lookup_nil in Hi.
  - by apply exec_preserves.
Qed.

End Reachable.

(** ** Registration *)

Section Registration.
Context {env : Env}.

(** [AddCommand] refuses a name that is already registered and changes
    nothing. *)
Lemma AddCommand_duplicate (st : State) (disp : ptr) (d : StringArgsDispatcher)
      (command description : string) (f : CommandFunc) (a : Args)
      (rh : list ResultsHandler) :
  deref st disp = Some d ->
  is_Some (comm d !! command) ->
  StringArgsDispatcher.AddCommand disp command description f a rh st
  = (Returned (Some (errorString ("Command '" +:+ command +:+ "' already added"))), st).
Proof.
  intros Hd [c Hc]. unfold StringArgsDispatcher.AddCommand, bind.
  rewrite (load_allocated _ _ _ Hd), Hc. reflexivity.
Qed.

(** [AddSuperCommand] refuses a super command that is already registered:
    the receiver and the heap stay as they were. *)
Lemma AddSuperCommand_duplicate (st : State) (disp : SuperStringArgsDispatcher.t)
      (superCommand : string) :
  is_Some (SuperStringArgsDispatcher.sub disp !! superCommand) ->
  exists e, SuperStringArgsDispatcher.AddSuperCommand disp superCommand st
            = (Returned (disp, (nil, Some e)), st).
Proof.
  intros [p Hp]. unfold SuperStringArgsDispatcher.AddSuperCommand.
  destruct (if negb _ then _ else _); [eauto|]. rewrite Hp. eauto.
Qed.

(** [AddDefaultCommand] never looks at what the default name holds: once
    the function is bound it stores the new entry and returns nil. *)
Lemma AddDefaultCommand_stores (st : State) (i : nat) (d : StringArgsDispatcher)
      (description : string) (f : CommandFunc) (a : Args) (rh : list ResultsHandler)
      (bound : StringArgsFunc) :
  deref st (Some i) = Some d ->
  GetStringArgsFunc f a rh = inl bound ->
  StringArgsDispatcher.AddDefaultCommand (Some i) description f a rh st
  = (Returned None,
     {| trace := trace st; world := world st;
        heap := <[i := {| comm := <[Default := {| command := Default;
                                                  description := description;
                                                  args := a;
                                                  commandFunc := f;
                                                  stringArgsFunc := bound;
                                                  resultsHandlers := rh |}]> (comm d);
                          loggers := loggers d |}]> (heap st) |}).
Proof.
  intros Hd Hb. unfold StringArgsDispatcher.AddDefaultCommand. rewrite Hb.
  unfold bind. rewrite (load_allocated _ _ _ Hd).
  rewrite (store_allocated _ _ _ _ Hd). reflexivity.
Qed.

(** C2. A command name that contains a whitespace character or one of
    [|&;()<>] is refused by [AddCommand], in every reachable state, and by
    [AddSuperCommand]: the error returned wraps the error of
    [checkCommandChars], and the dispatcher is exactly as before. *)
Theorem invalid_name_rejected :
  (forall (st : State) (disp : ptr) (d : StringArgsDispatcher)
          (command description : string) (f : CommandFunc) (a : Args)
          (rh : list ResultsHandler),
      reachable st ->
      deref st disp = Some d ->
      containsSpace command \/ containsForbidden command ->
      exists e,
        checkCommandChars inGraphicRanges command = Some e
        /\ StringArgsDispatcher.AddCommand disp command description f a rh st
           = (Returned (Some (wrapError ("Command '" +:+ command +:+ "' returned: "
                                           +:+ Error e) e)), st))
  /\ (forall (st : State) (disp : SuperStringArgsDispatcher.t) (superCommand : string),
         containsSpace superCommand \/ containsForbidden superCommand ->
         exists e,
           checkCommandChars inGraphicRanges superCommand = Some e
           /\ SuperStringArgsDispatcher.AddSuperCommand disp superCommand st
              = (Returned (disp, (nil, Some (wrapError ("Command '" +:+ superCommand
                                                          +:+ "': " +:+ Error e) e))),
                 st)).
Proof.
  split.
  - intros st disp d command description f a rh Hr Hd Hbad.
    destruct (checkCommandChars_rejects inGraphicRanges command Hbad) as [e He].
    exists e. split; [done|].
    unfold StringArgsDispatcher.AddCommand, bind. rewrite (load_allocated _ _ _ Hd).
    destruct (comm d !! command) as [c|] eqn:Hc.
    + destruct disp as [i|]; [|done].
      destruct (reachable_heapValid st Hr i d Hd command) as [->|Hv]; [eauto| |congruence].
      unfold Default in He. destruct Hbad as [(r & Hr' & _)|(r & Hr' & _)];
        by apply elem_of_nil in Hr'.
    + rewrite He. reflexivity.
  - intros st disp superCommand Hbad.
    destruct (checkCommandChars_rejects inGraphicRanges superCommand Hbad) as [e He].
    exists e. split; [done|].
    unfold SuperStringArgsDispatcher.AddSuperCommand.
    destruct (String.eqb_spec superCommand "") as [->|Hne].
    + destruct Hbad as [(r & Hr' & _)|(r & Hr' & _)]; by apply elem_of_nil in Hr'.
    + cbn [negb]. rewrite He. reflexivity.
Qed.

End Registration.

(** ** Must variants *)

Section Must.
Context {env : Env}.

Lemma mustOf_bind {A B} (plain : M State A) (k : A -> M State B)
      (err : A -> option error) (res : A -> B) (payload : A -> error -> error) :
  (forall r, k r = match err r with
                   | Some e => panic (payload r e)
                   | None => ret (res r)
                   end) ->
  mustOf plain (bind plain k) err res.
Proof.
  intros Hk st r st' Hp. unfold bind. rewrite Hp, Hk.
  destruct (err r) as [e|]; split.
  - split; [eauto|]. intros _. by eexists.
  - done.
  - split; [intros [v Hv]; discriminate|intros [e He]; discriminate].
  - done.
Qed.

(** C7. Every Must variant panics exactly when the plain method returns
    an error, and otherwise returns what the plain method returns besides
    the error, leaving the same state. *)
Theorem Must_variants :
  (forall disp command description f a rh,
      mustOf (StringArgsDispatcher.AddCommand disp command description f a rh)
             (StringArgsDispatcher.MustAddCommand disp command description f a rh)
             id (fun _ => tt))
  /\ (forall disp description f a rh,
         mustOf (StringArgsDispatcher.AddDefaultCommand disp description f a rh)
                (StringArgsDispatcher.MustAddDefaultCommand disp description f a rh)
                id (fun _ => tt))
  /\ (forall disp ctx command args,
         mustOf (StringArgsDispatcher.Dispatch disp ctx command args)
                (StringArgsDispatcher.MustDispatch disp ctx command args)
                id (fun _ => tt))
  /\ (forall disp,
         mustOf (StringArgsDispatcher.DispatchDefaultCommand disp)
                (StringArgsDispatcher.MustDispatchDefaultCommand disp)
                id (fun _ => tt))
  /\ (forall disp ctx commandAndArgs,
         mustOf (StringArgsDispatcher.DispatchCombinedCommandAndArgs disp ctx commandAndArgs)
                (StringArgsDispatcher.MustDispatchCombinedCommandAndArgs disp ctx commandAndArgs)
                snd fst)
  /\ (forall disp superCommand,
         mustOf (SuperStringArgsDispatcher.AddSuperCommand disp superCommand)
                (SuperStringArgsDispatcher.MustAddSuperCommand disp superCommand)
                (fun r => r.2.2) (fun r => (r.1, r.2.1)))
  /\ (forall disp description f a rh,
         mustOf (SuperStringArgsDispatcher.AddDefaultCommand disp description f a rh)
                (SuperStringArgsDispatcher.MustAddDefaultCommand disp description f a rh)
                snd (fun r => (r.1, tt)))
  /\ (forall disp ctx superCommand command args,
         mustOf (SuperStringArgsDispatcher.Dispatch disp ctx superCommand command args)
                (SuperStringArgsDispatcher.MustDispatch disp ctx superCommand command args)
                id (fun _ => tt))
  /\ (forall disp,
         mustOf (SuperStringArgsDispatcher.DispatchDefaultCommand disp)
                (SuperStringArgsDispatcher.MustDispatchDefaultCommand disp)
                id (fun _ => tt))
  /\ (forall disp ctx commandAndArgs,
         mustOf (SuperStringArgsDispatcher.DispatchCombinedCommandAndArgs
                   disp ctx commandAndArgs)
                (SuperStringArgsDispatcher.MustDispatchCombinedCommandAndArgs
                   disp ctx commandAndArgs)
                snd fst).
Proof.
  repeat apply conj.
  - intros. by apply mustOf_bind with (payload := fun _ e => e).
  - intros. by apply mustOf_bind with (payload := fun _ e => e).
  - intros disp ctx name args.
    by apply mustOf_bind with
      (payload := fun _ e => wrapError ("Command '" +:+ name +:+ "' returned: "
                                          +:+ Error e) e).
  - intros. by apply mustOf_bind with
      (payload := fun _ e => wrapError ("Default command: " +:+ Error e) e).
  - intros disp ctx commandAndArgs.
    by apply mustOf_bind with
      (payload := fun _ e => wrapError ("MustDispatchCombinedCommandAndArgs("
                                          +:+ formatStrings commandAndArgs +:+ "): "
                                          +:+ Error e) e).
  - intros disp superCommand.
    by apply mustOf_bind with
      (payload := fun _ e => wrapError ("MustAddSuperCommand(" +:+ superCommand +:+ "): "
                                          +:+ Error e) e).
  - intros disp descr f a rh.
    by apply mustOf_bind with
      (payload := fun _ e => wrapError ("MustAddDefaultCommand(" +:+ descr +:+ "): "
                                          +:+ Error e) e).
  - intros disp ctx superCommand name args.
    by apply mustOf_bind with
      (payload := fun _ e => wrapError ("Command '" +:+ name +:+ "': " +:+ Error e) e).
  - intros. by apply mustOf_bind with
      (payload := fun _ e => wrapError ("Default command: " +:+ Error e) e).
  - intros disp ctx commandAndArgs.
    by apply mustOf_bind with
      (payload := fun _ e => wrapError ("MustDispatchCombinedCommandAndArgs("
                                          +:+ formatStrings commandAndArgs +:+ "): "
                                          +:+ Error e) e).
Qed.

End Must.

(** ** Combined command and arguments *)

Section Combined.
Context {env : Env}.

Lemma HasDefaultCommnd_allocated (st : State) (p : ptr) (d : StringArgsDispatcher) :
  deref st p = Some d ->
  StringArgsDispatcher.HasDefaultCommnd p st
  = (Returned (bool_decide (is_Some (comm d !! Default))), st).
Proof.
  intros Hd. unfold StringArgsDispatcher.HasDefaultCommnd, bind.
  rewrite (load_allocated _ _ _ Hd).
  destruct (comm d !! Default) as [c|] eqn:Hc.
  - rewrite bool_decide_eq_true_2; [reflexivity|eauto].
  - rewrite bool_decide_eq_false_2; [reflexivity|]. by intros [? ?].
Qed.

(** C9. [SuperStringArgsDispatcher.DispatchCombinedCommandAndArgs]: the
    empty list dispatches the default command of the default super
    command with no arguments; a single element is the super command,
    whose default command is dispatched; with two or more elements, when
    the first names a registered super command whose dispatcher has a
    default command, all the remaining elements are the arguments of that
    default command, and otherwise the second element is the command and
    the elements after it its arguments. *)
Theorem Super_DispatchCombinedCommandAndArgs_cases
        (disp : SuperStringArgsDispatcher.t) (ctx : context) (st : State) :
  SuperStringArgsDispatcher.DispatchCombinedCommandAndArgs disp ctx [] st
  = (let* err := SuperStringArgsDispatcher.Dispatch disp ctx Default Default [] in
     ret (Default, Default, err)) st
  /\ (forall s,
         SuperStringArgsDispatcher.DispatchCombinedCommandAndArgs disp ctx [s] st
         = (let* err := SuperStringArgsDispatcher.Dispatch disp ctx s Default [] in
            ret (s, Default, err)) st)
  /\ (forall s c rest p d,
         SuperStringArgsDispatcher.sub disp !! s = Some p ->
         deref st p = Some d ->
         is_Some (comm d !! Default) ->
         SuperStringArgsDispatcher.DispatchCombinedCommandAndArgs disp ctx (s :: c :: rest) st
         = (let* err := SuperStringArgsDispatcher.Dispatch disp ctx s Default (c :: rest) in
            ret (s, Default, err)) st)
  /\ (forall s c rest,
         SuperStringArgsDispatcher.sub disp !! s = None
         \/ (exists p d, SuperStringArgsDispatcher.sub disp !! s = Some p
                         /\ deref st p = Some d /\ comm d !! Default = None) ->
         SuperStringArgsDispatcher.DispatchCombinedCommandAndArgs disp ctx (s :: c :: rest) st
         = (let* err := SuperStringArgsDispatcher.Dispatch disp ctx s c rest in
            ret (s, c, err)) st).
Proof.
  repeat apply conj.
  - reflexivity.
  - reflexivity.
  - intros s c rest p d Hs Hd Hdef.
    unfold SuperStringArgsDispatcher.DispatchCombinedCommandAndArgs.
    cbn [length index lookup list_lookup]. unfold bind at 1 2. cbn [ret].
    rewrite Hs. unfold bind at 1. rewrite (HasDefaultCommnd_allocated _ _ _ Hd).
    rewrite bool_decide_eq_true_2 by done. reflexivity.
  - intros s c rest Hno.
    unfold SuperStringArgsDispatcher.DispatchCombinedCommandAndArgs.
    cbn [length index lookup list_lookup]. unfold bind at 1 2. cbn [ret].
    destruct Hno as [Hs|(p & d & Hs & Hd & Hdef)]; rewrite Hs.
    + reflexivity.
    + unfold bind at 1. rewrite (HasDefaultCommnd_allocated _ _ _ Hd).
      rewrite bool_decide_eq_false_2; [reflexivity|]. rewrite Hdef. by intros [? ?].
Qed.

End Combined.

(** ** The http handlers *)

Section HttpHandlers.
Context {henv : HttpEnv}.

Lemma addQueryParams_lookup (query : gmap string (list string)) (keys : list string)
      (vars : gmap string string) (k : string) :
  gorillamux.addQueryParams query keys vars !! k
  = if decide (k ∈ keys) then
      if gorillamux.firstValueNonEmpty (default [] (query !! k))
      then Some (String.concat ";" (default [] (query !! k)))
      else vars !! k
    else vars !! k.
Proof.
  unfold gorillamux.addQueryParams.
  revert vars; induction keys as [|k0 keys IH]; intros vars; cbn [foldl].
  - rewrite decide_False; [done|]. apply not_elem_of_nil.
  - rewrite IH. unfold gorillamux.addQueryParam.
    destruct (decide (k = k0)) as [->|Hne].
    + rewrite (decide_True (P := k0 ∈ k0 :: keys)) by apply list_elem_of_here.
      destruct (gorillamux.firstValueNonEmpty (default [] (query !! k0))) eqn:Hg.
      * rewrite lookup_insert_eq. by destruct (decide (k0 ∈ keys)).
      * by destruct (decide (k0 ∈ keys)).
    + assert (Hv : (if gorillamux.firstValueNonEmpty (default [] (query !! k0))
                    then <[k0 := String.concat ";" (default [] (query !! k0))]> vars
                    else vars) !! k = vars !! k).
      { destruct (gorillamux.firstValueNonEmpty (default [] (query !! k0))); [|done].
        apply lookup_insert_ne. congruence. }
      rewrite Hv.
      destruct (decide (k ∈ keys)) as [Hk|Hk].
      * rewrite decide_True; [done|]. by apply list_elem_of_further.
      * rewrite decide_False; [done|].
        intros [?|?]%elem_of_cons; done.
Qed.

Lemma elem_of_rangeKeys (query : gmap string (list string)) (k : string) :
  k ∈ gorillamux.rangeKeys query <-> is_Some (query !! k).
Proof.
  unfold gorillamux.rangeKeys. rewrite list_elem_of_fmap. split.
  - intros ([k' v] & -> & Hkv). apply elem_of_map_to_list in Hkv. eauto.
  - intros [v Hv]. exists (k, v). split; [done|]. by apply elem_of_map_to_list.
Qed.

Lemma forRange_callHandleError (hs : list Handler) (e : error) (request : Request)
      (st : gorillamux.State) :
  forRange hs (fun h => gorillamux.callHandleError h e request) st
  = (Returned tt,
     {| gorillamux.trace :=
          gorillamux.trace st ++ map (fun h => gorillamux.HandleErrorCall h e) hs;
        gorillamux.world :=
          foldl (fun w h => HandleError h e request w) (gorillamux.world st) hs |}).
Proof.
  revert st; induction hs as [|h hs IH]; intros [tr w]; cbn.
  - by rewrite app_nil_r.
  - unfold bind, gorillamux.callHandleError at 1. cbn. rewrite IH. cbn.
    by rewrite <- app_assoc.
Qed.

(** What [handleErr] adds to the trace for a non-nil error: one call per
    handler of the chain, or the call of [httperr.Handle] when the chain
    is empty. *)
Lemma handleErr_trace (e : error) (request : Request) (errHandlers : list Handler)
      (st : gorillamux.State) :
  (gorillamux.handleErr (Some e) request errHandlers st).1 = Returned tt
  /\ gorillamux.trace (gorillamux.handleErr (Some e) request errHandlers st).2
     = gorillamux.trace st
       ++ (if (length errHandlers =? 0)%nat then [gorillamux.HttperrHandleCall e]
           else map (fun h => gorillamux.HandleErrorCall h e) errHandlers).
Proof.
  unfold gorillamux.handleErr. destruct (length errHandlers =? 0)%nat.
  - done.
  - by rewrite forRange_callHandleError.
Qed.

Lemma deferredRecover_skip (request : Request) (errHandlers : list Handler)
      (st : gorillamux.State) :
  gorillamux.deferredRecover request errHandlers st = (Returned tt, st).
Proof. unfold gorillamux.deferredRecover. by destruct CatchPanics. Qed.

Lemma cmdFuncCalls_app (tr1 tr2 : list gorillamux.Event) :
  cmdFuncCalls (tr1 ++ tr2) = cmdFuncCalls tr1 ++ cmdFuncCalls tr2.
Proof. apply omap_app. Qed.

Lemma cmdFuncCalls_HandleError (hs : list Handler) (e : error) :
  cmdFuncCalls (map (fun h => gorillamux.HandleErrorCall h e) hs) = [].
Proof. induction hs as [|h hs IH]; [done|exact IH]. Qed.

(** [handleErr] returns and never calls the command function. *)
Lemma handleErr_cmdFuncCalls (err : option error) (request : Request)
      (errHandlers : list Handler) (st : gorillamux.State) :
  exists st', gorillamux.handleErr err request errHandlers st = (Returned tt, st')
              /\ cmdFuncCalls (gorillamux.trace st') = cmdFuncCalls (gorillamux.trace st).
Proof.
  destruct err as [e|]; [|by exists st].
  unfold gorillamux.handleErr. destruct (length errHandlers =? 0)%nat.
  - unfold gorillamux.callHttperrHandle. eexists. split; [reflexivity|].
    cbn [gorillamux.trace]. rewrite cmdFuncCalls_app. cbn. by rewrite app_nil_r.
  - rewrite forRange_callHandleError. eexists. split; [reflexivity|].
    cbn [gorillamux.trace].
    by rewrite cmdFuncCalls_app, cmdFuncCalls_HandleError, app_nil_r.
Qed.

(** What follows the call of the command function in every handler:
    writing the results, handling the error, the deferred function.  It
    returns and does not call the command function again. *)
Lemma results_cmdFuncCalls (resultsWriter : option ResultsWriter) (args : Args)
      (vars : gmap string string) (r : ResultVals * option error) (request : Request)
      (errHandlers : list Handler) (st : gorillamux.State) :
  exists st',
    (let* err := match resultsWriter with
                 | Some rw => gorillamux.callWriteResults rw args vars r.1 r.2 request
                 | None => ret r.2
                 end in
     let* _ := gorillamux.handleErr err request errHandlers in
     gorillamux.deferredRecover request errHandlers) st = (Returned tt, st')
    /\ cmdFuncCalls (gorillamux.trace st') = cmdFuncCalls (gorillamux.trace st).
Proof.
  unfold bind at 1.
  assert (exists err st1,
             match resultsWriter with
             | Some rw => gorillamux.callWriteResults rw args vars r.1 r.2 request
             | None => ret r.2
             end st = (Returned err, st1)
             /\ cmdFuncCalls (gorillamux.trace st1) = cmdFuncCalls (gorillamux.trace st))
    as (err & st1 & -> & H1).
  { destruct resultsWriter as [rw|]; [|by exists r.2, st].
    unfold gorillamux.callWriteResults.
    destruct (WriteResults rw args vars r.1 r.2 request (gorillamux.world st)) as [e w].
    do 2 eexists. split; [reflexivity|]. cbn [gorillamux.trace].
    rewrite cmdFuncCalls_app. cbn. by rewrite app_nil_r. }
  unfold bind.
  destruct (handleErr_cmdFuncCalls err request errHandlers st1) as (st2 & -> & H2).
  rewrite deferredRecover_skip. exists st2. split; [done|congruence].
Qed.

(** C8, amended. The handler with query parameters calls the command
    function once, with a mapping in which every key of the query string
    whose first value is not empty holds all the values of that key joined
    with [;], whatever the path variable of that name was; the keys of the
    query whose first value is empty, and the names that are not keys of
    the query, hold what the path variables hold. *)
Theorem CommandHandlerWithQueryParams_vars
        (f : CommandFunc) (a : Args) (resultsWriter : option ResultsWriter)
        (errHandlers : list Handler) (handler : gorillamux.HandlerFunc)
        (request : Request) (st : gorillamux.State) :
  gorillamux.CommandHandlerWithQueryParams f a resultsWriter errHandlers
  = Returned handler ->
  exists vars,
    cmdFuncCalls (gorillamux.trace (handler request st).2)
    = cmdFuncCalls (gorillamux.trace st) ++ [vars]
    /\ (forall k values,
           URLQuery request !! k = Some values ->
           gorillamux.firstValueNonEmpty values = true ->
           vars !! k = Some (String.concat ";" values))
    /\ (forall k,
           (forall values, URLQuery request !! k = Some values ->
                           gorillamux.firstValueNonEmpty values = false) ->
           vars !! k = muxVars request !! k).
Proof.
  unfold gorillamux.CommandHandlerWithQueryParams.
  destruct (MustGetStringMapArgsResultValuesFunc f a) as [cmdFunc|v]; [|done].
  intros [= <-].
  exists (gorillamux.addQueryParams (URLQuery request)
                                    (gorillamux.rangeKeys (URLQuery request))
                                    (muxVars request)).
  repeat apply conj.
  - cbn zeta. unfold bind at 1. unfold gorillamux.callCmdFunc at 1.
    destruct (cmdFunc _ _ (gorillamux.world st)) as [r w].
    match goal with
    | |- context [results_cmdFuncCalls] => idtac
    | |- cmdFuncCalls (gorillamux.trace (_ ?st1).2) = _ =>
      destruct (results_cmdFuncCalls resultsWriter a
                  (gorillamux.addQueryParams (URLQuery request)
                     (gorillamux.rangeKeys (URLQuery request)) (muxVars request))
                  r request errHandlers st1) as (st' & Hrun & Htr)
    end.
    rewrite Hrun. cbn [snd]. rewrite Htr. cbn [gorillamux.trace].
    by rewrite cmdFuncCalls_app.
  - intros k values Hk Hg. rewrite addQueryParams_lookup.
    rewrite decide_True by (apply elem_of_rangeKeys; eauto).
    rewrite Hk. cbn [default from_option id]. by rewrite Hg.
  - intros k Hk. rewrite addQueryParams_lookup.
    destruct (decide _) as [Hin|]; [|done].
    apply elem_of_rangeKeys in Hin as [values Hv].
    rewrite Hv. cbn [default from_option id]. by rewrite (Hk values Hv).
Qed.

Lemma Returned_inj {A} (x y : A) : Returned x = Returned y -> x = y.
Proof. congruence. Qed.

(** C10. In the handler that takes an argument from the request body,
    when the name given by the body converter is already a path variable
    of the request, the error [argument '<name>' already set by request
    URL path] is handed to every handler of the error-handler chain (to
    [httperr.Handle] when the chain is empty), and the command function is
    not called. *)
Theorem CommandHandlerRequestBodyArg_name_taken
        (bodyConverter : RequestBodyArgConverter) (f : CommandFunc) (a : Args)
        (resultsWriter : option ResultsWriter) (errHandlers : list Handler)
        (handler : gorillamux.HandlerFunc) (request : Request)
        (st : gorillamux.State) (name value : string) (w : World) :
  gorillamux.CommandHandlerRequestBodyArg bodyConverter f a resultsWriter errHandlers
  = Returned handler ->
  RequestBodyToArg bodyConverter request (gorillamux.world st)
  = ((name, value, None), w) ->
  is_Some (muxVars request !! name) ->
  let err := errorString ("argument '" +:+ name +:+ "' already set by request URL path") in
  (handler request st).1 = Returned tt
  /\ gorillamux.trace (handler request st).2
     = gorillamux.trace st
       ++ gorillamux.RequestBodyToArgCall bodyConverter
       :: (if (length errHandlers =? 0)%nat then [gorillamux.HttperrHandleCall err]
           else map (fun h => gorillamux.HandleErrorCall h err) errHandlers)
  /\ cmdFuncCalls (gorillamux.trace (handler request st).2)
     = cmdFuncCalls (gorillamux.trace st).
Proof.
  unfold gorillamux.CommandHandlerRequestBodyArg.
  destruct (MustGetStringMapArgsResultValuesFunc f a) as [cmdFunc|v]; [|done].
  intros Heq%Returned_inj Hconv [old Hold]. subst handler.
  set (err := errorString ("argument '" +:+ name +:+ "' already set by request URL path")).
  set (st1 := {| gorillamux.trace :=
                   gorillamux.trace st ++ [gorillamux.RequestBodyToArgCall bodyConverter];
                 gorillamux.world := w |}).
  destruct (handleErr_trace err request errHandlers st1) as [Hret Htr].
  destruct (gorillamux.handleErr (Some err) request errHandlers st1) as [o st2] eqn:Hh.
  cbn [fst snd] in Hret, Htr. subst o.
  assert (Hrun : (let* nve := gorillamux.callRequestBodyToArg bodyConverter request in
                  let '(name, value, err) := nve in
                  match err with
                  | Some e =>
                    let* _ := gorillamux.handleErr (Some e) request errHandlers in
                    gorillamux.deferredRecover request errHandlers
                  | None =>
                    match muxVars request !! name with
                    | Some _ =>
                      let* _ := gorillamux.handleErr
                                  (Some (errorString
                                           ("argument '" +:+ name
                                              +:+ "' already set by request URL path")))
                                  request errHandlers in
                      gorillamux.deferredRecover request errHandlers
                    | None =>
                      let* r := gorillamux.callCmdFunc cmdFunc (RequestContext request)
                                  (<[name := value]> (muxVars request)) in
                      let* err := match resultsWriter with
                                  | Some rw =>
                                    gorillamux.callWriteResults rw a
                                      (<[name := value]> (muxVars request)) r.1 r.2 request
                                  | None => ret r.2
                                  end in
                      let* _ := gorillamux.handleErr err request errHandlers in
                      gorillamux.deferredRecover request errHandlers
                    end
                  end) st = (Returned tt, st2)).
  { unfold bind at 1. unfold gorillamux.callRequestBodyToArg at 1.
    rewrite Hconv, Hold. unfold bind. fold err st1. rewrite Hh.
    apply deferredRecover_skip. }
  rewrite Hrun. cbn [fst snd].
  assert (Htrace : gorillamux.trace st2
                   = gorillamux.trace st
                     ++ gorillamux.RequestBodyToArgCall bodyConverter
                     :: (if (length errHandlers =? 0)%nat
                         then [gorillamux.HttperrHandleCall err]
                         else map (fun h => gorillamux.HandleErrorCall h err) errHandlers)).
  { rewrite Htr. subst st1. cbn [gorillamux.trace]. by rewrite <- app_assoc. }
  repeat apply conj; [done|done|].
  rewrite Htrace, cmdFuncCalls_app.
  change (gorillamux.RequestBodyToArgCall bodyConverter :: ?l)
    with ([gorillamux.RequestBodyToArgCall bodyConverter] ++ l).
  rewrite cmdFuncCalls_app.
  destruct (length errHandlers =? 0)%nat.
  - cbn. by rewrite app_nil_r.
  - rewrite cmdFuncCalls_HandleError. cbn. by rewrite app_nil_r.
Qed.

(** The command function is not called either when the body converter
    fails: its error goes to the error handlers. *)
Lemma CommandHandlerRequestBodyArg_converter_error
      (bodyConverter : RequestBodyArgConverter) (f : CommandFunc) (a : Args)
      (resultsWriter : option ResultsWriter) (errHandlers : list Handler)
      (handler : gorillamux.HandlerFunc) (request : Request)
      (st : gorillamux.State) (name value : string) (e : error) (w : World) :
  gorillamux.CommandHandlerRequestBodyArg bodyConverter f a resultsWriter errHandlers
  = Returned handler ->
  RequestBodyToArg bodyConverter request (gorillamux.world st)
  = ((name, value, Some e), w) ->
  cmdFuncCalls (gorillamux.trace (handler request st).2)
  = cmdFuncCalls (gorillamux.trace st).
Proof.
  unfold gorillamux.CommandHandlerRequestBodyArg.
  destruct (MustGetStringMapArgsResultValuesFunc f a) as [cmdFunc|v]; [|done].
  intros Heq%Returned_inj Hconv. subst handler.
  unfold bind at 1. unfold gorillamux.callRequestBodyToArg at 1.
  rewrite Hconv. unfold bind.
  match goal with
  | |- context [gorillamux.handleErr (Some e) request errHandlers ?st1] =>
    destruct (handleErr_cmdFuncCalls (Some e) request errHandlers st1) as (st2 & -> & H2)
  end.
  rewrite deferredRecover_skip. cbn [snd]. rewrite H2. cbn [gorillamux.trace].
  rewrite cmdFuncCalls_app. cbn. by rewrite app_nil_r.
Qed.

End HttpHandlers.

(** ** The properties at concrete inputs *)

(** C1. Registering a default command twice with
    [StringArgsDispatcher.AddDefaultCommand]: the second call returns nil
    as the first did, and the entry of the first registration is replaced
    ([AddCommand] and [AddSuperCommand] refuse a name that is present,
    see [AddCommand_duplicate] and [AddSuperCommand_duplicate]). *)
Theorem AddDefaultCommand_twice_overwrites :
  (testDefaultTwice testStart).1
  = Returned (None, Some "first", None, Some "second").
Proof. vm_compute. reflexivity. Qed.

Lemma invalid_name_rejected_witness :
  (exists e,
      checkCommandChars (@inGraphicRanges testEnv) "say hello" = Some e
      /\ @StringArgsDispatcher.AddCommand testEnv (Some 0%nat) "say hello" ""
            ("greeted", None) true [] testRegistered
         = (Returned (Some (wrapError ("Command 'say hello' returned: " +:+ Error e) e)),
            testRegistered))
  /\ (exists e,
         checkCommandChars (@inGraphicRanges testEnv) "a|b" = Some e
         /\ @SuperStringArgsDispatcher.AddSuperCommand testEnv testSuper "a|b" testSuperState
            = (Returned (testSuper,
                         (nil, Some (wrapError ("Command 'a|b': " +:+ Error e) e))),
               testSuperState)).
Proof.
  split.
  - eapply (proj1 (@invalid_name_rejected testEnv)).
    + unfold testRegistered. apply reachable_call, reachable_call, reachable_start.
    + vm_compute. reflexivity.
    + left. exists 32. split; [|reflexivity].
      apply list_elem_of_In. vm_compute. intuition reflexivity.
  - apply (proj2 (@invalid_name_rejected testEnv)).
    right. exists 124. split.
    + apply list_elem_of_In. vm_compute. intuition reflexivity.
    + apply list_elem_of_In. vm_compute. intuition reflexivity.
Defined.

Lemma Dispatch_unregistered_witness :
  @StringArgsDispatcher.Dispatch testEnv (Some 0%nat) tt "absent" ["x"] testRegistered
  = (Returned (Some ErrNotFound), testRegistered)
  /\ @SuperStringArgsDispatcher.Dispatch testEnv testSuper tt "absent" "greet" []
       testSuperState
     = (Returned (Some (SuperCommandNotFound "absent")), testSuperState).
Proof.
  split.
  - eapply (proj1 (@Dispatch_unregistered testEnv)).
    + vm_compute. reflexivity.
    + vm_compute. reflexivity.
  - apply (proj2 (@Dispatch_unregistered testEnv)). vm_compute. reflexivity.
Defined.

Lemma Dispatch_logs_then_invokes_witness :
  exists (d : @StringArgsDispatcher testEnv) (cmd : @stringArgsCommand testEnv),
    deref testRegistered (Some 0%nat) = Some d
    /\ comm d !! "greet" = Some cmd
    /\ loggers d = ["audit"; "debug"]
    /\ trace (@StringArgsDispatcher.Dispatch testEnv (Some 0%nat) tt "greet" ["World"]
                testRegistered).2
       = [@LogCall testEnv "audit" "greet" ["World"];
          @LogCall testEnv "debug" "greet" ["World"];
          @FuncCall testEnv (stringArgsFunc cmd) tt ["World"]].
Proof.
  do 2 eexists. split; [vm_compute; reflexivity|].
  split; [vm_compute; reflexivity|]. split; [reflexivity|].
  erewrite (@Dispatch_logs_then_invokes testEnv testRegistered (Some 0%nat)); cycle 1.
  - vm_compute. reflexivity.
  - vm_compute. reflexivity.
  - vm_compute. reflexivity.
Defined.

Lemma Must_variants_witness :
  (exists v, @StringArgsDispatcher.MustDispatch testEnv (Some 0%nat) tt "absent" []
               testRegistered = (Panicked v, testRegistered))
  /\ @StringArgsDispatcher.MustDispatch testEnv (Some 0%nat) tt "greet" [] testRegistered
     = (Returned tt,
        (@StringArgsDispatcher.Dispatch testEnv (Some 0%nat) tt "greet" [] testRegistered).2).
Proof.
  pose proof (proj1 (proj2 (proj2 (@Must_variants testEnv)))) as Hmust.
  split.
  - apply (Hmust (Some 0%nat) tt "absent" [] testRegistered (Some ErrNotFound)
                 testRegistered).
    + vm_compute. reflexivity.
    + exists ErrNotFound. reflexivity.
  - apply (Hmust (Some 0%nat) tt "greet" [] testRegistered None).
    + vm_compute. reflexivity.
    + reflexivity.
Defined.

Lemma Super_DispatchCombinedCommandAndArgs_cases_witness :
  @SuperStringArgsDispatcher.DispatchCombinedCommandAndArgs testEnv testSuper tt
     ["db"; "users"; "10"] testSuperState
  = (let* err := @SuperStringArgsDispatcher.Dispatch testEnv testSuper tt
                   "db" Default ["users"; "10"] in
     ret ("db", Default, err)) testSuperState
  /\ @SuperStringArgsDispatcher.DispatchCombinedCommandAndArgs testEnv testSuper tt
       ["web"; "start"; "8080"] testSuperState
     = (let* err := @SuperStringArgsDispatcher.Dispatch testEnv testSuper tt
                      "web" "start" ["8080"] in
        ret ("web", "start", err)) testSuperState.
Proof.
  pose proof (@Super_DispatchCombinedCommandAndArgs_cases testEnv testSuper tt
                testSuperState) as (_ & _ & Hdefault & Hcommand).
  split.
  - eapply Hdefault.
    + vm_compute. reflexivity.
    + vm_compute. reflexivity.
    + vm_compute. eexists. reflexivity.
  - apply Hcommand. left. vm_compute. reflexivity.
Defined.

(** C8. With the query [id=&id=7] the key [id] is in the query string,
    but the mapping the command function receives holds the path variable
    5 under [id], not the joined values. *)
Lemma CommandHandlerWithQueryParams_empty_first_value :
  exists handler,
    @gorillamux.CommandHandlerWithQueryParams testHttpEnv ("run", None) true None []
    = Returned handler
    /\ @URLQuery testHttpEnv testRequestEmptyFirst !! "id" = Some [""; "7"]
    /\ exists vars,
        cmdFuncCalls (gorillamux.trace (handler testRequestEmptyFirst testHttpStart).2)
        = [vars]
        /\ vars !! "id" = Some "5"
        /\ vars !! "id" <> Some (String.concat ";" [""; "7"]).
Proof.
  eexists. split; [reflexivity|]. split; [vm_compute; reflexivity|].
  eexists. split; [vm_compute; reflexivity|].
  split; [vm_compute; reflexivity|]. vm_compute. discriminate.
Qed.

Lemma CommandHandlerWithQueryParams_vars_witness :
  exists handler vars,
    @gorillamux.CommandHandlerWithQueryParams testHttpEnv ("run", None) true None []
    = Returned handler
    /\ cmdFuncCalls (gorillamux.trace (handler testRequestRepeated testHttpStart).2)
       = [vars]
    /\ vars !! "id" = Some "6;7"
    /\ vars !! "sort" = Some "name".
Proof.
  eexists.
  destruct (@CommandHandlerWithQueryParams_vars testHttpEnv ("run", None) true None []
              _ testRequestRepeated testHttpStart eq_refl) as (vars & Hcalls & Hquery & _).
  exists vars. split; [reflexivity|]. split; [exact Hcalls|]. split.
  - apply (Hquery "id" ["6"; "7"]); vm_compute; reflexivity.
  - apply (Hquery "sort" ["name"]); vm_compute; reflexivity.
Defined.

Lemma CommandHandlerRequestBodyArg_name_taken_witness :
  exists handler,
    @gorillamux.CommandHandlerRequestBodyArg testHttpEnv ("id", "9", None)
       ("run", None) true None ["log"; "respond"]
    = Returned handler
    /\ (handler testRequestRepeated testHttpStart).1 = Returned tt
    /\ gorillamux.trace (handler testRequestRepeated testHttpStart).2
       = [@gorillamux.RequestBodyToArgCall testHttpEnv ("id", "9", None);
          @gorillamux.HandleErrorCall testHttpEnv "log"
            (errorString "argument 'id' already set by request URL path");
          @gorillamux.HandleErrorCall testHttpEnv "respond"
            (errorString "argument 'id' already set by request URL path")]
    /\ cmdFuncCalls (gorillamux.trace (handler testRequestRepeated testHttpStart).2) = [].
Proof.
  eexists. split; [reflexivity|].
  apply (@CommandHandlerRequestBodyArg_name_taken testHttpEnv ("id", "9", None)
           ("run", None) true None ["log"; "respond"] _ testRequestRepeated testHttpStart
           "id" "9" []).
  - reflexivity.
  - reflexivity.
  - vm_compute. eexists. reflexivity.
Defined.

(** ** Registration and dispatch together *)

Section RegisterAndDispatch.
Context {env : Env}.

(** What [AddCommand] does on an allocated dispatcher, case by case. *)
Lemma AddCommand_run (st : State) (i : nat) (d : StringArgsDispatcher)
      (name descr : string) (f : CommandFunc) (a : Args) (rh : list ResultsHandler) :
  deref st (Some i) = Some d ->
  StringArgsDispatcher.AddCommand (Some i) name descr f a rh st
  = match comm d !! name with
    | Some _ => (Returned (Some (errorString ("Command '" +:+ name +:+ "' already added"))),
                 st)
    | None =>
      match checkCommandChars inGraphicRanges name with
      | Some e =>
        (Returned (Some (wrapError ("Command '" +:+ name +:+ "' returned: " +:+ Error e) e)),
         st)
      | None =>
        match GetStringArgsFunc f a rh with
        | inr e =>
          (Returned (Some (wrapError ("Command '" +:+ name +:+ "' returned: "
                                        +:+ Error e) e)), st)
        | inl bound =>
          (Returned None,
           {| trace := trace st; world := world st;
              heap := <[i := {| comm := <[name := newEntry name descr f a bound rh]> (comm d);
                                loggers := loggers d |}]> (heap st) |})
        end
      end
    end.
Proof.
  intros Hd. unfold StringArgsDispatcher.AddCommand, bind.
  rewrite (load_allocated _ _ _ Hd).
  destruct (comm d !! name); [reflexivity|].
  destruct (checkCommandChars inGraphicRanges name); [reflexivity|].
  destruct (GetStringArgsFunc f a rh) as [bound|e]; [|reflexivity].
  rewrite (store_allocated _ _ _ _ Hd). reflexivity.
Qed.

(** What [Dispatch] does on an allocated dispatcher. *)
Lemma Dispatch_run (st : State) (disp : ptr) (d : StringArgsDispatcher)
      (ctx : context) (name : string) (args : list string) :
  deref st disp = Some d ->
  StringArgsDispatcher.Dispatch disp ctx name args st
  = match comm d !! name with
    | None => (Returned (Some ErrNotFound), st)
    | Some cmd => afterDispatch st (loggers d) (stringArgsFunc cmd) ctx name args
    end.
Proof.
  intros Hd. unfold StringArgsDispatcher.Dispatch, bind.
  rewrite (load_allocated _ _ _ Hd).
  destruct (comm d !! name) as [cmd|]; [|reflexivity].
  rewrite forRange_callLogger. unfold callFunc, afterDispatch. cbn [world trace heap].
  destruct (stringArgsFunc cmd ctx args _) as [err w]. cbn [fst snd].
  by rewrite <- app_assoc.
Qed.

Lemma deref_insert_same (st : State) (i : nat) (d d' : StringArgsDispatcher) :
  deref st (Some i) = Some d ->
  deref {| trace := trace st; world := world st; heap := <[i := d']> (heap st) |} (Some i)
  = Some d'.
Proof.
  cbn [deref heap]. intros Hd. apply list_lookup_insert_eq. by eapply lookup_lt_Some.
Qed.

(** X1. Whenever [AddCommand] returns an error (the name is taken, the
    name is refused, or the function does not bind), the state is exactly
    as before the call. *)
Theorem AddCommand_error_leaves_state
        (st st' : State) (disp : ptr) (name descr : string) (f : CommandFunc)
        (a : Args) (rh : list ResultsHandler) (e : error) :
  StringArgsDispatcher.AddCommand disp name descr f a rh st = (Returned (Some e), st') ->
  st' = st.
Proof.
  destruct (deref st disp) as [d|] eqn:Hd.
  - destruct disp as [i|]; [|done]. rewrite (AddCommand_run _ _ _ _ _ _ _ _ Hd).
    destruct (comm d !! name); [congruence|].
    destruct (checkCommandChars inGraphicRanges name); [congruence|].
    destruct (GetStringArgsFunc f a rh); [discriminate|congruence].
  - unfold StringArgsDispatcher.AddCommand, bind. rewrite (load_nil _ _ Hd). discriminate.
Qed.

(** X2. On an allocated dispatcher [AddCommand] returns nil exactly when
    the name is not registered yet, [checkCommandChars] accepts it and the
    function binds to its arguments. *)
Theorem AddCommand_succeeds_iff
        (st : State) (disp : ptr) (d : StringArgsDispatcher) (name descr : string)
        (f : CommandFunc) (a : Args) (rh : list ResultsHandler) :
  deref st disp = Some d ->
  (exists st', StringArgsDispatcher.AddCommand disp name descr f a rh st
               = (Returned None, st'))
  <-> comm d !! name = None
      /\ checkCommandChars inGraphicRanges name = None
      /\ exists bound, GetStringArgsFunc f a rh = inl bound.
Proof.
  intros Hd. destruct disp as [i|]; [|done].
  rewrite (AddCommand_run _ _ _ _ _ _ _ _ Hd).
  destruct (comm d !! name) as [c|].
  { split; [intros [? ?]; discriminate|intros (? & _); discriminate]. }
  destruct (checkCommandChars inGraphicRanges name) as [e|].
  { split; [intros [? ?]; discriminate|intros (_ & ? & _); discriminate]. }
  destruct (GetStringArgsFunc f a rh) as [bound|e].
  - split; [eauto|]. intros _. eauto.
  - split; [intros [? ?]; discriminate|intros (_ & _ & ? & ?); discriminate].
Qed.

(** X3. A command that [AddCommand] has just registered is the one
    [Dispatch] runs under that name: the loggers of the dispatcher are
    told, then the function bound at registration is called with the
    arguments of the dispatch. *)
Theorem AddCommand_then_Dispatch
        (st : State) (i : nat) (d : StringArgsDispatcher) (name descr : string)
        (f : CommandFunc) (a : Args) (rh : list ResultsHandler) (bound : StringArgsFunc)
        (ctx : context) (args : list string) :
  deref st (Some i) = Some d ->
  comm d !! name = None ->
  checkCommandChars inGraphicRanges name = None ->
  GetStringArgsFunc f a rh = inl bound ->
  (let* _ := StringArgsDispatcher.AddCommand (Some i) name descr f a rh in
   StringArgsDispatcher.Dispatch (Some i) ctx name args) st
  = afterDispatch
      {| trace := trace st; world := world st;
         heap := <[i := {| comm := <[name := newEntry name descr f a bound rh]> (comm d);
                           loggers := loggers d |}]> (heap st) |}
      (loggers d) bound ctx name args.
Proof.
  intros Hd Hfresh Hvalid Hbound. unfold bind at 1.
  rewrite (AddCommand_run _ _ _ _ _ _ _ _ Hd), Hfresh, Hvalid, Hbound.
  erewrite Dispatch_run by (by eapply deref_insert_same).
  cbn [comm loggers]. by rewrite lookup_insert_eq.
Qed.

(** X4. [AddCommand] calls no logger and no command function, and
    touches nothing but the name it registers: every dispatcher stays
    allocated with its loggers, the entries under other names are the
    same, and the other dispatchers are the same altogether. *)
Theorem AddCommand_frame
        (st st' : State) (i : nat) (name descr : string) (f : CommandFunc)
        (a : Args) (rh : list ResultsHandler) (r : outcome (option error)) :
  StringArgsDispatcher.AddCommand (Some i) name descr f a rh st = (r, st') ->
  trace st' = trace st
  /\ world st' = world st
  /\ forall j dj,
      heap st !! j = Some dj ->
      exists dj', heap st' !! j = Some dj'
                  /\ loggers dj' = loggers dj
                  /\ (forall k, k <> name -> comm dj' !! k = comm dj !! k)
                  /\ (j <> i -> dj' = dj).
Proof.
  destruct (deref st (Some i)) as [d|] eqn:Hd.
  - rewrite (AddCommand_run _ _ _ _ _ _ _ _ Hd).
    assert (Hsame : forall j dj, heap st !! j = Some dj ->
              exists dj', heap st !! j = Some dj' /\ loggers dj' = loggers dj
                          /\ (forall k, k <> name -> comm dj' !! k = comm dj !! k)
                          /\ (j <> i -> dj' = dj)) by eauto 10.
    destruct (comm d !! name); [by intros [= <- <-]|].
    destruct (checkCommandChars inGraphicRanges name); [by intros [= <- <-]|].
    destruct (GetStringArgsFunc f a rh) as [bound|e]; [|by intros [= <- <-]].
    intros [= <- <-]. cbn [trace world heap]. repeat apply conj; [done|done|].
    intros j dj Hj. destruct (decide (j = i)) as [->|Hne].
    + cbn [deref] in Hd. assert (dj = d) as -> by congruence.
      eexists. split; [apply list_lookup_insert_eq; by eapply lookup_lt_Some|].
      cbn [loggers comm]. repeat apply conj; [done| |done].
      intros k Hk. by rewrite lookup_insert_ne.
    + exists dj. rewrite list_lookup_insert_ne by done. eauto.
  - unfold StringArgsDispatcher.AddCommand, bind. rewrite (load_nil _ _ Hd).
    intros [= <- <-]. eauto 10.
Qed.

(** X5. The default name cannot be registered with [AddCommand]: the
    call returns an error and changes nothing, whether or not a default
    command is registered. *)
Theorem AddCommand_Default_refused
        (st : State) (disp : ptr) (d : StringArgsDispatcher) (descr : string)
        (f : CommandFunc) (a : Args) (rh : list ResultsHandler) :
  deref st disp = Some d ->
  exists e, StringArgsDispatcher.AddCommand disp Default descr f a rh st
            = (Returned (Some e), st).
Proof.
  intros Hd. destruct disp as [i|]; [|done].
  rewrite (AddCommand_run _ _ _ _ _ _ _ _ Hd).
  destruct (comm d !! Default); [eauto|].
  assert (checkCommandChars inGraphicRanges Default
          = Some (errorString "command contains non graphc characters: ''")) as ->
      by reflexivity.
  eauto.
Qed.

End RegisterAndDispatch.

Section DefaultAndLookup.
Context {env : Env}.

(** X6. The default command [DispatchDefaultCommand] runs is the one the
    last successful [AddDefaultCommand] registered, whatever was
    registered before: the loggers are told of the empty name with no
    arguments, then the bound function is called with the background
    context. *)
Theorem AddDefaultCommand_then_DispatchDefaultCommand
        (st : State) (i : nat) (d : StringArgsDispatcher) (descr : string)
        (f : CommandFunc) (a : Args) (rh : list ResultsHandler) (bound : StringArgsFunc) :
  deref st (Some i) = Some d ->
  GetStringArgsFunc f a rh = inl bound ->
  (let* _ := StringArgsDispatcher.AddDefaultCommand (Some i) descr f a rh in
   StringArgsDispatcher.DispatchDefaultCommand (Some i)) st
  = afterDispatch
      {| trace := trace st; world := world st;
         heap := <[i := {| comm := <[Default := newEntry Default descr f a bound rh]> (comm d);
                           loggers := loggers d |}]> (heap st) |}
      (loggers d) bound Background Default [].
Proof.
  intros Hd Hbound. unfold bind at 1.
  rewrite (AddDefaultCommand_stores _ _ _ _ _ _ _ _ Hd Hbound).
  unfold StringArgsDispatcher.DispatchDefaultCommand.
  erewrite Dispatch_run by (by eapply deref_insert_same).
  cbn [comm loggers]. by rewrite lookup_insert_eq.
Qed.

(** X7. On an allocated dispatcher the only error of
    [AddDefaultCommand] is the binding error of the function, wrapped as
    [Default command: ...]; when it is returned the state is unchanged. *)
Theorem AddDefaultCommand_fails_only_on_binding
        (st st' : State) (disp : ptr) (d : StringArgsDispatcher) (descr : string)
        (f : CommandFunc) (a : Args) (rh : list ResultsHandler) (e : error) :
  deref st disp = Some d ->
  StringArgsDispatcher.AddDefaultCommand disp descr f a rh st = (Returned (Some e), st')
  <-> st' = st
      /\ exists e0, GetStringArgsFunc f a rh = inr e0
                    /\ e = wrapError ("Default command: " +:+ Error e0) e0.
Proof.
  intros Hd. destruct disp as [i|]; [|done].
  destruct (GetStringArgsFunc f a rh) as [bound|e0] eqn:Hb.
  - rewrite (AddDefaultCommand_stores _ _ _ _ _ _ _ _ Hd Hb).
    split; [discriminate|]. by intros (_ & ? & ? & _).
  - unfold StringArgsDispatcher.AddDefaultCommand. rewrite Hb. cbn [ret]. split.
    + intros [= <- <-]. eauto.
    + intros (-> & ? & [= <-] & ->). done.
Qed.

Lemma HasCommnd_run (st : State) (disp : ptr) (d : StringArgsDispatcher) (name : string) :
  deref st disp = Some d ->
  StringArgsDispatcher.HasCommnd disp name st
  = (Returned (bool_decide (is_Some (comm d !! name))), st).
Proof.
  intros Hd. unfold StringArgsDispatcher.HasCommnd, bind.
  rewrite (load_allocated _ _ _ Hd).
  destruct (comm d !! name) as [c|] eqn:Hc.
  - rewrite bool_decide_eq_true_2; [reflexivity|eauto].
  - rewrite bool_decide_eq_false_2; [reflexivity|]. by intros [? ?].
Qed.

Lemma afterDispatch_trace_longer (st : State) (ls : list StringArgsCommandLogger)
      (f : StringArgsFunc) (ctx : context) (name : string) (args : list string) :
  (afterDispatch st ls f ctx name args).2 <> st.
Proof.
  intros Heq. apply (f_equal (fun s => length (trace s))) in Heq.
  cbn [afterDispatch snd trace] in Heq. rewrite !length_app in Heq. cbn in Heq. lia.
Qed.

(** X8. [HasCommnd] answers without changing the state, and it answers
    false exactly when [Dispatch] of that name returns [ErrNotFound]
    having called nothing. *)
Theorem HasCommnd_false_iff_Dispatch_not_found
        (st : State) (disp : ptr) (d : StringArgsDispatcher) (ctx : context)
        (name : string) (args : list string) :
  deref st disp = Some d ->
  (exists b, StringArgsDispatcher.HasCommnd disp name st = (Returned b, st))
  /\ (StringArgsDispatcher.HasCommnd disp name st = (Returned false, st)
      <-> StringArgsDispatcher.Dispatch disp ctx name args st
          = (Returned (Some ErrNotFound), st)).
Proof.
  intros Hd. rewrite (HasCommnd_run _ _ _ _ Hd), (Dispatch_run _ _ _ _ _ _ Hd).
  split; [eauto|].
  destruct (comm d !! name) as [cmd|] eqn:Hc.
  - rewrite bool_decide_eq_true_2 by eauto. split; [discriminate|].
    intros Heq. exfalso.
    apply (afterDispatch_trace_longer st (loggers d) (stringArgsFunc cmd) ctx name args).
    by rewrite Heq.
  - rewrite bool_decide_eq_false_2 by (by intros [? ?]). done.
Qed.

(** X9. [DispatchCombinedCommandAndArgs] on an allocated dispatcher
    always returns, never failing on the bounds of its list: the command
    name it returns is the first element (the default name for the empty
    list) and the error is what [Dispatch] of that name with the
    remaining elements returns.  For the empty list the context passed
    in is not used: the default command runs with the background
    context. *)
Theorem DispatchCombinedCommandAndArgs_is_Dispatch
        (st : State) (disp : ptr) (d : StringArgsDispatcher) (ctx : context)
        (commandAndArgs : list string) :
  deref st disp = Some d ->
  exists err st',
    StringArgsDispatcher.DispatchCombinedCommandAndArgs disp ctx commandAndArgs st
    = (Returned (hd Default commandAndArgs, err), st')
    /\ StringArgsDispatcher.Dispatch
         disp (match commandAndArgs with [] => Background | _ => ctx end)
         (hd Default commandAndArgs) (tl commandAndArgs) st
       = (Returned err, st').
Proof.
  intros Hd.
  assert (Hret : forall c name args,
             exists err st', StringArgsDispatcher.Dispatch disp c name args st
                             = (Returned err, st')).
  { intros c name args. rewrite (Dispatch_run _ _ _ _ _ _ Hd).
    destruct (comm d !! name); [unfold afterDispatch|]; eauto. }
  destruct commandAndArgs as [|c rest]; cbn [hd tl].
  - destruct (Hret Background Default []) as (err & st' & Hrun).
    exists err, st'. split; [|done].
    unfold StringArgsDispatcher.DispatchCombinedCommandAndArgs,
      StringArgsDispatcher.DispatchDefaultCommand. cbn [length Nat.eqb].
    unfold bind. by rewrite Hrun.
  - destruct (Hret ctx c rest) as (err & st' & Hrun).
    exists err, st'. split; [|done].
    change (StringArgsDispatcher.DispatchCombinedCommandAndArgs disp ctx (c :: rest) st)
      with ((let* err := StringArgsDispatcher.Dispatch disp ctx c rest in
             ret (c, err)) st).
    unfold bind. by rewrite Hrun.
Qed.

End DefaultAndLookup.

(** ** What the calls do to the registered commands *)

Section ReadsOnly.
Context {env : Env}.

Lemma readsOnly_ret {A} (a : A) : readsOnly (ret a).
Proof. by intros st. Qed.

Lemma readsOnly_panic {A} (v : error) : readsOnly (@panic State A v).
Proof. by intros st. Qed.

Lemma readsOnly_bind {A B} (m : M State A) (k : A -> M State B) :
  readsOnly m -> (forall a, readsOnly (k a)) -> readsOnly (bind m k).
Proof.
  intros Hm Hk st. unfold bind. specialize (Hm st).
  destruct (m st) as [[a|v] st']; cbn [snd] in *; [|done]. by rewrite Hk.
Qed.

Lemma readsOnly_load (p : ptr) : readsOnly (load p).
Proof. intros st. unfold load. by destruct (deref st p). Qed.

Lemma readsOnly_callLogger (l : StringArgsCommandLogger) (c : string) (a : list string) :
  readsOnly (callLogger l c a).
Proof. by intros st. Qed.

Lemma readsOnly_callFunc (f : StringArgsFunc) (ctx : context) (a : list string) :
  readsOnly (callFunc f ctx a).
Proof. intros st. unfold callFunc. by destruct (f ctx a (world st)). Qed.

Lemma readsOnly_forRange {A} (xs : list A) (body : A -> M State unit) :
  (forall x, readsOnly (body x)) -> readsOnly (forRange xs body).
Proof.
  intros Hb. induction xs as [|x xs IH]; cbn [forRange].
  - apply readsOnly_ret.
  - apply readsOnly_bind; [apply Hb|intros _; apply IH].
Qed.

Lemma readsOnly_index (xs : list string) (i : nat) : readsOnly (index xs i).
Proof. unfold index. destruct (xs !! i); [apply readsOnly_ret|apply readsOnly_panic]. Qed.

Lemma readsOnly_sliceFrom (xs : list string) (n : nat) : readsOnly (sliceFrom xs n).
Proof.
  unfold sliceFrom. destruct (n <=? length xs)%nat;
    [apply readsOnly_ret|apply readsOnly_panic].
Qed.

End ReadsOnly.

Create HintDb readsOnly.

#[local] Hint Resolve readsOnly_ret readsOnly_panic readsOnly_load readsOnly_callLogger
  readsOnly_callFunc readsOnly_index readsOnly_sliceFrom : readsOnly.

Ltac readsOnly_step :=
  match goal with
  | |- readsOnly (bind _ _) => apply readsOnly_bind; [|intros ?]
  | |- readsOnly (forRange _ _) => apply readsOnly_forRange; intros ?
  | |- readsOnly (match ?x with _ => _ end) => destruct x eqn:?
  | |- readsOnly (if ?x then _ else _) => destruct x eqn:?
  | |- readsOnly (let '(_, _) := ?x in _) => destruct x
  | |- readsOnly _ => solve [eauto with readsOnly]
  end.

Section LookupsReadOnly.
Context {env : Env}.

Lemma Dispatch_readsOnly disp ctx name args :
  readsOnly (StringArgsDispatcher.Dispatch disp ctx name args).
Proof. unfold StringArgsDispatcher.Dispatch. repeat readsOnly_step. Qed.

Lemma HasCommnd_readsOnly disp name :
  readsOnly (StringArgsDispatcher.HasCommnd disp name).
Proof. unfold StringArgsDispatcher.HasCommnd. repeat readsOnly_step. Qed.

Lemma HasDefaultCommnd_readsOnly disp :
  readsOnly (StringArgsDispatcher.HasDefaultCommnd disp).
Proof. unfold StringArgsDispatcher.HasDefaultCommnd. repeat readsOnly_step. Qed.

Lemma DispatchCombinedCommandAndArgs_readsOnly disp ctx l :
  readsOnly (StringArgsDispatcher.DispatchCombinedCommandAndArgs disp ctx l).
Proof.
  unfold StringArgsDispatcher.DispatchCombinedCommandAndArgs,
    StringArgsDispatcher.DispatchDefaultCommand.
  repeat readsOnly_step; apply Dispatch_readsOnly.
Qed.

Lemma SuperDispatch_readsOnly disp ctx superCommand name args :
  readsOnly (SuperStringArgsDispatcher.Dispatch disp ctx superCommand name args).
Proof.
  unfold SuperStringArgsDispatcher.Dispatch.
  repeat readsOnly_step; apply Dispatch_readsOnly.
Qed.

Lemma SuperDispatchCombinedCommandAndArgs_readsOnly disp ctx l :
  readsOnly (SuperStringArgsDispatcher.DispatchCombinedCommandAndArgs disp ctx l).
Proof.
  unfold SuperStringArgsDispatcher.DispatchCombinedCommandAndArgs.
  repeat readsOnly_step;
    first [apply SuperDispatch_readsOnly | apply HasDefaultCommnd_readsOnly].
Qed.

End LookupsReadOnly.

#[local] Hint Resolve Dispatch_readsOnly HasCommnd_readsOnly HasDefaultCommnd_readsOnly
  DispatchCombinedCommandAndArgs_readsOnly SuperDispatch_readsOnly
  SuperDispatchCombinedCommandAndArgs_readsOnly : readsOnly.

Section LookupCalls.
Context {env : Env}.

Lemma lookup_calls_heap (c : Call) (st : State) :
  isLookup c = true -> heap (exec c st) = heap st.
Proof.
  intros Hc. destruct c; try discriminate Hc; cbn [exec];
    try match goal with |- context [if ?must then _ else _] => destruct must end;
    match goal with |- heap (?m st).2 = heap st => revert st; change (readsOnly m) end;
    try solve [eauto with readsOnly];
    unfold StringArgsDispatcher.MustDispatch,
      StringArgsDispatcher.MustDispatchDefaultCommand,
      StringArgsDispatcher.DispatchDefaultCommand,
      StringArgsDispatcher.MustDispatchCombinedCommandAndArgs,
      SuperStringArgsDispatcher.MustDispatch,
      SuperStringArgsDispatcher.MustDispatchDefaultCommand,
      SuperStringArgsDispatcher.DispatchDefaultCommand,
      SuperStringArgsDispatcher.HasCommnd, SuperStringArgsDispatcher.HasSubCommnd,
      SuperStringArgsDispatcher.MustDispatchCombinedCommandAndArgs;
    repeat readsOnly_step.
Qed.

(** X10. Looking up and dispatching never register or remove anything:
    after any sequence of calls of [HasCommnd], [HasDefaultCommnd],
    [Dispatch], [DispatchDefaultCommand],
    [DispatchCombinedCommandAndArgs], their Must variants and their
    counterparts of the super dispatcher, every dispatcher is exactly as
    before, whether the calls returned or panicked. *)
Theorem lookup_calls_leave_dispatchers (cs : list Call) (st : State) :
  forallb isLookup cs = true -> heap (execAll cs st) = heap st.
Proof.
  unfold execAll. revert st. induction cs as [|c cs IH]; intros st Hcs; [done|].
  cbn [forallb] in Hcs. apply andb_true_iff in Hcs as [Hc Hcs].
  cbn [foldl]. rewrite (IH _ Hcs). by apply lookup_calls_heap.
Qed.

End LookupCalls.

Section RegistryGrows.
Context {env : Env}.

Lemma grownFrom_refl (d : StringArgsDispatcher) : grownFrom d d.
Proof. by split. Qed.

Lemma grownFrom_trans (d1 d2 d3 : StringArgsDispatcher) :
  grownFrom d1 d2 -> grownFrom d2 d3 -> grownFrom d1 d3.
Proof. intros [Hl1 Hk1] [Hl2 Hk2]. split; [congruence|auto]. Qed.

Lemma grownFrom_insert (d : StringArgsDispatcher) (k : string) (c : stringArgsCommand) :
  grownFrom d {| comm := <[k := c]> (comm d); loggers := loggers d |}.
Proof.
  split; [done|]. intros k' Hk'. cbn [comm].
  destruct (decide (k = k')) as [->|Hne].
  - rewrite lookup_insert_eq. eauto.
  - by rewrite lookup_insert_ne.
Qed.

Lemma extends_refl (st : State) : extends st st.
Proof. intros i d Hd. exists d. split; [done|apply grownFrom_refl]. Qed.

Lemma extends_heap_eq (st st' : State) : heap st' = heap st -> extends st st'.
Proof. intros Heq i d Hd. exists d. rewrite Heq. split; [done|apply grownFrom_refl]. Qed.

Lemma extends_trans (st1 st2 st3 : State) :
  extends st1 st2 -> extends st2 st3 -> extends st1 st3.
Proof.
  intros H12 H23 i d Hd. destruct (H12 i d Hd) as (d2 & Hd2 & Hg2).
  destruct (H23 i d2 Hd2) as (d3 & Hd3 & Hg3).
  exists d3. split; [done|by eapply grownFrom_trans].
Qed.

Lemma extends_insert (st : State) (i : nat) (d d' : StringArgsDispatcher) :
  heap st !! i = Some d -> grownFrom d d' ->
  extends st {| trace := trace st; world := world st; heap := <[i := d']> (heap st) |}.
Proof.
  intros Hd Hg j dj Hj. cbn [heap]. destruct (decide (j = i)) as [->|Hne].
  - assert (dj = d) as -> by congruence. exists d'. split; [|done].
    apply list_lookup_insert_eq. by eapply lookup_lt_Some.
  - exists dj. rewrite list_lookup_insert_ne by done. split; [done|apply grownFrom_refl].
Qed.

Lemma readsOnly_monotone {A} (m : M State A) : readsOnly m -> monotone m.
Proof. intros Hm st. apply extends_heap_eq, Hm. Qed.

Lemma monotone_bind {A B} (m : M State A) (k : A -> M State B) :
  monotone m -> (forall a, monotone (k a)) -> monotone (bind m k).
Proof.
  intros Hm Hk st. unfold bind. specialize (Hm st).
  destruct (m st) as [[a|v] st']; cbn [snd] in *; [|done].
  eapply extends_trans; [exact Hm|apply Hk].
Qed.

Lemma monotone_ret {A} (a : A) : monotone (ret a).
Proof. intros st. apply extends_refl. Qed.

Lemma monotone_panic {A} (v : error) : monotone (@panic State A v).
Proof. intros st. apply extends_refl. Qed.

Lemma NewStringArgsDispatcher_monotone (ls : list StringArgsCommandLogger) :
  monotone (StringArgsDispatcher.NewStringArgsDispatcher ls).
Proof.
  intros st i d Hd. exists d. split; [|apply grownFrom_refl].
  cbn [StringArgsDispatcher.NewStringArgsDispatcher alloc snd heap].
  by apply lookup_app_l_Some.
Qed.

Lemma AddCommand_monotone disp name descr f a rh :
  monotone (StringArgsDispatcher.AddCommand disp name descr f a rh).
Proof.
  intros st. destruct (deref st disp) as [d|] eqn:Hd.
  - destruct disp as [i|]; [|done]. rewrite (AddCommand_run _ _ _ _ _ _ _ _ Hd).
    destruct (comm d !! name); [apply extends_refl|].
    destruct (checkCommandChars inGraphicRanges name); [apply extends_refl|].
    destruct (GetStringArgsFunc f a rh); [|apply extends_refl].
    apply (extends_insert _ _ d); [done|apply grownFrom_insert].
  - unfold StringArgsDispatcher.AddCommand, bind. rewrite (load_nil _ _ Hd).
    apply extends_refl.
Qed.

Lemma AddDefaultCommand_monotone disp descr f a rh :
  monotone (StringArgsDispatcher.AddDefaultCommand disp descr f a rh).
Proof.
  intros st. destruct (GetStringArgsFunc f a rh) as [bound|e] eqn:Hb.
  - destruct (deref st disp) as [d|] eqn:Hd.
    + destruct disp as [i|]; [|done].
      rewrite (AddDefaultCommand_stores _ _ _ _ _ _ _ _ Hd Hb).
      apply (extends_insert _ _ d); [done|apply grownFrom_insert].
    + unfold StringArgsDispatcher.AddDefaultCommand. rewrite Hb.
      unfold bind. rewrite (load_nil _ _ Hd). apply extends_refl.
  - unfold StringArgsDispatcher.AddDefaultCommand. rewrite Hb. apply extends_refl.
Qed.

Lemma AddSuperCommand_monotone disp superCommand :
  monotone (SuperStringArgsDispatcher.AddSuperCommand disp superCommand).
Proof.
  unfold SuperStringArgsDispatcher.AddSuperCommand.
  destruct (if negb _ then _ else _); [apply monotone_ret|].
  destruct (_ !! superCommand); [apply monotone_ret|].
  apply monotone_bind; [apply NewStringArgsDispatcher_monotone|intros; apply monotone_ret].
Qed.

Lemma SuperAddDefaultCommand_monotone disp descr f a rh :
  monotone (SuperStringArgsDispatcher.AddDefaultCommand disp descr f a rh).
Proof.
  unfold SuperStringArgsDispatcher.AddDefaultCommand.
  apply monotone_bind; [apply AddSuperCommand_monotone|intros r].
  destruct (r.2.2); [apply monotone_ret|].
  apply monotone_bind; [apply AddDefaultCommand_monotone|intros; apply monotone_ret].
Qed.

Lemma exec_extends (c : Call) (st : State) : extends st (exec c st).
Proof.
  destruct (isLookup c) eqn:Hc.
  { by apply extends_heap_eq, lookup_calls_heap. }
  destruct c; try discriminate Hc; cbn [exec];
    try match goal with |- context [if ?must then _ else _] => destruct must end;
    match goal with |- extends st (?m st).2 => revert st; change (monotone m) end;
    first [ apply NewStringArgsDispatcher_monotone
          | apply AddCommand_monotone
          | apply AddDefaultCommand_monotone
          | apply AddSuperCommand_monotone
          | apply SuperAddDefaultCommand_monotone
          | idtac ];
    unfold StringArgsDispatcher.MustAddCommand,
      StringArgsDispatcher.MustAddDefaultCommand,
      SuperStringArgsDispatcher.MustAddSuperCommand,
      SuperStringArgsDispatcher.MustAddDefaultCommand;
    (apply monotone_bind;
     [ first [ apply AddCommand_monotone | apply AddDefaultCommand_monotone
             | apply AddSuperCommand_monotone | apply SuperAddDefaultCommand_monotone ]
     | intros r; match goal with |- monotone (match ?x with _ => _ end) => destruct x end;
       first [apply monotone_ret | apply monotone_panic] ]).
Qed.

(** X11. No sequence of calls unregisters a command, frees a dispatcher
    or changes its loggers: a name registered in a dispatcher is still
    registered in it, with the same loggers around, after any calls. *)
Theorem registered_stays_registered
        (cs : list Call) (st : State) (i : nat) (d : StringArgsDispatcher) (name : string) :
  heap st !! i = Some d ->
  is_Some (comm d !! name) ->
  exists d', heap (execAll cs st) !! i = Some d'
             /\ loggers d' = loggers d
             /\ is_Some (comm d' !! name).
Proof.
  intros Hd Hname.
  assert (Hext : extends st (execAll cs st)).
  { unfold execAll. clear Hd. revert st. induction cs as [|c cs IH]; intros st; cbn [foldl].
    - apply extends_refl.
    - eapply extends_trans; [apply exec_extends|apply IH]. }
  destruct (Hext i d Hd) as (d' & Hd' & Hl & Hk). eauto.
Qed.

End RegistryGrows.

(** ** The entries of reachable dispatchers *)

Section Keeps.
Context {env : Env}.
Variable P : StringArgsDispatcher -> Prop.

Lemma keeps_ret {A} (a : A) : keeps P (ret a).
Proof. intros st H. exact H. Qed.

Lemma keeps_panic {A} (v : error) : keeps P (@panic State A v).
Proof. intros st H. exact H. Qed.

Lemma keeps_bind {A B} (m : M State A) (k : A -> M State B) :
  keeps P m -> (forall a, keeps P (k a)) -> keeps P (bind m k).
Proof.
  intros Hm Hk st H. unfold bind. specialize (Hm st H).
  destruct (m st) as [[a|v] st']; cbn [snd] in *; [by apply Hk|done].
Qed.

Lemma keeps_load_bind {B} (p : ptr) (k : StringArgsDispatcher -> M State B) :
  (forall d, P d -> keeps P (k d)) -> keeps P (bind (load p) k).
Proof.
  intros Hk st H. unfold bind, load.
  destruct (deref st p) as [d|] eqn:Hd; [|done].
  apply Hk; [|done]. destruct p as [i|]; [|done]. by apply (H i).
Qed.

Lemma keeps_store (p : ptr) (d : StringArgsDispatcher) : P d -> keeps P (store p d).
Proof.
  intros Hd st H. unfold store. destruct p as [i|]; [|done].
  destruct (i <? length (heap st))%nat; [|done].
  intros j d' Hj. cbn [snd heap] in Hj.
  destruct (decide (i = j)) as [->|Hne].
  - apply list_lookup_insert_Some in Hj as [(_ & -> & _)|(? & _)]; [done|congruence].
  - rewrite list_lookup_insert_ne in Hj by done. by apply (H j).
Qed.

Lemma keeps_alloc (d : StringArgsDispatcher) : P d -> keeps P (alloc d).
Proof.
  intros Hd st H j d' Hj. cbn [alloc snd heap] in Hj.
  apply lookup_app_Some in Hj as [Hj|[_ Hj]]; [by apply (H j)|].
  apply list_lookup_singleton_Some in Hj as [_ <-]. done.
Qed.

Lemma keeps_readsOnly {A} (m : M State A) : readsOnly m -> keeps P m.
Proof. intros Hm st H i d. rewrite Hm. apply H. Qed.

End Keeps.

Section WellFormed.
Context {env : Env}.

Lemma wellFormed_empty (ls : list StringArgsCommandLogger) :
  wellFormed {| comm := ∅; loggers := ls |}.
Proof. intros k cmd Hc. cbn in Hc. by rewrite lookup_empty in Hc. Qed.

Lemma wellFormed_insert (d : StringArgsDispatcher) (k descr : string)
      (f : CommandFunc) (a : Args) (bound : StringArgsFunc) (rh : list ResultsHandler) :
  wellFormed d -> validName k -> GetStringArgsFunc f a rh = inl bound ->
  wellFormed {| comm := <[k := newEntry k descr f a bound rh]> (comm d);
                loggers := loggers d |}.
Proof.
  intros Hd Hk Hb k' cmd Hc. cbn [comm] in Hc.
  destruct (decide (k = k')) as [<-|Hne].
  - rewrite lookup_insert_eq in Hc. injection Hc as <-. by repeat split.
  - rewrite lookup_insert_ne in Hc by done. by apply Hd.
Qed.

Lemma NewStringArgsDispatcher_wellFormed ls :
  keeps wellFormed (StringArgsDispatcher.NewStringArgsDispatcher ls).
Proof. apply keeps_alloc, wellFormed_empty. Qed.

Lemma AddCommand_wellFormed disp name descr f a rh :
  keeps wellFormed (StringArgsDispatcher.AddCommand disp name descr f a rh).
Proof.
  unfold StringArgsDispatcher.AddCommand. apply keeps_load_bind. intros d Hd.
  destruct (comm d !! name); [apply keeps_ret|].
  destruct (checkCommandChars inGraphicRanges name) eqn:Hv; [apply keeps_ret|].
  destruct (GetStringArgsFunc f a rh) as [bound|e] eqn:Hb; [|apply keeps_ret].
  apply keeps_bind; [|intros; apply keeps_ret].
  apply keeps_store, (wellFormed_insert d name descr f a bound rh); [done|by right|done].
Qed.

Lemma AddDefaultCommand_wellFormed disp descr f a rh :
  keeps wellFormed (StringArgsDispatcher.AddDefaultCommand disp descr f a rh).
Proof.
  unfold StringArgsDispatcher.AddDefaultCommand.
  destruct (GetStringArgsFunc f a rh) as [bound|e] eqn:Hb; [|apply keeps_ret].
  apply keeps_load_bind. intros d Hd.
  apply keeps_bind; [|intros; apply keeps_ret].
  apply keeps_store, (wellFormed_insert d Default descr f a bound rh); [done|by left|done].
Qed.

Lemma AddSuperCommand_wellFormed disp superCommand :
  keeps wellFormed (SuperStringArgsDispatcher.AddSuperCommand disp superCommand).
Proof.
  unfold SuperStringArgsDispatcher.AddSuperCommand.
  destruct (if negb _ then _ else _); [apply keeps_ret|].
  destruct (_ !! superCommand); [apply keeps_ret|].
  apply keeps_bind; [apply NewStringArgsDispatcher_wellFormed|intros; apply keeps_ret].
Qed.

Lemma SuperAddDefaultCommand_wellFormed disp descr f a rh :
  keeps wellFormed (SuperStringArgsDispatcher.AddDefaultCommand disp descr f a rh).
Proof.
  unfold SuperStringArgsDispatcher.AddDefaultCommand.
  apply keeps_bind; [apply AddSuperCommand_wellFormed|intros r].
  destruct (r.2.2); [apply keeps_ret|].
  apply keeps_bind; [apply AddDefaultCommand_wellFormed|intros; apply keeps_ret].
Qed.

Lemma exec_wellFormed (c : Call) (st : State) :
  (forall i d, heap st !! i = Some d -> wellFormed d) ->
  forall i d, heap (exec c st) !! i = Some d -> wellFormed d.
Proof.
  intros H i d. destruct (isLookup c) eqn:Hc.
  { rewrite (lookup_calls_heap c st Hc). apply H. }
  revert H i d.
  destruct c; try discriminate Hc; cbn [exec];
    try match goal with |- context [if ?must then _ else _] => destruct must end;
    match goal with
    | |- _ -> forall i d, heap (?m st).2 !! i = Some d -> _ =>
      revert st; change (keeps wellFormed m)
    end;
    first [ apply NewStringArgsDispatcher_wellFormed
          | apply AddCommand_wellFormed
          | apply AddDefaultCommand_wellFormed
          | apply AddSuperCommand_wellFormed
          | apply SuperAddDefaultCommand_wellFormed
          | idtac ];
    unfold StringArgsDispatcher.MustAddCommand,
      StringArgsDispatcher.MustAddDefaultCommand,
      SuperStringArgsDispatcher.MustAddSuperCommand,
      SuperStringArgsDispatcher.MustAddDefaultCommand;
    (apply keeps_bind;
     [ first [ apply AddCommand_wellFormed | apply AddDefaultCommand_wellFormed
             | apply AddSuperCommand_wellFormed | apply SuperAddDefaultCommand_wellFormed ]
     | intros r; match goal with |- keeps _ (match ?x with _ => _ end) => destruct x end;
       first [apply keeps_ret | apply keeps_panic] ]).
Qed.

Lemma reachable_wellFormed (st : State) :
  reachable st -> forall i d, heap st !! i = Some d -> wellFormed d.
Proof.
  induction 1 as [w|c st _ IH].
  - intros i d Hi. cbn in Hi. by rewrite lookup_nil in Hi.
  - by apply exec_wellFormed.
Qed.

(** X12. In every state reached through the methods of the package,
    every entry of every dispatcher is stored under its own command name,
    that name is the default name or one [checkCommandChars] accepts, and
    the function of the entry is the one [GetStringArgsFunc] binds to the
    command function, arguments and results handlers kept in the entry. *)
Theorem reachable_entries_wellFormed
        (st : State) (i : nat) (d : StringArgsDispatcher) (k : string)
        (cmd : stringArgsCommand) :
  reachable st ->
  heap st !! i = Some d ->
  comm d !! k = Some cmd ->
  command cmd = k
  /\ (k = Default \/ checkCommandChars inGraphicRanges k = None)
  /\ GetStringArgsFunc (commandFunc cmd) (args cmd) (resultsHandlers cmd)
     = inl (stringArgsFunc cmd).
Proof.
  intros Hr Hi Hk. exact (reachable_wellFormed st Hr i d Hi k cmd Hk).
Qed.

End WellFormed.

(** ** Super commands *)

Section SuperCommands.
Context {env : Env}.

Lemma deref_allocated (st : State) (d : StringArgsDispatcher) :
  deref (allocated st d) (Some (length (heap st))) = Some d.
Proof. unfold allocated. cbn [deref heap]. by rewrite lookup_app_r, Nat.sub_diag. Qed.

Lemma allocated_insert (st : State) (d d' : StringArgsDispatcher) :
  {| trace := trace (allocated st d); world := world (allocated st d);
     heap := <[length (heap st) := d']> (heap (allocated st d)) |}
  = allocated st d'.
Proof.
  unfold allocated. cbn [trace world heap].
  by rewrite insert_app_r_alt, Nat.sub_diag by lia.
Qed.

Lemma deref_fresh (st : State) : deref st (Some (length (heap st))) = None.
Proof. cbn [deref]. by apply lookup_ge_None. Qed.

(** What [AddSuperCommand] does for a name that is free and is the
    default name or a name [checkCommandChars] accepts. *)
Lemma AddSuperCommand_run (st : State) (disp : SuperStringArgsDispatcher.t) (s : string) :
  SuperStringArgsDispatcher.sub disp !! s = None ->
  s = Default \/ checkCommandChars inGraphicRanges s = None ->
  SuperStringArgsDispatcher.AddSuperCommand disp s st
  = (Returned ({| SuperStringArgsDispatcher.sub :=
                    <[s := Some (length (heap st))]> (SuperStringArgsDispatcher.sub disp);
                  SuperStringArgsDispatcher.loggers :=
                    SuperStringArgsDispatcher.loggers disp |},
               (Some (length (heap st)), None)),
     allocated st {| comm := ∅; loggers := SuperStringArgsDispatcher.loggers disp |}).
Proof.
  intros Hfree Hname. unfold SuperStringArgsDispatcher.AddSuperCommand.
  assert ((if negb (String.eqb s "") then checkCommandChars inGraphicRanges s else None)
          = None) as ->.
  { destruct Hname as [->|Hv]; [reflexivity|]. by destruct (negb _). }
  rewrite Hfree. reflexivity.
Qed.

(** X13. [AddSuperCommand] with a free name that is empty or accepted by
    [checkCommandChars] returns a pointer that was not allocated before,
    to a dispatcher with no command and the loggers of the super
    dispatcher; the dispatchers allocated before are untouched, and
    dispatching any command of the new super command returns
    [ErrNotFound], no longer [SuperCommandNotFound]. *)
Theorem AddSuperCommand_registers
        (st : State) (disp : SuperStringArgsDispatcher.t) (s : string) :
  SuperStringArgsDispatcher.sub disp !! s = None ->
  s = Default \/ checkCommandChars inGraphicRanges s = None ->
  exists p disp' st',
    SuperStringArgsDispatcher.AddSuperCommand disp s st = (Returned (disp', (p, None)), st')
    /\ deref st p = None
    /\ deref st' p = Some {| comm := ∅; loggers := SuperStringArgsDispatcher.loggers disp |}
    /\ SuperStringArgsDispatcher.sub disp' = <[s := p]> (SuperStringArgsDispatcher.sub disp)
    /\ SuperStringArgsDispatcher.loggers disp' = SuperStringArgsDispatcher.loggers disp
    /\ (forall j d, heap st !! j = Some d -> heap st' !! j = Some d)
    /\ trace st' = trace st
    /\ forall ctx name args,
        SuperStringArgsDispatcher.Dispatch disp' ctx s name args st'
        = (Returned (Some ErrNotFound), st').
Proof.
  intros Hfree Hname. do 3 eexists.
  split; [by apply AddSuperCommand_run|].
  split; [apply deref_fresh|]. split; [apply deref_allocated|].
  split; [reflexivity|]. split; [reflexivity|].
  split; [intros j d Hj; by apply lookup_app_l_Some|]. split; [reflexivity|].
  intros ctx name args. unfold SuperStringArgsDispatcher.Dispatch.
  cbn [SuperStringArgsDispatcher.sub]. rewrite lookup_insert_eq.
  by rewrite (Dispatch_run _ _ _ _ _ _ (deref_allocated st _)).
Qed.

(** X14. [AddSuperCommand] always returns, and when it returns an error
    the pointer is nil and neither the super dispatcher nor the state has
    changed; the error comes from a name refused by [checkCommandChars]
    or from a name that is already registered. *)
Theorem AddSuperCommand_error_leaves_state
        (st st' : State) (disp disp' : SuperStringArgsDispatcher.t) (s : string)
        (p : ptr) (e : error) :
  SuperStringArgsDispatcher.AddSuperCommand disp s st = (Returned (disp', (p, Some e)), st') ->
  disp' = disp /\ p = nil /\ st' = st
  /\ ((s <> Default /\ is_Some (checkCommandChars inGraphicRanges s))
      \/ is_Some (SuperStringArgsDispatcher.sub disp !! s)).
Proof.
  unfold SuperStringArgsDispatcher.AddSuperCommand.
  destruct (String.eqb_spec s "") as [->|Hne]; cbn [negb].
  - destruct (SuperStringArgsDispatcher.sub disp !! "") eqn:Hs.
    + intros [= <- <- _ <-]. repeat split; eauto.
    + discriminate.
  - destruct (checkCommandChars inGraphicRanges s) eqn:Hv.
    + intros [= <- <- _ <-]. repeat split; eauto.
    + destruct (SuperStringArgsDispatcher.sub disp !! s) eqn:Hs.
      * intros [= <- <- _ <-]. repeat split; eauto.
      * discriminate.
Qed.

(** X15. Once the default super command exists, with or without a
    default command in it, [AddDefaultCommand] of the super dispatcher
    refuses: it returns [super command already added: ''] and changes
    nothing. *)
Theorem Super_AddDefaultCommand_refuses_existing
        (st : State) (disp : SuperStringArgsDispatcher.t) (descr : string)
        (f : CommandFunc) (a : Args) (rh : list ResultsHandler) :
  is_Some (SuperStringArgsDispatcher.sub disp !! Default) ->
  SuperStringArgsDispatcher.AddDefaultCommand disp descr f a rh st
  = (Returned (disp, Some (errorString "super command already added: ''")), st).
Proof.
  intros [p Hp]. unfold SuperStringArgsDispatcher.AddDefaultCommand, bind.
  unfold SuperStringArgsDispatcher.AddSuperCommand, Default in *.
  cbn [String.eqb negb]. rewrite Hp. reflexivity.
Qed.

(** X16. When the function does not bind, [AddDefaultCommand] of the
    super dispatcher returns the binding error, but the default super
    command has been registered all the same, with an empty dispatcher
    allocated for it: a second attempt, with any function, is refused as
    [super command already added: '']. *)
Theorem Super_AddDefaultCommand_binding_error_registers
        (st : State) (disp : SuperStringArgsDispatcher.t) (descr : string)
        (f : CommandFunc) (a : Args) (rh : list ResultsHandler) (e : error) :
  SuperStringArgsDispatcher.sub disp !! Default = None ->
  GetStringArgsFunc f a rh = inr e ->
  let disp' := {| SuperStringArgsDispatcher.sub :=
                    <[Default := Some (length (heap st))]> (SuperStringArgsDispatcher.sub disp);
                  SuperStringArgsDispatcher.loggers :=
                    SuperStringArgsDispatcher.loggers disp |} in
  let st' := allocated st {| comm := ∅; loggers := SuperStringArgsDispatcher.loggers disp |} in
  SuperStringArgsDispatcher.AddDefaultCommand disp descr f a rh st
  = (Returned (disp', Some (wrapError ("Default command: " +:+ Error e) e)), st')
  /\ forall descr2 f2 a2 rh2,
      SuperStringArgsDispatcher.AddDefaultCommand disp' descr2 f2 a2 rh2 st'
      = (Returned (disp', Some (errorString "super command already added: ''")), st').
Proof.
  intros Hfree Hb disp' st'. split.
  - unfold SuperStringArgsDispatcher.AddDefaultCommand, bind.
    rewrite (AddSuperCommand_run _ _ _ Hfree (or_introl eq_refl)). cbn [fst snd].
    unfold StringArgsDispatcher.AddDefaultCommand. rewrite Hb. reflexivity.
  - intros descr2 f2 a2 rh2.
    unfold SuperStringArgsDispatcher.AddDefaultCommand, bind.
    unfold SuperStringArgsDispatcher.AddSuperCommand, Default.
    cbn [String.eqb negb]. subst disp'. cbn [SuperStringArgsDispatcher.sub].
    unfold Default. rewrite lookup_insert_eq. reflexivity.
Qed.

(** X17. The default command registered with [AddDefaultCommand] of the
    super dispatcher is the one its [DispatchDefaultCommand] runs: the
    loggers of the super dispatcher are told of the empty command name,
    then the bound function is called with the background context and no
    arguments. *)
Theorem Super_AddDefaultCommand_then_DispatchDefaultCommand
        (st : State) (disp : SuperStringArgsDispatcher.t) (descr : string)
        (f : CommandFunc) (a : Args) (rh : list ResultsHandler) (bound : StringArgsFunc) :
  SuperStringArgsDispatcher.sub disp !! Default = None ->
  GetStringArgsFunc f a rh = inl bound ->
  (let* r := SuperStringArgsDispatcher.AddDefaultCommand disp descr f a rh in
   SuperStringArgsDispatcher.DispatchDefaultCommand r.1) st
  = afterDispatch
      (allocated st {| comm := {[Default := newEntry Default descr f a bound rh]};
                       loggers := SuperStringArgsDispatcher.loggers disp |})
      (SuperStringArgsDispatcher.loggers disp) bound Background Default [].
Proof.
  intros Hfree Hb. unfold bind at 1.
  unfold SuperStringArgsDispatcher.AddDefaultCommand, bind.
  rewrite (AddSuperCommand_run _ _ _ Hfree (or_introl eq_refl)). cbn [fst snd].
  rewrite (AddDefaultCommand_stores _ _ _ _ _ _ _ _ (deref_allocated st _) Hb).
  cbn [fst snd ret comm loggers].
  unfold SuperStringArgsDispatcher.DispatchDefaultCommand,
    SuperStringArgsDispatcher.Dispatch.
  cbn [SuperStringArgsDispatcher.sub]. rewrite lookup_insert_eq.
  rewrite allocated_insert.
  erewrite Dispatch_run by apply deref_allocated.
  cbn [comm loggers]. by rewrite lookup_insert_eq.
Qed.

(** X18. A command registered in the dispatcher that [AddSuperCommand]
    returned is the one [Dispatch] of the super dispatcher runs under
    (super command, command): the loggers told are those of the super
    dispatcher, they are told of the command name (not of the super
    command), and then the bound function is called. *)
Theorem AddSuperCommand_AddCommand_then_Dispatch
        (st : State) (disp : SuperStringArgsDispatcher.t) (s name descr : string)
        (f : CommandFunc) (a : Args) (rh : list ResultsHandler) (bound : StringArgsFunc)
        (ctx : context) (args : list string) :
  SuperStringArgsDispatcher.sub disp !! s = None ->
  s = Default \/ checkCommandChars inGraphicRanges s = None ->
  checkCommandChars inGraphicRanges name = None ->
  GetStringArgsFunc f a rh = inl bound ->
  (let* r := SuperStringArgsDispatcher.AddSuperCommand disp s in
   let* _ := StringArgsDispatcher.AddCommand r.2.1 name descr f a rh in
   SuperStringArgsDispatcher.Dispatch r.1 ctx s name args) st
  = afterDispatch
      (allocated st {| comm := {[name := newEntry name descr f a bound rh]};
                       loggers := SuperStringArgsDispatcher.loggers disp |})
      (SuperStringArgsDispatcher.loggers disp) bound ctx name args.
Proof.
  intros Hfree Hs Hname Hb. unfold bind at 1.
  rewrite (AddSuperCommand_run _ _ _ Hfree Hs). cbn [fst snd]. unfold bind at 1.
  rewrite (AddCommand_run _ _ _ _ _ _ _ _ (deref_allocated st _)).
  cbn [comm loggers]. rewrite lookup_empty, Hname, Hb.
  unfold SuperStringArgsDispatcher.Dispatch.
  cbn [SuperStringArgsDispatcher.sub]. rewrite lookup_insert_eq.
  rewrite allocated_insert.
  erewrite Dispatch_run by apply deref_allocated.
  cbn [comm loggers]. by rewrite lookup_insert_eq.
Qed.

End SuperCommands.

(** ** More on the http handlers *)

Section HttpMore.
Context {henv : HttpEnv}.

Lemma handleErr_events (err : option error) (request : Request)
      (errHandlers : list Handler) (st : gorillamux.State) :
  (gorillamux.handleErr err request errHandlers st).1 = Returned tt
  /\ gorillamux.trace (gorillamux.handleErr err request errHandlers st).2
     = gorillamux.trace st ++ errEvents err errHandlers.
Proof.
  destruct err as [e|]; [|by rewrite app_nil_r].
  destruct (handleErr_trace e request errHandlers st) as [Hret Htr].
  split; [done|]. rewrite Htr. by destruct errHandlers.
Qed.

(** X19. [handleErr] does nothing for the nil error.  For an error and a
    non-empty chain every handler of the chain is called once with that
    error, in the order of the chain, and [httperr.Handle] is not called;
    for an empty chain [httperr.Handle] is called once. *)
Theorem handleErr_calls (request : Request) (st : gorillamux.State) :
  (forall errHandlers, gorillamux.handleErr None request errHandlers st = (Returned tt, st))
  /\ (forall e,
         gorillamux.handleErr (Some e) request [] st
         = (Returned tt,
            {| gorillamux.trace := gorillamux.trace st ++ [gorillamux.HttperrHandleCall e];
               gorillamux.world := httperrHandle e request (gorillamux.world st) |}))
  /\ (forall e h hs,
         gorillamux.handleErr (Some e) request (h :: hs) st
         = (Returned tt,
            {| gorillamux.trace :=
                 gorillamux.trace st
                 ++ map (fun h' => gorillamux.HandleErrorCall h' e) (h :: hs);
               gorillamux.world :=
                 foldl (fun w h' => HandleError h' e request w)
                       (gorillamux.world st) (h :: hs) |})).
Proof.
  repeat apply conj.
  - reflexivity.
  - reflexivity.
  - intros e h hs. unfold gorillamux.handleErr. cbn [length Nat.eqb].
    apply forRange_callHandleError.
Qed.

(** What a handler does once the command function has returned. *)
Lemma results_run (resultsWriter : option ResultsWriter) (args : Args)
      (vars : gmap string string) (r : ResultVals * option error) (request : Request)
      (errHandlers : list Handler) (st : gorillamux.State) :
  exists st',
    (let* err := match resultsWriter with
                 | Some rw => gorillamux.callWriteResults rw args vars r.1 r.2 request
                 | None => ret r.2
                 end in
     let* _ := gorillamux.handleErr err request errHandlers in
     gorillamux.deferredRecover request errHandlers) st = (Returned tt, st')
    /\ gorillamux.trace st'
       = gorillamux.trace st
         ++ resultEvents resultsWriter args vars r.1 r.2 request (gorillamux.world st)
                         errHandlers.
Proof.
  unfold resultEvents. destruct resultsWriter as [rw|].
  - unfold bind at 1. unfold gorillamux.callWriteResults.
    destruct (WriteResults rw args vars r.1 r.2 request (gorillamux.world st)) as [e w].
    cbn [fst]. unfold bind.
    match goal with
    | |- context [gorillamux.handleErr e request errHandlers ?st1] =>
      destruct (handleErr_events e request errHandlers st1) as [Hret Htr];
        destruct (gorillamux.handleErr e request errHandlers st1) as [o st2]
    end.
    cbn [fst snd] in Hret, Htr. subst o. rewrite deferredRecover_skip.
    exists st2. split; [done|]. rewrite Htr. cbn [gorillamux.trace].
    by rewrite <- app_assoc.
  - unfold bind. cbn [ret].
    destruct (handleErr_events r.2 request errHandlers st) as [Hret Htr].
    destruct (gorillamux.handleErr r.2 request errHandlers st) as [o st2].
    cbn [fst snd] in Hret, Htr. subst o. rewrite deferredRecover_skip.
    exists st2. by split.
Qed.

(** X20. The handler built by [CommandHandler] calls the command
    function once, with the context and the path variables of the
    request.  With a results writer the writer is called next with the
    results and the error of the command, and the error handlers get the
    error the writer returns; without one they get the error of the
    command. *)
Theorem CommandHandler_calls
        (f : CommandFunc) (a : Args) (resultsWriter : option ResultsWriter)
        (errHandlers : list Handler) (cmdFunc : gorillamux.StringMapArgsResultValuesFunc)
        (request : Request) (st : gorillamux.State) :
  MustGetStringMapArgsResultValuesFunc f a = Returned cmdFunc ->
  exists handler,
    gorillamux.CommandHandler f a resultsWriter errHandlers = Returned handler
    /\ (handler request st).1 = Returned tt
    /\ let ran := cmdFunc (RequestContext request) (muxVars request) (gorillamux.world st) in
       gorillamux.trace (handler request st).2
       = gorillamux.trace st
         ++ gorillamux.CmdFuncCall (RequestContext request) (muxVars request)
         :: resultEvents resultsWriter a (muxVars request) ran.1.1 ran.1.2 request ran.2
                         errHandlers.
Proof.
  intros Hbind. unfold gorillamux.CommandHandler. rewrite Hbind.
  eexists. split; [reflexivity|]. cbn beta.
  destruct (cmdFunc (RequestContext request) (muxVars request) (gorillamux.world st))
    as [r w] eqn:Hc. cbn [fst snd].
  destruct (results_run resultsWriter a (muxVars request) r request errHandlers
              {| gorillamux.trace :=
                   gorillamux.trace st
                   ++ [gorillamux.CmdFuncCall (RequestContext request) (muxVars request)];
                 gorillamux.world := w |}) as (st' & Hrun & Htr).
  match goal with |- (?h).1 = _ /\ _ => assert (h = (Returned tt, st')) as -> end.
  { unfold bind at 1. unfold gorillamux.callCmdFunc. rewrite Hc. exact Hrun. }
  cbn [fst snd]. split; [done|]. rewrite Htr.
  cbn [gorillamux.trace gorillamux.world]. by rewrite <- app_assoc.
Qed.

(** X21. In the handler that takes an argument from the request body,
    when the body converter succeeds with a name that is not a path
    variable, the command function is called once with the path
    variables extended by (name, value); the results writer and the
    error handlers follow as in the plain handler. *)
Theorem CommandHandlerRequestBodyArg_calls
        (bodyConverter : RequestBodyArgConverter) (f : CommandFunc) (a : Args)
        (resultsWriter : option ResultsWriter) (errHandlers : list Handler)
        (cmdFunc : gorillamux.StringMapArgsResultValuesFunc)
        (request : Request) (st : gorillamux.State) (name value : string) (w : World) :
  MustGetStringMapArgsResultValuesFunc f a = Returned cmdFunc ->
  RequestBodyToArg bodyConverter request (gorillamux.world st) = ((name, value, None), w) ->
  muxVars request !! name = None ->
  exists handler,
    gorillamux.CommandHandlerRequestBodyArg bodyConverter f a resultsWriter errHandlers
    = Returned handler
    /\ (handler request st).1 = Returned tt
    /\ let vars := <[name := value]> (muxVars request) in
       let ran := cmdFunc (RequestContext request) vars w in
       gorillamux.trace (handler request st).2
       = gorillamux.trace st
         ++ gorillamux.RequestBodyToArgCall bodyConverter
         :: gorillamux.CmdFuncCall (RequestContext request) vars
         :: resultEvents resultsWriter a vars ran.1.1 ran.1.2 request ran.2 errHandlers.
Proof.
  intros Hbind Hconv Hfree. unfold gorillamux.CommandHandlerRequestBodyArg. rewrite Hbind.
  eexists. split; [reflexivity|]. cbn beta zeta.
  destruct (cmdFunc (RequestContext request) (<[name := value]> (muxVars request)) w)
    as [r w'] eqn:Hc. cbn [fst snd].
  destruct (results_run resultsWriter a (<[name := value]> (muxVars request)) r request
              errHandlers
              {| gorillamux.trace :=
                   (gorillamux.trace st ++ [gorillamux.RequestBodyToArgCall bodyConverter])
                   ++ [gorillamux.CmdFuncCall (RequestContext request)
                                              (<[name := value]> (muxVars request))];
                 gorillamux.world := w' |}) as (st' & Hrun & Htr).
  match goal with |- (?h).1 = _ /\ _ => assert (h = (Returned tt, st')) as -> end.
  { unfold bind at 1. unfold gorillamux.callRequestBodyToArg. rewrite Hconv, Hfree.
    unfold bind at 1. unfold gorillamux.callCmdFunc.
    cbn [gorillamux.world gorillamux.trace]. rewrite Hc. exact Hrun. }
  cbn [fst snd]. split; [done|]. rewrite Htr.
  cbn [gorillamux.trace gorillamux.world]. by rewrite <- !app_assoc.
Qed.

(** X22. When the body converter returns an error, that error goes to
    the error handlers and nothing else happens: the command function
    and the results writer are not called, whatever name and value came
    with the error. *)
Theorem CommandHandlerRequestBodyArg_converter_fails
        (bodyConverter : RequestBodyArgConverter) (f : CommandFunc) (a : Args)
        (resultsWriter : option ResultsWriter) (errHandlers : list Handler)
        (handler : gorillamux.HandlerFunc) (request : Request)
        (st : gorillamux.State) (name value : string) (e : error) (w : World) :
  gorillamux.CommandHandlerRequestBodyArg bodyConverter f a resultsWriter errHandlers
  = Returned handler ->
  RequestBodyToArg bodyConverter request (gorillamux.world st)
  = ((name, value, Some e), w) ->
  (handler request st).1 = Returned tt
  /\ gorillamux.trace (handler request st).2
     = gorillamux.trace st
       ++ gorillamux.RequestBodyToArgCall bodyConverter :: errEvents (Some e) errHandlers.
Proof.
  unfold gorillamux.CommandHandlerRequestBodyArg.
  destruct (MustGetStringMapArgsResultValuesFunc f a) as [cmdFunc|v]; [|done].
  intros Heq%Returned_inj Hconv. subst handler.
  destruct (handleErr_events (Some e) request errHandlers
              {| gorillamux.trace :=
                   gorillamux.trace st ++ [gorillamux.RequestBodyToArgCall bodyConverter];
                 gorillamux.world := w |}) as [Hret Htr].
  destruct (gorillamux.handleErr (Some e) request errHandlers _) as [o st2] eqn:Hh.
  cbn [fst snd] in Hret, Htr. subst o.
  match goal with |- (?h).1 = _ /\ _ => assert (h = (Returned tt, st2)) as -> end.
  { unfold bind at 1. unfold gorillamux.callRequestBodyToArg. rewrite Hconv.
    unfold bind. rewrite Hh. apply deferredRecover_skip. }
  cbn [fst snd]. split; [done|]. rewrite Htr. cbn [gorillamux.trace].
  by rewrite <- app_assoc.
Qed.

(** X23. The variables [addQueryParams] builds do not depend on the
    order in which the keys of the query are visited, nor on a key being
    visited more than once: two lists with the same keys give the same
    mapping. *)
Theorem addQueryParams_order_independent
        (query : gmap string (list string)) (keys keys' : list string)
        (vars : gmap string string) :
  (forall k, k ∈ keys <-> k ∈ keys') ->
  gorillamux.addQueryParams query keys vars = gorillamux.addQueryParams query keys' vars.
Proof.
  intros Hkeys. apply map_eq. intros k. rewrite !addQueryParams_lookup.
  destruct (decide (k ∈ keys)) as [Hk|Hk].
  - rewrite decide_True by (by apply Hkeys). done.
  - rewrite decide_False by (by rewrite <- Hkeys). done.
Qed.

Lemma addQueryParams_nothing (query : gmap string (list string)) (keys : list string)
      (vars : gmap string string) :
  (forall k values, query !! k = Some values ->
                    gorillamux.firstValueNonEmpty values = false) ->
  gorillamux.addQueryParams query keys vars = vars.
Proof.
  intros Hq. apply map_eq. intros k. rewrite addQueryParams_lookup.
  destruct (decide (k ∈ keys)); [|done].
  destruct (query !! k) as [values|] eqn:Hk; cbn [default from_option id].
  - by rewrite (Hq k values Hk).
  - done.
Qed.

(** X24. On a request whose query has no key with a non-empty first
    value (in particular on a request without query), the handler with
    query parameters does exactly what the plain handler does. *)
Theorem CommandHandlerWithQueryParams_without_query
        (f : CommandFunc) (a : Args) (resultsWriter : option ResultsWriter)
        (errHandlers : list Handler) (withQuery plain : gorillamux.HandlerFunc)
        (request : Request) (st : gorillamux.State) :
  gorillamux.CommandHandlerWithQueryParams f a resultsWriter errHandlers = Returned withQuery ->
  gorillamux.CommandHandler f a resultsWriter errHandlers = Returned plain ->
  (forall k values, URLQuery request !! k = Some values ->
                    gorillamux.firstValueNonEmpty values = false) ->
  withQuery request st = plain request st.
Proof.
  unfold gorillamux.CommandHandlerWithQueryParams, gorillamux.CommandHandler.
  destruct (MustGetStringMapArgsResultValuesFunc f a) as [cmdFunc|v]; [|done].
  intros <-%Returned_inj <-%Returned_inj Hq. cbn beta zeta.
  by rewrite (addQueryParams_nothing _ _ _ Hq).
Qed.

End HttpMore.

(** ** The order of strings and sorting *)

Lemma byte_val_inj (x y : ascii) : byte_val x = byte_val y -> x = y.
Proof.
  unfold byte_val. intros H. apply N2Z.inj in H.
  rewrite <- (ascii_N_embedding x), <- (ascii_N_embedding y). by rewrite H.
Qed.

Lemma stringLess_irrefl (a : string) : stringLess a a = false.
Proof.
  induction a as [|x a IH]; [done|]. cbn [stringLess].
  rewrite Z.ltb_irrefl, Z.eqb_refl. exact IH.
Qed.

Lemma stringLess_asym (a b : string) : stringLess a b = true -> stringLess b a = false.
Proof.
  revert b; induction a as [|x a IH]; intros [|y b]; cbn [stringLess]; try done.
  destruct (Z.ltb_spec (byte_val x) (byte_val y)), (Z.ltb_spec (byte_val y) (byte_val x)),
    (Z.eqb_spec (byte_val x) (byte_val y)), (Z.eqb_spec (byte_val y) (byte_val x));
    try lia; try done. apply IH.
Qed.

Lemma stringLess_total (a b : string) :
  a <> b -> stringLess a b = true \/ stringLess b a = true.
Proof.
  revert b; induction a as [|x a IH]; intros [|y b] Hne; cbn [stringLess]; auto.
  destruct (Z.ltb_spec (byte_val x) (byte_val y)), (Z.ltb_spec (byte_val y) (byte_val x)),
    (Z.eqb_spec (byte_val x) (byte_val y)), (Z.eqb_spec (byte_val y) (byte_val x));
    try lia; auto.
  apply IH. intros ->. apply Hne. f_equal. by apply byte_val_inj.
Qed.

Lemma stringLess_trans (a b c : string) :
  stringLess a b = true -> stringLess b c = true -> stringLess a c = true.
Proof.
  revert b c; induction a as [|x a IH]; intros [|y b] [|z c]; cbn [stringLess]; try done.
  destruct (Z.ltb_spec (byte_val x) (byte_val y)), (Z.ltb_spec (byte_val y) (byte_val z)),
    (Z.ltb_spec (byte_val x) (byte_val z)),
    (Z.eqb_spec (byte_val x) (byte_val y)), (Z.eqb_spec (byte_val y) (byte_val z)),
    (Z.eqb_spec (byte_val x) (byte_val z));
    try lia; try done. apply IH.
Qed.

Section SortByKey.
Context {A K : Type} `{EqDecision K} (key : A -> K) (lt : K -> K -> bool).
Hypothesis lt_asym : forall a b, lt a b = true -> lt b a = false.
Hypothesis lt_total : forall a b, a <> b -> lt a b = true \/ lt b a = true.
Hypothesis lt_trans : forall a b c, lt a b = true -> lt b c = true -> lt a c = true.

Let less (x y : A) : bool := lt (key x) (key y).
Let R (x y : A) : Prop := less y x = false.

Lemma sortByKey_total : Total R.
Proof.
  intros x y. unfold R, less.
  destruct (lt (key y) (key x)) eqn:Hyx; [right|by left].
  by apply lt_asym.
Qed.

Lemma sortByKey_trans : Transitive R.
Proof.
  intros x y z Hxy Hyz. unfold R, less in *.
  destruct (lt (key z) (key x)) eqn:Hzx; [|done].
  destruct (decide (key x = key y)) as [Heq|Hne]; [congruence|].
  destruct (lt_total _ _ Hne) as [Hlt|Hlt]; [|congruence].
  by rewrite (lt_trans _ _ _ Hzx Hlt) in Hyz.
Qed.

Lemma sortSlice_Permutation (l : list A) : sortSlice less l ≡ₚ l.
Proof. apply merge_sort_Permutation. Qed.

Lemma sortSlice_StronglySorted (l : list A) : StronglySorted R (sortSlice less l).
Proof.
  apply (@StronglySorted_merge_sort A R _ sortByKey_trans sortByKey_total).
Qed.

(** With pairwise different keys the keys of a sorted list ascend
    strictly. *)
Lemma StronglySorted_keys_strict (l : list A) :
  NoDup (key <$> l) -> StronglySorted R l ->
  StronglySorted (fun a b => lt a b = true) (key <$> l).
Proof.
  induction l as [|x l IH]; cbn [fmap list_fmap]; [constructor|].
  intros [Hx Hnd]%NoDup_cons [Hl Hall]%StronglySorted_inv.
  constructor; [by apply IH|].
  apply Forall_fmap, Forall_forall. intros y Hy. cbn.
  rewrite Forall_forall in Hall. specialize (Hall y Hy). unfold R, less in Hall.
  destruct (lt_total (key x) (key y)) as [?|?]; [|done|congruence].
  intros Heq. apply Hx. rewrite Heq. by apply list_elem_of_fmap_2.
Qed.

Lemma sortSlice_keys_strict (l : list A) :
  NoDup (key <$> l) ->
  StronglySorted (fun a b => lt a b = true) (key <$> sortSlice less l).
Proof.
  intros Hnd. apply StronglySorted_keys_strict.
  - by rewrite sortSlice_Permutation.
  - apply sortSlice_StronglySorted.
Qed.

(** With pairwise different keys the sorted list does not depend on the
    order of the list that is sorted. *)
Lemma sortSlice_order_independent (l l' : list A) :
  NoDup (key <$> l) -> l' ≡ₚ l -> sortSlice less l' = sortSlice less l.
Proof.
  intros Hnd Hperm.
  apply (StronglySorted_unique_strong R); try apply sortSlice_StronglySorted.
  - intros x1 x2 Hx1 Hx2 H12 H21.
    rewrite sortSlice_Permutation, Hperm in Hx1. rewrite sortSlice_Permutation in Hx2.
    unfold R, less in H12, H21.
    assert (Hk : key x1 = key x2).
    { destruct (decide (key x1 = key x2)) as [|Hne]; [done|].
      destruct (lt_total _ _ Hne); congruence. }
    apply list_elem_of_lookup in Hx1 as [i1 Hi1]. apply list_elem_of_lookup in Hx2 as [i2 Hi2].
    assert (i1 = i2) as ->; [|congruence].
    eapply (NoDup_lookup (key <$> l)); [done| |].
    + by rewrite list_lookup_fmap, Hi1.
    + by rewrite list_lookup_fmap, Hi2, Hk.
  - by rewrite !sortSlice_Permutation.
Qed.

End SortByKey.

(** ** Printing *)

Section PrintingProperties.
Context {penv : PrintEnv}.

Lemma rangeValues_commands (d : StringArgsDispatcher) :
  (forall k cmd, comm d !! k = Some cmd -> command cmd = k) ->
  command <$> rangeValues (comm d) = (map_to_list (comm d)).*1.
Proof.
  intros Hkeyed. unfold rangeValues. rewrite <- list_fmap_compose.
  apply Forall_fmap_ext_1, Forall_forall. intros [k cmd] Hin. cbn.
  apply elem_of_map_to_list in Hin. by apply Hkeyed.
Qed.

Lemma elem_of_rangeValues {V} (m : gmap string V) (v : V) :
  v ∈ rangeValues m <-> exists k, m !! k = Some v.
Proof.
  unfold rangeValues. rewrite list_elem_of_fmap. split.
  - intros ([k v'] & -> & Hkv). apply elem_of_map_to_list in Hkv. eauto.
  - intros [k Hk]. exists (k, v). split; [done|]. by apply elem_of_map_to_list.
Qed.

(** X25. In a reachable state [PrintCommands] prints one block per
    registered command, the blocks in strictly ascending byte order of
    the command names, each command once; the state is unchanged, and
    the output does not depend on the order in which the loop over the
    map visits the entries. *)
Theorem PrintCommands_sorted
        (st : State) (disp : ptr) (d : StringArgsDispatcher) (appName : string) :
  reachable st ->
  deref st disp = Some d ->
  exists listing,
    PrintCommands disp appName st
    = (Returned (flat_map (fun cmd => printCommand appName (command cmd) cmd) listing), st)
    /\ StronglySorted (fun a b => stringLess a b = true) (command <$> listing)
    /\ (forall cmd, cmd ∈ listing <-> comm d !! command cmd = Some cmd)
    /\ length listing = size (comm d)
    /\ forall visited,
        visited ≡ₚ rangeValues (comm d) ->
        printCommandsVisited appName visited
        = flat_map (fun cmd => printCommand appName (command cmd) cmd) listing.
Proof.
  intros Hr Hd.
  assert (Hkeyed : forall k cmd, comm d !! k = Some cmd -> command cmd = k).
  { intros k cmd Hk. destruct disp as [i|]; [|done].
    by destruct (reachable_wellFormed st Hr i d Hd k cmd Hk). }
  assert (Hnd : NoDup (command <$> rangeValues (comm d))).
  { rewrite (rangeValues_commands d Hkeyed). apply NoDup_fst_map_to_list. }
  exists (sortSlice lessByCommand (rangeValues (comm d))).
  repeat apply conj.
  - unfold PrintCommands, bind. by rewrite (load_allocated _ _ _ Hd).
  - by apply (sortSlice_keys_strict command stringLess stringLess_asym stringLess_total
                                    stringLess_trans).
  - intros cmd. unfold lessByCommand.
    rewrite (sortSlice_Permutation command stringLess), elem_of_rangeValues. split.
    + intros [k Hk]. by rewrite (Hkeyed k cmd Hk).
    + eauto.
  - unfold lessByCommand. rewrite (sortSlice_Permutation command stringLess).
    unfold rangeValues. by rewrite length_fmap, length_map_to_list.
  - intros visited Hperm. unfold printCommandsVisited. f_equal.
    by apply (sortSlice_order_independent command stringLess stringLess_asym
                                          stringLess_total stringLess_trans).
Qed.


End PrintingProperties.

Section SuperPrintingProperties.
Context {penv : PrintEnv}.










End SuperPrintingProperties.

(** ** Request bodies in JSON *)

Section JSONWrappers.
Context {jenv : JSONEnv}.

Lemma setBodyFields_union (visited : list (string * JSONValue)) (vars : gmap string string) :
  NoDup visited.*1 ->
  gorillamuxJSON.setBodyFields visited vars
  = (Sprint <$> (list_to_map visited : gmap string JSONValue)) ∪ vars.
Proof.
  unfold gorillamuxJSON.setBodyFields.
  revert vars; induction visited as [|[k v] rest IH]; intros vars Hnd; cbn [foldl].
  - cbn. by rewrite fmap_empty, (left_id_L ∅ (∪)).
  - apply NoDup_cons in Hnd as [Hk Hnd]. rewrite (IH _ Hnd).
    unfold gorillamuxJSON.setBodyField. cbn [fst snd list_to_map foldr].
    rewrite fmap_insert, <- insert_union_l. symmetry. apply insert_union_r.
    rewrite lookup_fmap. apply fmap_None.
    by apply not_elem_of_list_to_map_1.
Qed.

(** The loop of [MapJSONBodyFieldsAsVars] keeps what a variable holds
    when every entry that writes to it writes that same content. *)
Lemma mapBodyFields_lookup_inv (bodyFields : gmap string JSONValue)
      (visited : list (string * string)) (vars : gmap string string)
      (v : string) (x : option string) :
  vars !! v = x ->
  (forall f value, (f, v) ∈ visited -> bodyFields !! f = Some value ->
                   x = Some (Sprint value)) ->
  gorillamuxJSON.mapBodyFields bodyFields visited vars !! v = x.
Proof.
  unfold gorillamuxJSON.mapBodyFields.
  revert vars; induction visited as [|[f0 v0] rest IH]; intros vars Hv Hall; [done|].
  cbn [foldl]. apply IH.
  - unfold gorillamuxJSON.mapBodyField.
    destruct (bodyFields !! f0) as [value|] eqn:Hf0; [|done].
    destruct (decide (v0 = v)) as [->|Hne].
    + rewrite lookup_insert_eq. symmetry. apply (Hall f0 value); [by left|done].
    + by rewrite lookup_insert_ne.
  - intros f value Hin. apply Hall. by right.
Qed.

Lemma mapBodyFields_lookup_set (bodyFields : gmap string JSONValue)
      (visited : list (string * string)) (vars : gmap string string)
      (f v : string) (value : JSONValue) :
  (f, v) ∈ visited ->
  bodyFields !! f = Some value ->
  (forall f', (f', v) ∈ visited -> is_Some (bodyFields !! f') -> f' = f) ->
  gorillamuxJSON.mapBodyFields bodyFields visited vars !! v = Some (Sprint value).
Proof.
  revert vars; induction visited as [|[f0 v0] rest IH]; intros vars Hin Hf Huniq.
  { by apply elem_of_nil in Hin. }
  apply elem_of_cons in Hin as [[= <- <-]|Hin].
  - unfold gorillamuxJSON.mapBodyFields. cbn [foldl].
    apply mapBodyFields_lookup_inv.
    + unfold gorillamuxJSON.mapBodyField. rewrite Hf. apply lookup_insert_eq.
    + intros f' value' Hin' Hf'. rewrite (Huniq f') in Hf'; [congruence|by right|eauto].
  - unfold gorillamuxJSON.mapBodyFields. cbn [foldl]. apply IH; [done|done|].
    intros f' Hin'. apply Huniq. by right.
Qed.

(** X29. [JSONBodyFieldsAsVars]: when the body does not decode, the
    bad-request handler is served and the wrapped handler is not called.
    When it decodes, the wrapped handler is called once, with variables
    in which every field of the body holds its printed value, overriding
    the path variable of that name, and the other path variables are
    kept; the order in which the fields are visited does not matter.
    The body is closed last in both cases. *)
Theorem JSONBodyFieldsAsVars_calls
        (wrappedHandler : HTTPHandler) (request : Request) (st : gorillamuxJSON.State) :
  (forall e w,
      DecodeBody request (gorillamuxJSON.world st) = (inr e, w) ->
      gorillamuxJSON.JSONBodyFieldsAsVars wrappedHandler request st
      = (Returned tt,
         {| gorillamuxJSON.trace :=
              gorillamuxJSON.trace st
              ++ [gorillamuxJSON.DecodeCall; gorillamuxJSON.BadRequestCall;
                  gorillamuxJSON.BodyCloseCall];
            gorillamuxJSON.world := CloseBody request (BadRequestServeHTTP request w) |}))
  /\ (forall bodyFields w,
         DecodeBody request (gorillamuxJSON.world st) = (inl bodyFields, w) ->
         let vars := (Sprint <$> bodyFields) ∪ muxVars request in
         gorillamuxJSON.JSONBodyFieldsAsVars wrappedHandler request st
         = (Returned tt,
            {| gorillamuxJSON.trace :=
                 gorillamuxJSON.trace st
                 ++ [gorillamuxJSON.DecodeCall;
                     gorillamuxJSON.ServeHTTPCall wrappedHandler vars;
                     gorillamuxJSON.BodyCloseCall];
               gorillamuxJSON.world :=
                 CloseBody request (ServeHTTP wrappedHandler request vars w) |})
         /\ forall visited,
             visited ≡ₚ map_to_list bodyFields ->
             gorillamuxJSON.setBodyFields visited (muxVars request) = vars).
Proof.
  split.
  - intros e w Hdec. unfold gorillamuxJSON.JSONBodyFieldsAsVars, bind.
    unfold gorillamuxJSON.callDecode, gorillamuxJSON.callBadRequest,
      gorillamuxJSON.callBodyClose. rewrite Hdec. cbn.
    by rewrite <- !app_assoc.
  - intros bodyFields w Hdec vars.
    assert (Hany : forall visited, visited ≡ₚ map_to_list bodyFields ->
                     gorillamuxJSON.setBodyFields visited (muxVars request) = vars).
    { intros visited Hperm.
      assert (Hnd : NoDup visited.*1).
      { rewrite Hperm. apply NoDup_fst_map_to_list. }
      rewrite (setBodyFields_union _ _ Hnd). subst vars. f_equal. f_equal.
      rewrite (list_to_map_proper _ _ Hnd Hperm). apply list_to_map_to_list. }
    split; [|done].
    unfold gorillamuxJSON.JSONBodyFieldsAsVars, bind.
    unfold gorillamuxJSON.callDecode, gorillamuxJSON.callServeHTTP,
      gorillamuxJSON.callBodyClose. rewrite Hdec. cbn zeta.
    rewrite (Hany _ (reflexivity _)). cbn. by rewrite <- !app_assoc.
Qed.

(** X30. [MapJSONBodyFieldsAsVars]: when the body does not decode, the
    bad-request handler is served and the wrapped handler is not called.
    When it decodes, the wrapped handler is called once; a variable that
    no field present in the body is mapped to holds what the path
    variables hold, and a variable to which exactly one field present in
    the body is mapped holds the printed value of that field. *)
Theorem MapJSONBodyFieldsAsVars_calls
        (mapping : gmap string string) (wrappedHandler : HTTPHandler)
        (request : Request) (st : gorillamuxJSON.State) :
  (forall e w,
      DecodeBody request (gorillamuxJSON.world st) = (inr e, w) ->
      gorillamuxJSON.MapJSONBodyFieldsAsVars mapping wrappedHandler request st
      = (Returned tt,
         {| gorillamuxJSON.trace :=
              gorillamuxJSON.trace st
              ++ [gorillamuxJSON.DecodeCall; gorillamuxJSON.BadRequestCall;
                  gorillamuxJSON.BodyCloseCall];
            gorillamuxJSON.world := CloseBody request (BadRequestServeHTTP request w) |}))
  /\ (forall bodyFields w,
         DecodeBody request (gorillamuxJSON.world st) = (inl bodyFields, w) ->
         exists vars,
           gorillamuxJSON.MapJSONBodyFieldsAsVars mapping wrappedHandler request st
           = (Returned tt,
              {| gorillamuxJSON.trace :=
                   gorillamuxJSON.trace st
                   ++ [gorillamuxJSON.DecodeCall;
                       gorillamuxJSON.ServeHTTPCall wrappedHandler vars;
                       gorillamuxJSON.BodyCloseCall];
                 gorillamuxJSON.world :=
                   CloseBody request (ServeHTTP wrappedHandler request vars w) |})
           /\ (forall v,
                  (forall f, mapping !! f = Some v -> bodyFields !! f = None) ->
                  vars !! v = muxVars request !! v)
           /\ (forall f v value,
                  mapping !! f = Some v ->
                  bodyFields !! f = Some value ->
                  (forall f', mapping !! f' = Some v -> is_Some (bodyFields !! f') -> f' = f) ->
                  vars !! v = Some (Sprint value))).
Proof.
  split.
  - intros e w Hdec. unfold gorillamuxJSON.MapJSONBodyFieldsAsVars, bind.
    unfold gorillamuxJSON.callDecode, gorillamuxJSON.callBadRequest,
      gorillamuxJSON.callBodyClose. rewrite Hdec. cbn.
    by rewrite <- !app_assoc.
  - intros bodyFields w Hdec.
    exists (gorillamuxJSON.mapBodyFields bodyFields (map_to_list mapping) (muxVars request)).
    repeat apply conj.
    + unfold gorillamuxJSON.MapJSONBodyFieldsAsVars, bind.
      unfold gorillamuxJSON.callDecode, gorillamuxJSON.callServeHTTP,
        gorillamuxJSON.callBodyClose. rewrite Hdec. cbn. by rewrite <- !app_assoc.
    + intros v Hnone. apply mapBodyFields_lookup_inv; [done|].
      intros f value Hin%elem_of_map_to_list Hf. by rewrite (Hnone f Hin) in Hf.
    + intros f v value Hm Hf Huniq. apply (mapBodyFields_lookup_set _ _ _ f).
      * by apply elem_of_map_to_list.
      * done.
      * intros f' Hin%elem_of_map_to_list. by apply Huniq.
Qed.

End JSONWrappers.

(** ** The further properties at concrete inputs *)

Lemma testRegistered_deref : deref testRegistered (Some 0%nat) = Some testGreetDispatcher.
Proof. vm_compute. reflexivity. Defined.

Lemma testRegistered_reachable : reachable testRegistered.
Proof. unfold testRegistered. apply reachable_call, reachable_call, reachable_start. Defined.

Lemma AddCommand_error_leaves_state_witness :
  (@StringArgsDispatcher.AddCommand testEnv (Some 0%nat) "greet" "again" ("twice", None)
      true [] testRegistered).2
  = testRegistered.
Proof.
  apply (@AddCommand_error_leaves_state testEnv testRegistered _ (Some 0%nat) "greet"
           "again" ("twice", None) true [] (errorString "Command 'greet' already added")).
  vm_compute. reflexivity.
Defined.

Lemma AddCommand_succeeds_iff_witness :
  exists st', @StringArgsDispatcher.AddCommand testEnv (Some 0%nat) "list" "lists all"
                ("listed", None) true [] testRegistered
              = (Returned None, st').
Proof.
  apply (@AddCommand_succeeds_iff testEnv testRegistered (Some 0%nat) testGreetDispatcher
           "list" "lists all" ("listed", None) true [] testRegistered_deref).
  split; [vm_compute; reflexivity|]. split; [vm_compute; reflexivity|].
  eexists. vm_compute. reflexivity.
Defined.

Lemma AddCommand_then_Dispatch_witness :
  trace ((let* _ := @StringArgsDispatcher.AddCommand testEnv (Some 0%nat) "list" "lists all"
                      ("listed", None) true [] in
          @StringArgsDispatcher.Dispatch testEnv (Some 0%nat) tt "list" ["all"])
           testRegistered).2
  = [@LogCall testEnv "audit" "list" ["all"]; @LogCall testEnv "debug" "list" ["all"];
     @FuncCall testEnv (fun _ _ w => (None, w ++ ["listed"])) tt ["all"]].
Proof.
  rewrite (@AddCommand_then_Dispatch testEnv testRegistered 0 testGreetDispatcher
             "list" "lists all" ("listed", None) true []
             (fun _ _ w => (None, w ++ ["listed"])) tt ["all"] testRegistered_deref).
  - reflexivity.
  - vm_compute. reflexivity.
  - vm_compute. reflexivity.
  - reflexivity.
Defined.

Lemma AddCommand_frame_witness :
  exists d', heap (@StringArgsDispatcher.AddCommand testEnv (Some 0%nat) "list" "lists all"
                     ("listed", None) true [] testRegistered).2 !! 0%nat = Some d'
             /\ loggers d' = ["audit"; "debug"]
             /\ comm d' !! "greet" = comm testGreetDispatcher !! "greet".
Proof.
  destruct (@AddCommand_frame testEnv testRegistered _ 0 "list" "lists all"
              ("listed", None) true [] _ (surjective_pairing _))
    as (_ & _ & Hframe).
  destruct (Hframe 0%nat testGreetDispatcher testRegistered_deref)
    as (d' & Hd' & Hl & Hk & _).
  exists d'. split; [exact Hd'|]. split; [exact Hl|]. apply Hk. discriminate.
Defined.

Lemma AddCommand_Default_refused_witness :
  exists e, @StringArgsDispatcher.AddCommand testEnv (Some 0%nat) Default "the default"
              ("ran", None) true [] testRegistered
            = (Returned (Some e), testRegistered).
Proof.
  exact (@AddCommand_Default_refused testEnv testRegistered (Some 0%nat) testGreetDispatcher
           "the default" ("ran", None) true [] testRegistered_deref).
Defined.

Lemma AddDefaultCommand_then_DispatchDefaultCommand_witness :
  trace ((let* _ := @StringArgsDispatcher.AddDefaultCommand testEnv (Some 0%nat)
                      "the default" ("ran", None) true [] in
          @StringArgsDispatcher.DispatchDefaultCommand testEnv (Some 0%nat))
           testRegistered).2
  = [@LogCall testEnv "audit" "" []; @LogCall testEnv "debug" "" [];
     @FuncCall testEnv (fun _ _ w => (None, w ++ ["ran"])) tt []].
Proof.
  rewrite (@AddDefaultCommand_then_DispatchDefaultCommand testEnv testRegistered 0
             testGreetDispatcher "the default" ("ran", None) true []
             (fun _ _ w => (None, w ++ ["ran"])) testRegistered_deref).
  - reflexivity.
  - reflexivity.
Defined.

Lemma AddDefaultCommand_fails_only_on_binding_witness :
  @StringArgsDispatcher.AddDefaultCommand testEnv (Some 0%nat) "the default" ("ran", None)
     false [] testRegistered
  = (Returned (Some (wrapError "Default command: arguments do not fit the function"
                               (errorString "arguments do not fit the function"))),
     testRegistered).
Proof.
  apply (@AddDefaultCommand_fails_only_on_binding testEnv testRegistered testRegistered
           (Some 0%nat) testGreetDispatcher "the default" ("ran", None) false []
           _ testRegistered_deref).
  split; [reflexivity|]. eexists. split; reflexivity.
Defined.

Lemma HasCommnd_false_iff_Dispatch_not_found_witness :
  @StringArgsDispatcher.HasCommnd testEnv (Some 0%nat) "absent" testRegistered
  = (Returned false, testRegistered).
Proof.
  apply (proj2 (@HasCommnd_false_iff_Dispatch_not_found testEnv testRegistered (Some 0%nat)
                  testGreetDispatcher tt "absent" [] testRegistered_deref)).
  vm_compute. reflexivity.
Defined.

Lemma DispatchCombinedCommandAndArgs_is_Dispatch_witness :
  exists err st',
    @StringArgsDispatcher.DispatchCombinedCommandAndArgs testEnv (Some 0%nat) tt
       ["greet"; "World"] testRegistered
    = (Returned ("greet", err), st')
    /\ @StringArgsDispatcher.Dispatch testEnv (Some 0%nat) tt "greet" ["World"] testRegistered
       = (Returned err, st').
Proof.
  exact (@DispatchCombinedCommandAndArgs_is_Dispatch testEnv testRegistered (Some 0%nat)
           testGreetDispatcher tt ["greet"; "World"] testRegistered_deref).
Defined.

Lemma lookup_calls_leave_dispatchers_witness :
  heap (execAll [@CallDispatch testEnv false (Some 0%nat) tt "greet" ["World"];
                 @CallHasCommnd testEnv (Some 0%nat) "absent";
                 @CallDispatchDefaultCommand testEnv true (Some 0%nat)]
                testRegistered)
  = heap testRegistered.
Proof.
  apply (@lookup_calls_leave_dispatchers testEnv). reflexivity.
Defined.

Lemma registered_stays_registered_witness :
  exists d', heap (execAll [@CallAddCommand testEnv false (Some 0%nat) "list" "lists all"
                              ("listed", None) true [];
                            @CallAddDefaultCommand testEnv true (Some 0%nat) "the default"
                              ("ran", None) true [];
                            @CallDispatch testEnv false (Some 0%nat) tt "greet" []]
                           testRegistered) !! 0%nat = Some d'
             /\ loggers d' = loggers testGreetDispatcher
             /\ is_Some (comm d' !! "greet").
Proof.
  apply (@registered_stays_registered testEnv _ testRegistered 0 testGreetDispatcher "greet").
  - exact testRegistered_deref.
  - vm_compute. eexists. reflexivity.
Defined.

Lemma reachable_entries_wellFormed_witness :
  exists cmd, comm testGreetDispatcher !! "greet" = Some cmd
              /\ command cmd = "greet"
              /\ @GetStringArgsFunc testEnv (commandFunc cmd) (args cmd) (resultsHandlers cmd)
                 = inl (stringArgsFunc cmd).
Proof.
  destruct (comm testGreetDispatcher !! "greet") as [cmd|] eqn:Hcmd;
    [|vm_compute in Hcmd; discriminate].
  exists cmd. split; [reflexivity|].
  destruct (@reachable_entries_wellFormed testEnv testRegistered 0 testGreetDispatcher
              "greet" cmd testRegistered_reachable testRegistered_deref Hcmd)
    as (Hname & _ & Hbound).
  split; [exact Hname|exact Hbound].
Defined.



Lemma AddSuperCommand_registers_witness :
  exists p disp' st',
    @SuperStringArgsDispatcher.AddSuperCommand testEnv testSuper "web" testSuperState
    = (Returned (disp', (p, None)), st')
    /\ deref testSuperState p = None
    /\ deref st' p = Some (@Build_StringArgsDispatcher testEnv ∅ ["audit"])
    /\ forall name,
        @SuperStringArgsDispatcher.Dispatch testEnv disp' tt "web" name [] st'
        = (Returned (Some ErrNotFound), st').
Proof.
  destruct (@AddSuperCommand_registers testEnv testSuperState testSuper "web")
    as (p & disp' & st' & Hrun & Hfresh & Hnew & _ & _ & _ & _ & Hdisp).
  - vm_compute. reflexivity.
  - right. vm_compute. reflexivity.
  - exists p, disp', st'. split; [exact Hrun|]. split; [exact Hfresh|].
    split; [exact Hnew|]. intros name. apply Hdisp.
Defined.

Lemma AddSuperCommand_error_leaves_state_witness :
  (@SuperStringArgsDispatcher.AddSuperCommand testEnv testSuper "db" testSuperState).2
  = testSuperState.
Proof.
  assert (Hrun : @SuperStringArgsDispatcher.AddSuperCommand testEnv testSuper "db"
                   testSuperState
                 = (Returned (testSuper,
                              (nil, Some (errorString "super command already added: 'db'"))),
                    (@SuperStringArgsDispatcher.AddSuperCommand testEnv testSuper "db"
                       testSuperState).2)).
  { vm_compute. reflexivity. }
  destruct (@AddSuperCommand_error_leaves_state testEnv _ _ _ _ _ _ _ Hrun)
    as (_ & _ & Hst & _).
  exact Hst.
Defined.

Lemma Super_AddDefaultCommand_refuses_existing_witness :
  @SuperStringArgsDispatcher.AddDefaultCommand testEnv testSuperDefault "the default"
     ("ran", None) true [] testSuperState
  = (Returned (testSuperDefault, Some (errorString "super command already added: ''")),
     testSuperState).
Proof.
  apply (@Super_AddDefaultCommand_refuses_existing testEnv).
  vm_compute. eexists. reflexivity.
Defined.

Lemma Super_AddDefaultCommand_binding_error_registers_witness :
  exists disp' st',
    @SuperStringArgsDispatcher.AddDefaultCommand testEnv testSuper "the default"
       ("ran", None) false [] testSuperState
    = (Returned (disp', Some (wrapError "Default command: arguments do not fit the function"
                                        (errorString "arguments do not fit the function"))),
       st')
    /\ @SuperStringArgsDispatcher.AddDefaultCommand testEnv disp' "the default"
         ("ran", None) true [] st'
       = (Returned (disp', Some (errorString "super command already added: ''")), st').
Proof.
  destruct (@Super_AddDefaultCommand_binding_error_registers testEnv testSuperState testSuper
              "the default" ("ran", None) false []
              (errorString "arguments do not fit the function"))
    as [Hfirst Hsecond].
  - vm_compute. reflexivity.
  - reflexivity.
  - do 2 eexists. split; [exact Hfirst|]. apply Hsecond.
Defined.

Lemma Super_AddDefaultCommand_then_DispatchDefaultCommand_witness :
  trace ((let* r := @SuperStringArgsDispatcher.AddDefaultCommand testEnv testSuper
                      "the default" ("ran", None) true [] in
          @SuperStringArgsDispatcher.DispatchDefaultCommand testEnv r.1) testSuperState).2
  = [@LogCall testEnv "audit" "" [];
     @FuncCall testEnv (fun _ _ w => (None, w ++ ["ran"])) tt []].
Proof.
  rewrite (@Super_AddDefaultCommand_then_DispatchDefaultCommand testEnv testSuperState
             testSuper "the default" ("ran", None) true []
             (fun _ _ w => (None, w ++ ["ran"]))).
  - reflexivity.
  - vm_compute. reflexivity.
  - reflexivity.
Defined.

Lemma AddSuperCommand_AddCommand_then_Dispatch_witness :
  trace ((let* r := @SuperStringArgsDispatcher.AddSuperCommand testEnv testSuper "web" in
          let* _ := @StringArgsDispatcher.AddCommand testEnv r.2.1 "start" "starts it"
                      ("started", None) true [] in
          @SuperStringArgsDispatcher.Dispatch testEnv r.1 tt "web" "start" ["8080"])
           testSuperState).2
  = [@LogCall testEnv "audit" "start" ["8080"];
     @FuncCall testEnv (fun _ _ w => (None, w ++ ["started"])) tt ["8080"]].
Proof.
  rewrite (@AddSuperCommand_AddCommand_then_Dispatch testEnv testSuperState testSuper
             "web" "start" "starts it" ("started", None) true []
             (fun _ _ w => (None, w ++ ["started"])) tt ["8080"]).
  - reflexivity.
  - vm_compute. reflexivity.
  - right. vm_compute. reflexivity.
  - vm_compute. reflexivity.
  - reflexivity.
Defined.

Lemma CommandHandler_calls_witness :
  exists handler,
    @gorillamux.CommandHandler testHttpEnv ("run", Some (errorString "failed")) true
       (Some tt) ["log"]
    = Returned handler
    /\ gorillamux.trace (handler testRequestRepeated testHttpStart).2
       = [@gorillamux.CmdFuncCall testHttpEnv tt {["id" := "5"]};
          @gorillamux.WriteResultsCall testHttpEnv tt {["id" := "5"]} []
             (Some (errorString "failed"));
          @gorillamux.HandleErrorCall testHttpEnv "log" (errorString "failed")].
Proof.
  destruct (@CommandHandler_calls testHttpEnv ("run", Some (errorString "failed")) true
              (Some tt) ["log"] _ testRequestRepeated testHttpStart eq_refl)
    as (handler & Hh & _ & Htr).
  exists handler. split; [exact Hh|]. rewrite Htr. reflexivity.
Defined.

Lemma CommandHandlerRequestBodyArg_calls_witness :
  exists handler,
    @gorillamux.CommandHandlerRequestBodyArg testHttpEnv ("name", "x", None)
       ("run", None) true None []
    = Returned handler
    /\ gorillamux.trace (handler testRequestRepeated testHttpStart).2
       = [@gorillamux.RequestBodyToArgCall testHttpEnv ("name", "x", None);
          @gorillamux.CmdFuncCall testHttpEnv tt (<["name" := "x"]> {["id" := "5"]})].
Proof.
  destruct (@CommandHandlerRequestBodyArg_calls testHttpEnv ("name", "x", None)
              ("run", None) true None [] _ testRequestRepeated testHttpStart "name" "x" []
              eq_refl eq_refl)
    as (handler & Hh & _ & Htr).
  - vm_compute. reflexivity.
  - exists handler. split; [exact Hh|]. rewrite Htr. reflexivity.
Defined.

Lemma CommandHandlerRequestBodyArg_converter_fails_witness :
  exists handler,
    @gorillamux.CommandHandlerRequestBodyArg testHttpEnv
       ("", "", Some (errorString "body too large")) ("run", None) true (Some tt) []
    = Returned handler
    /\ gorillamux.trace (handler testRequestRepeated testHttpStart).2
       = [@gorillamux.RequestBodyToArgCall testHttpEnv
             ("", "", Some (errorString "body too large"));
          @gorillamux.HttperrHandleCall testHttpEnv (errorString "body too large")].
Proof.
  eexists. split; [reflexivity|].
  apply (@CommandHandlerRequestBodyArg_converter_fails testHttpEnv
           ("", "", Some (errorString "body too large")) ("run", None) true (Some tt) []
           _ testRequestRepeated testHttpStart "" "" (errorString "body too large") []).
  - reflexivity.
  - reflexivity.
Defined.

Lemma addQueryParams_order_independent_witness :
  gorillamux.addQueryParams (testQuery testRequestRepeated) ["id"; "sort"]
     (testVars testRequestRepeated)
  = gorillamux.addQueryParams (testQuery testRequestRepeated)
      ["sort"; "id"; "id"] (testVars testRequestRepeated).
Proof.
  apply addQueryParams_order_independent. intros k.
  rewrite !elem_of_cons, !elem_of_nil. tauto.
Defined.

Lemma CommandHandlerWithQueryParams_without_query_witness :
  exists withQuery plain,
    @gorillamux.CommandHandlerWithQueryParams testHttpEnv ("run", None) true None []
    = Returned withQuery
    /\ @gorillamux.CommandHandler testHttpEnv ("run", None) true None [] = Returned plain
    /\ withQuery testRequestEmptyFirst testHttpStart
       = plain testRequestEmptyFirst testHttpStart.
Proof.
  destruct (@gorillamux.CommandHandlerWithQueryParams testHttpEnv ("run", None) true None [])
    as [withQuery|v] eqn:Hq; [|vm_compute in Hq; discriminate].
  destruct (@gorillamux.CommandHandler testHttpEnv ("run", None) true None [])
    as [plain|v] eqn:Hp; [|vm_compute in Hp; discriminate].
  exists withQuery, plain. split; [reflexivity|]. split; [reflexivity|].
  apply (@CommandHandlerWithQueryParams_without_query testHttpEnv ("run", None) true None []
           withQuery plain testRequestEmptyFirst testHttpStart Hq Hp).
  intros k values Hk. cbn in Hk. unfold testRequestEmptyFirst in Hk. cbn in Hk.
  apply lookup_singleton_Some in Hk as [_ <-]. reflexivity.
Defined.

Lemma testThree_deref : deref testThree (Some 0%nat) = Some testThreeDispatcher.
Proof. vm_compute. reflexivity. Defined.

Lemma testThree_reachable : reachable testThree.
Proof.
  unfold testThree, testRegistered. repeat apply reachable_call. apply reachable_start.
Defined.

Example testThree_sorted_names :
  command <$> sortSlice (@lessByCommand testPrintEnv) (rangeValues (comm testThreeDispatcher))
  = ["add"; "greet"; "list"].
Proof. vm_compute. reflexivity. Qed.

Lemma PrintCommands_sorted_witness :
  exists listing,
    @PrintCommands testPrintEnv (Some 0%nat) "app" testThree
    = (Returned (flat_map (fun cmd => @printCommand testPrintEnv "app" (command cmd) cmd)
                          listing), testThree)
    /\ StronglySorted (fun a b => stringLess a b = true) (command <$> listing)
    /\ length listing = 3%nat.
Proof.
  destruct (@PrintCommands_sorted testPrintEnv testThree (Some 0%nat) testThreeDispatcher
              "app" testThree_reachable testThree_deref)
    as (listing & Hrun & Hsorted & _ & Hlen & _).
  exists listing. split; [exact Hrun|]. split; [exact Hsorted|].
  rewrite Hlen. vm_compute. reflexivity.
Defined.




Lemma JSONBodyFieldsAsVars_calls_witness :
  gorillamuxJSON.trace
    (@gorillamuxJSON.JSONBodyFieldsAsVars testJSONEnv "next" testJSONRequestBad
       testJSONStart).2
  = [@gorillamuxJSON.DecodeCall testJSONEnv; @gorillamuxJSON.BadRequestCall testJSONEnv;
     @gorillamuxJSON.BodyCloseCall testJSONEnv]
  /\ gorillamuxJSON.trace
       (@gorillamuxJSON.JSONBodyFieldsAsVars testJSONEnv "next" testJSONRequestGood
          testJSONStart).2
     = [@gorillamuxJSON.DecodeCall testJSONEnv;
        @gorillamuxJSON.ServeHTTPCall testJSONEnv "next"
           ({["id" := "9"; "name" := "x"]} ∪ {["id" := "5"]});
        @gorillamuxJSON.BodyCloseCall testJSONEnv].
Proof.
  split.
  - rewrite (proj1 (@JSONBodyFieldsAsVars_calls testJSONEnv "next" testJSONRequestBad
                      testJSONStart)
               (errorString "unexpected end of JSON input") ["decoded"] eq_refl).
    reflexivity.
  - rewrite (proj1 (proj2 (@JSONBodyFieldsAsVars_calls testJSONEnv "next" testJSONRequestGood
                             testJSONStart)
                      {["id" := "9"; "name" := "x"]} ["decoded"] eq_refl)).
    vm_compute. reflexivity.
Defined.

Lemma MapJSONBodyFieldsAsVars_calls_witness :
  exists vars,
    gorillamuxJSON.trace
      (@gorillamuxJSON.MapJSONBodyFieldsAsVars testJSONEnv {["name" := "who"]} "next"
         testJSONRequestGood testJSONStart).2
    = [@gorillamuxJSON.DecodeCall testJSONEnv;
       @gorillamuxJSON.ServeHTTPCall testJSONEnv "next" vars;
       @gorillamuxJSON.BodyCloseCall testJSONEnv]
    /\ vars !! "who" = Some "x"
    /\ vars !! "id" = Some "5".
Proof.
  destruct (proj2 (@MapJSONBodyFieldsAsVars_calls testJSONEnv {["name" := "who"]} "next"
                     testJSONRequestGood testJSONStart)
              {["id" := "9"; "name" := "x"]} ["decoded"] eq_refl)
    as (vars & Hrun & Hkeep & Hset).
  exists vars. split; [by rewrite Hrun|]. split.
  - apply (Hset "name" "who" "x"); [reflexivity|reflexivity|].
    intros f' Hf' _. by apply lookup_singleton_Some in Hf' as [-> _].
  - rewrite (Hkeep "id"); [reflexivity|].
    intros f Hf. apply lookup_singleton_Some in Hf as [_ Hne]. discriminate.
Defined.
